(** * NeoMutt configuration core: the Regex and Quad value codecs

    A shallow embedding of [config/regex.c] (the Regex type of the
    configuration registry) over an explicit object heap, and of what
    [test/config/quad.c] and the specification say of the Quad type,
    together with the properties of the mutation protocol that concern
    them. Of [config/regex.c] the functions [regex_free], [regex_destroy],
    [regex_create], [regex_string_set], [regex_string_get] and
    [regex_native_set] are embedded. *)

From Stdlib Require Import ZArith String Ascii List Bool Lia.
From stdpp Require Import base option gmap strings fin_maps.

Local Open Scope Z_scope.

(** ** Constants of the headers

    [config/set.h], [config/types.h] and [<regex.h>] are not among the
    sources: the result codes, the type flags and the compile flags that
    [config/regex.c] names are taken as parameters. *)

Class Headers := {
  CSR_SUCCESS : Z;
  CSR_ERR_CODE : Z;
  CSR_ERR_INVALID : Z;
  CSR_SUC_EMPTY : Z;
  CSR_SUC_NO_CHANGE : Z;
  CSR_INV_VALIDATOR : Z;
  CSR_RESULT_MASK : Z;
  DT_REGEX_MATCH_CASE : Z;
  DT_REGEX_ALLOW_NOT : Z;
  DT_REGEX_NOSUB : Z;
  DT_INITIAL_SET : Z;
  REG_ICASE : Z;
  REG_NOSUB : Z
}.

(** Modelled from the spec: the macro [CSR_RESULT] of [config/set.h] is
    not among the sources. Section 7 has a result be a classification
    (success, invalid value, ...) that carries marks (no change, empty,
    rejected by the validator): the classification is what the mask leaves
    of the code, the marks are the bits outside of it. *)
Definition CSR_RESULT `{Headers} (x : Z) : Z := Z.land x CSR_RESULT_MASK.

(** What the proofs need of the constants: the classifications live under
    the result mask and differ from success, the flag bits live outside of
    it, and the type flags and the compile flags are separate bits. *)
Definition headers_ok `{Headers} : bool :=
  (Z.land CSR_SUCCESS CSR_RESULT_MASK =? CSR_SUCCESS)
  && (Z.land CSR_ERR_INVALID CSR_RESULT_MASK =? CSR_ERR_INVALID)
  && negb (CSR_ERR_INVALID =? CSR_SUCCESS)
  && (Z.land CSR_SUC_EMPTY CSR_RESULT_MASK =? 0)
  && (Z.land CSR_SUC_NO_CHANGE CSR_RESULT_MASK =? 0)
  && (Z.land CSR_INV_VALIDATOR CSR_RESULT_MASK =? 0)
  && negb (CSR_SUC_EMPTY =? 0)
  && negb (CSR_SUC_NO_CHANGE =? 0)
  && negb (CSR_INV_VALIDATOR =? 0)
  && (Z.land CSR_SUC_EMPTY CSR_SUC_NO_CHANGE =? 0)
  && negb (DT_REGEX_MATCH_CASE =? 0)
  && negb (DT_REGEX_ALLOW_NOT =? 0)
  && negb (DT_REGEX_NOSUB =? 0)
  && (Z.land DT_REGEX_ALLOW_NOT DT_REGEX_MATCH_CASE =? 0)
  && (Z.land DT_REGEX_ALLOW_NOT DT_REGEX_NOSUB =? 0)
  && negb (REG_ICASE =? 0)
  && negb (REG_NOSUB =? 0)
  && (Z.land REG_ICASE REG_NOSUB =? 0).

(** ** The object heap *)

(** An address of an allocated object; a pointer is an address or NULL. *)
Abbreviation addr := positive (only parsing).
Abbreviation ptr := (option positive) (only parsing).
Abbreviation NULL := (@None positive) (only parsing).

(** A [regex_t]: blank after [calloc], a compiled program (the text that
    was compiled and the compile flags) after a successful [regcomp], and
    unusable after a failed one. *)
Inductive regex_t :=
  | re_blank
  | re_prog (src : string) (cflags : Z)
  | re_bad (rc : Z).

(** Modelled from the spec: [struct Regex] of [mutt/regex3.h] is not among
    the sources. Section 3: "pattern: string, compiled_matcher: owned,
    negated: bool"; [config/regex.c] names the fields [pattern], [regex]
    and [not], and holds the first two through pointers that it frees. *)
Record Regex := {
  pattern : ptr;
  regex : ptr;
  pat_not : bool
}.

(** What an address can hold: a C string, a [regex_t], a [struct Regex],
    or a variable of type [struct Regex *] (the storage of a config item). *)
Inductive obj :=
  | OStr (s : string)
  | ORegexT (m : regex_t)
  | ORegex (r : Regex)
  | OVar (p : ptr).

(** A caller's [struct Buffer]: its text. *)
Definition Buffer := string.

(** The machine state: the heap, and the log of the calls of the validator
    (the candidate value it was handed and the result code it answered),
    oldest first. *)
Record state := {
  heap : gmap positive obj;
  vcalls : list (ptr * Z)
}.

Definition set_heap (h : gmap positive obj) (s : state) : state :=
  {| heap := h; vcalls := vcalls s |}.

(** Computations over the state; [None] is undefined behaviour (a load or
    a free through a pointer that is not live, or of the wrong type). *)
Definition C (A : Type) : Type := state -> option (A * state).

Definition ret {A} (a : A) : C A := fun s => Some (a, s).
Definition bind {A B} (k : A -> C B) (m : C A) : C B :=
  fun s => match m s with Some (a, s') => k a s' | None => None end.
Definition undefined {A} : C A := fun _ => None.

#[global] Instance C_ret : MRet C := @ret.
#[global] Instance C_bind : MBind C := @bind.

(** [calloc]/[strdup]: a new object at an address that is not live. *)
Definition alloc (o : obj) : C addr :=
  fun s => let a := fresh (dom (heap s)) in
           Some (a, set_heap (<[a := o]> (heap s)) s).

Definition load (a : addr) : C obj :=
  fun s => match heap s !! a with Some o => Some (o, s) | None => None end.

Definition store (a : addr) (o : obj) : C unit :=
  fun s => match heap s !! a with
           | Some _ => Some (tt, set_heap (<[a := o]> (heap s)) s)
           | None => None
           end.

(** [FREE(&p)] of [mutt/memory.h]: nothing for NULL, else [free]. *)
Definition FREE (p : ptr) : C unit :=
  fun s => match p with
           | None => Some (tt, s)
           | Some a => match heap s !! a with
                       | Some _ => Some (tt, set_heap (delete a (heap s)) s)
                       | None => None
                       end
           end.

Definition load_regex (a : addr) : C Regex :=
  o ← load a; match o with ORegex r => ret r | _ => undefined end.

Definition load_var (a : addr) : C ptr :=
  o ← load a; match o with OVar p => ret p | _ => undefined end.

Definition load_str (p : ptr) : C (option string) :=
  match p with
  | None => ret None
  | Some a => o ← load a; match o with OStr s => ret (Some s) | _ => undefined end
  end.

Definition store_var (a : addr) (p : ptr) : C unit :=
  o ← load a; match o with OVar _ => store a (OVar p) | _ => undefined end.

(** ** Library functions that are not among the sources *)

(** [NONULL(s)]: NULL reads as the empty string. *)
Definition NONULL (s : option string) : string := default ""%string s.

(** [mutt_str_strcmp] of [mutt/string.c]: [strcmp] on the two strings, NULL
    read as the empty string. Only its being zero is ever tested. *)
Definition mutt_str_strcmp (a b : option string) : Z :=
  match String.compare (NONULL a) (NONULL b) with
  | Eq => 0
  | Lt => -1
  | Gt => 1
  end.

(** [mutt_str_strdup] of [mutt/string.c]: NULL for NULL and for the empty
    string, else a copy of the text in a new allocation. *)
Definition mutt_str_strdup (str : option string) : C ptr :=
  match str with
  | None => mret NULL
  | Some EmptyString => mret NULL
  | Some s => a ← alloc (OStr s); mret (Some a)
  end.

(** Modelled from the spec: [mutt_mb_is_lower] of [mutt/mbyte.c] is not
    among the sources. Section 4.3 has the text compiled case-insensitively
    when it "contains no uppercase letters": no character of the text is
    one of the letters A to Z. *)
Definition is_upper (c : ascii) : bool :=
  (65 <=? Z.of_N (N_of_ascii c)) && (Z.of_N (N_of_ascii c) <=? 90).

Fixpoint mutt_mb_is_lower (s : string) : bool :=
  match s with
  | EmptyString => true
  | String c s' => negb (is_upper c) && mutt_mb_is_lower s'
  end.

(** Modelled from the spec: [mutt_buffer_addstr] of [mutt/buffer.c] is
    not among the sources. Section 4.1 has [string_get] render the storage
    to text: the text is added at the end of the buffer's. *)
Definition mutt_buffer_addstr (buf : Buffer) (s : string) : Buffer :=
  (buf ++ s)%string.

(** [str[0] == '!'] *)
Definition starts_with_bang (s : string) : bool :=
  match s with
  | String c _ => if ascii_dec c "!"%char then true else false
  | EmptyString => false
  end.

(** [str++]: the text after the first character. *)
Definition str_next (s : string) : string :=
  match s with
  | String _ s' => s'
  | EmptyString => EmptyString
  end.

(** ** The config set and the definitions *)

(** The config set is only ever tested for being NULL. *)
Variant ConfigSet := config_set.

(** A validator reads the heap and the candidate value it is handed, and
    answers with a result code and what it leaves in the error buffer. It
    changes neither the heap nor the item. *)
Definition Validator : Type :=
  gmap positive obj -> ptr -> option Buffer -> Z * option Buffer.

(** Modelled from the spec: [struct ConfigDef] of [config/set.h] is not
    among the sources. Section 3: "name, type_id, default_initial, flags,
    validator"; [config/regex.c] reads and writes the fields [type] (the
    type with its flags), [initial] (for a Regex, a C string) and
    [validator]. *)
Record ConfigDef := {
  type : Z;
  initial : ptr;
  validator : option Validator
}.

(** [cdef->validator(cs, cdef, value, err)], logged. *)
Definition call_validator (f : Validator) (value : ptr) (err : option Buffer)
  : C (Z * option Buffer) :=
  fun s => let answer := f (heap s) value err in
           Some (answer,
                 {| heap := heap s;
                    vcalls := vcalls s ++ [(value, fst answer)] |}).

Definition set_pattern (p : ptr) (r : Regex) : Regex :=
  {| pattern := p; regex := regex r; pat_not := pat_not r |}.
Definition set_regex (m : ptr) (r : Regex) : Regex :=
  {| pattern := pattern r; regex := m; pat_not := pat_not r |}.
Definition set_not (b : bool) (r : Regex) : Regex :=
  {| pattern := pattern r; regex := regex r; pat_not := b |}.

(** An assignment to a field of the [struct Regex] at [a]. *)
Definition update_regex (a : addr) (f : Regex -> Regex) : C unit :=
  r ← load_regex a; store a (ORegex (f r)).

Section Regex.

Context `{Headers}.

(** The regex engine: [REGCOMP(preg, regex, cflags)] of [mutt/regex3.h]
    answers 0 or an error code for the text and the flags it is given, and
    [regerror] turns an error code into the diagnostic. *)
Variable REGCOMP : string -> Z -> Z.
Variable regerror : Z -> string.

(** ** config/regex.c *)

(** The body of [regex_free], on the value [p] of [*r]. *)
Definition regex_free_obj (p : ptr) : C unit :=
  match p with
  | None => mret tt
  | Some a =>
      r ← load_regex a;
      FREE (pattern r);;
      update_regex a (set_pattern NULL);;
      (* regfree() releases what the program holds inside the regex_t *)
      FREE (regex r);;
      update_regex a (set_regex NULL);;
      FREE (Some a)
  end.

(** [regex_free(r)] for [r] the address of a variable in the heap: the
    object is freed and the variable is left NULL. *)
Definition regex_free (r : ptr) : C unit :=
  match r with
  | None => mret tt
  | Some v =>
      p ← load_var v;
      match p with
      | None => mret tt
      | Some _ => regex_free_obj p;; store_var v NULL
      end
  end.

Definition regex_destroy (cs : option ConfigSet) (var : ptr)
    (cdef : option ConfigDef) : C unit :=
  match cs, var, cdef with
  | Some _, Some v, Some _ =>
      r ← load_var v;
      match r with
      | None => mret tt
      | Some _ => regex_free var
      end
  | _, _, _ => mret tt
  end.

Definition regex_create (str : option string) (flags : Z)
    (err : option Buffer) : C (ptr * option Buffer) :=
  match str with
  | None => mret (NULL, err)
  | Some s =>
      let rflags := 0 in
      reg ← alloc (ORegex {| pattern := NULL; regex := NULL; pat_not := false |});
      m ← alloc (ORegexT re_blank);
      update_regex reg (set_regex (Some m));;
      p ← mutt_str_strdup (Some s);
      update_regex reg (set_pattern p);;
      (* Should we use smart case matching? *)
      let rflags :=
        if (Z.land flags DT_REGEX_MATCH_CASE =? 0) && mutt_mb_is_lower s
        then Z.lor rflags REG_ICASE else rflags in
      let rflags :=
        if negb (Z.land flags DT_REGEX_NOSUB =? 0)
        then Z.lor rflags REG_NOSUB else rflags in
      (* Is a prefix of '!' allowed? *)
      let bang :=
        negb (Z.land flags DT_REGEX_ALLOW_NOT =? 0) && starts_with_bang s in
      (if bang then update_regex reg (set_not true) else mret tt);;
      let s' := if bang then str_next s else s in
      let rc := REGCOMP s' rflags in
      store m (ORegexT (if rc =? 0 then re_prog s' rflags else re_bad rc));;
      match err with
      | Some _ =>
          if negb (rc =? 0)
          then regex_free_obj (Some reg);; mret (NULL, Some (regerror rc))
          else mret (Some reg, err)
      | None => mret (Some reg, err)
      end
  end.

Definition regex_string_set (cs : option ConfigSet) (var : ptr)
    (cdef : option ConfigDef) (value : option string) (err : option Buffer)
  : C (Z * option ConfigDef * option Buffer) :=
  match cs, cdef with
  | Some _, Some d =>
      (* Store empty strings as NULL *)
      let value := match value with Some EmptyString => None | _ => value end in
      match var with
      | Some v =>
          curval ← load_var v;
          same ← match curval with
                 | Some c =>
                     cur ← load_regex c;
                     pat ← load_str (pattern cur);
                     mret (mutt_str_strcmp value pat =? 0)
                 | None => mret false
                 end;
          if same : bool
          then mret (Z.lor CSR_SUCCESS CSR_SUC_NO_CHANGE, cdef, err)
          else
            (* destroy the old value, install the new one *)
            let commit (r : ptr) (rc : Z) (err : option Buffer) :=
              regex_destroy cs var cdef;;
              store_var v r;;
              mret (match r with None => Z.lor rc CSR_SUC_EMPTY | Some _ => rc end,
                    cdef, err) in
            let validate (r : ptr) (err : option Buffer) :=
              match validator d with
              | Some f =>
                  checked ← call_validator f r err;
                  let rc := fst checked in
                  if negb (CSR_RESULT rc =? CSR_SUCCESS)
                  then regex_free_obj r;;
                       mret (Z.lor rc CSR_INV_VALIDATOR, cdef, snd checked)
                  else commit r rc (snd checked)
              | None => commit r CSR_SUCCESS err
              end in
            match value with
            | Some _ =>
                created ← regex_create value (type d) err;
                match fst created with
                | None => mret (CSR_ERR_INVALID, cdef, snd created)
                | Some _ => validate (fst created) (snd created)
                end
            | None => validate NULL err
            end
      | None =>
          (if negb (Z.land (type d) DT_INITIAL_SET =? 0)
           then FREE (initial d) else mret tt);;
          i ← mutt_str_strdup value;
          mret (CSR_SUCCESS,
                Some {| type := Z.lor (type d) DT_INITIAL_SET;
                        initial := i;
                        validator := validator d |},
                err)
      end
  | _, _ => mret (CSR_ERR_CODE, cdef, err)
  end.

Definition regex_string_get (cs : option ConfigSet) (var : ptr)
    (cdef : option ConfigDef) (result : Buffer) : C (Z * Buffer) :=
  match cs, cdef with
  | Some _, Some d =>
      str ← match var with
            | Some v =>
                r ← load_var v;
                match r with
                | Some a => cur ← load_regex a; mret (pattern cur)
                | None => mret NULL
                end
            | None => mret (initial d)
            end;
      match str with
      | None => mret (Z.lor CSR_SUCCESS CSR_SUC_EMPTY, result)
      | Some _ =>
          text ← load_str str;
          mret (CSR_SUCCESS, mutt_buffer_addstr result (NONULL text))
      end
  | _, _ => mret (CSR_ERR_CODE, result)
  end.

Definition regex_native_set (cs : option ConfigSet) (var : ptr)
    (cdef : option ConfigDef) (value : ptr) (err : option Buffer)
  : C (Z * option Buffer) :=
  match cs, var, cdef with
  | Some _, Some v, Some d =>
      (* copy the value, then replace the old one if that went well *)
      let install (err : option Buffer) :=
        let rc := CSR_SUCCESS in
        made ← match value with
               | Some o =>
                   orig ← load_regex o;
                   match pattern orig with
                   | Some _ =>
                       text ← load_str (pattern orig);
                       let flags :=
                         if pat_not orig then DT_REGEX_ALLOW_NOT else 0 in
                       created ← regex_create text flags err;
                       mret (fst created,
                             match fst created with
                             | None => CSR_ERR_INVALID
                             | Some _ => rc
                             end,
                             snd created)
                   | None => mret (NULL, Z.lor rc CSR_SUC_EMPTY, err)
                   end
               | None => mret (NULL, Z.lor rc CSR_SUC_EMPTY, err)
               end;
        let r := fst (fst made) in
        let rc := snd (fst made) in
        if CSR_RESULT rc =? CSR_SUCCESS
        then regex_free var;; store_var v r;; mret (rc, snd made)
        else mret (rc, snd made) in
      match validator d with
      | Some f =>
          checked ← call_validator f value err;
          let rc := fst checked in
          if negb (CSR_RESULT rc =? CSR_SUCCESS)
          then mret (Z.lor rc CSR_INV_VALIDATOR, snd checked)
          else install (snd checked)
      | None => install err
      end
  | _, _, _ => mret (CSR_ERR_CODE, err)
  end.

End Regex.

(** An [intptr_t] as the codec hands it out: a pointer to a
    [struct Regex], cast, or a plain number. *)
Inductive intptr_t :=
  | IP (p : ptr)
  | Int (n : Z).

Section RegexRest.

Context `{Headers}.
Variable REGCOMP : string -> Z -> Z.
Variable regerror : Z -> string.

(** [INT_MIN] of [<limits.h>]. *)
Variable INT_MIN : Z.

Definition regex_native_get (cs : option ConfigSet) (var : ptr)
    (cdef : option ConfigDef) (err : option Buffer) : C intptr_t :=
  match cs, var, cdef with
  | Some _, Some v, Some _ =>
      r ← load_var v;
      mret (IP r)
  | _, _, _ => mret (Int INT_MIN)
  end.

(** In [regex_reset] the candidate [r] is a local variable:
    [regex_destroy(cs, &r, cdef)] is [regex_free_obj r]. *)
Definition regex_reset (cs : option ConfigSet) (var : ptr)
    (cdef : option ConfigDef) (err : option Buffer) : C (Z * option Buffer) :=
  match cs, var, cdef with
  | Some _, Some v, Some d =>
      let initial := initial d in
      currx ← load_var v;
      curval ← match currx with
               | Some c => cur ← load_regex c; mret (pattern cur)
               | None => mret NULL
               end;
      let rc := CSR_SUCCESS in
      let rc := match currx with
                | None => Z.lor rc CSR_SUC_EMPTY
                | Some _ => rc
                end in
      itext ← load_str initial;
      ctext ← load_str curval;
      if mutt_str_strcmp itext ctext =? 0
      then mret (Z.lor rc CSR_SUC_NO_CHANGE, err)
      else
        let commit (r : ptr) (rc : Z) (err : option Buffer) :=
          let rc := match r with
                    | None => Z.lor rc CSR_SUC_EMPTY
                    | Some _ => rc
                    end in
          regex_destroy cs var cdef;;
          store_var v r;;
          mret (rc, err) in
        let validate (r : ptr) (err : option Buffer) :=
          match validator d with
          | Some f =>
              checked ← call_validator f r err;
              let rc := fst checked in
              if negb (CSR_RESULT rc =? CSR_SUCCESS)
              then regex_free_obj r;;
                   mret (Z.lor rc CSR_INV_VALIDATOR, snd checked)
              else commit r rc (snd checked)
          | None => commit r rc err
          end in
        match initial with
        | Some _ =>
            created ← regex_create REGCOMP regerror itext (type d) err;
            match fst created with
            | None => mret (CSR_ERR_CODE, snd created)
            | Some _ => validate (fst created) (snd created)
            end
        | None => validate NULL err
        end
  | _, _, _ => mret (CSR_ERR_CODE, err)
  end.

End RegexRest.

(** ** The Quad codec

    [config/quad.c] is not among the sources; its test
    [test/config/quad.c] is. *)

Module Quad.

(** Modelled from the spec: [enum QuadOption] of [config/quad.h] is not
    among the sources. Section 3 has a quad value be "one of four states
    {No, Yes, AskNo, AskYes}, stored as a small integer 0-3", and section 8
    has 0 be No and 3 be AskYes. *)
Inductive QuadOption := MUTT_NO | MUTT_YES | MUTT_ASKNO | MUTT_ASKYES.

Definition quad_value (q : QuadOption) : Z :=
  match q with
  | MUTT_NO => 0
  | MUTT_YES => 1
  | MUTT_ASKNO => 2
  | MUTT_ASKYES => 3
  end.

Definition quad_of_value (n : Z) : option QuadOption :=
  if n =? 0 then Some MUTT_NO
  else if n =? 1 then Some MUTT_YES
  else if n =? 2 then Some MUTT_ASKNO
  else if n =? 3 then Some MUTT_ASKYES
  else None.

(** [valid] of [test_string_set]: the four tokens, in the order of the
    states. *)
Definition valid : list string := ["no"; "yes"; "ask-no"; "ask-yes"]%string.

(** [tests] of [test_toggle]: the value before and after a toggle. *)
Definition tests : list (QuadOption * QuadOption) :=
  [ (MUTT_NO, MUTT_YES);
    (MUTT_YES, MUTT_NO);
    (MUTT_ASKNO, MUTT_ASKYES);
    (MUTT_ASKYES, MUTT_ASKNO) ].

(** Modelled from the spec: [quad_toggle] of [config/quad.c] is not among
    the sources. Section 4.4: "toggle cycles the value through a fixed
    table {No->Yes, Yes->No, AskNo->AskYes, AskYes->AskNo}". *)
Definition quad_toggle (q : QuadOption) : QuadOption :=
  match q with
  | MUTT_NO => MUTT_YES
  | MUTT_YES => MUTT_NO
  | MUTT_ASKNO => MUTT_ASKYES
  | MUTT_ASKYES => MUTT_ASKNO
  end.

(** The two pairs of section 8: the plain answers and the asking ones. *)
Definition asks (q : QuadOption) : bool :=
  match q with
  | MUTT_NO | MUTT_YES => false
  | MUTT_ASKNO | MUTT_ASKYES => true
  end.

(** A quad item: whether its definition is quad-typed, and the stored
    [char]. *)
Record HashElem := {
  he_quad : bool;
  he_var : Z
}.

Section Codec.

Context `{Headers}.

(** Modelled from the spec: [quad_he_toggle] of [config/quad.c] is not
    among the sources. Section 4.4: "Toggle fails with InternalError if
    invoked on an item whose definition is not quad-typed, or if either
    the Config Set or the item handle is absent. Toggle on an out-of-range
    stored value fails with InvalidValue." The result is the code and the
    stored value afterwards. *)
Definition quad_he_toggle (cs : option ConfigSet) (he : option HashElem)
  : Z * option Z :=
  match cs, he with
  | Some _, Some e =>
      if he_quad e
      then match quad_of_value (he_var e) with
           | Some q => (CSR_SUCCESS, Some (quad_value (quad_toggle q)))
           | None => (CSR_ERR_INVALID, Some (he_var e))
           end
      else (CSR_ERR_CODE, Some (he_var e))
  | _, _ => (CSR_ERR_CODE, option_map he_var he)
  end.

(** The index of the token that the text is. *)
Fixpoint token_index (tokens : list string) (value : string) (i : Z) : option Z :=
  match tokens with
  | [] => None
  | t :: rest => if String.eqb t value then Some i else token_index rest value (i + 1)
  end.

(** Modelled from the spec: [quad_string_set] of [config/quad.c] is not
    among the sources. Section 8: "quad requires one of four literal
    tokens" and "empty text as a quad token is invalid"; section 7: a text
    that does not parse is [InvalidValue] with "no state mutated"; section
    4.1: a value equal to the current one is [Success-NoChange], and the
    validator, if any, is asked before the value is committed. The result
    is the code and the stored value afterwards. *)
Definition quad_string_set (validator : option (Z -> Z)) (var : Z)
    (value : option string) : Z * Z :=
  match token_index valid (NONULL value) 0 with
  | None => (CSR_ERR_INVALID, var)
  | Some num =>
      if num =? var then (Z.lor CSR_SUCCESS CSR_SUC_NO_CHANGE, var)
      else
        match validator with
        | Some f =>
            if negb (CSR_RESULT (f num) =? CSR_SUCCESS)
            then (Z.lor (f num) CSR_INV_VALIDATOR, var)
            else (f num, num)
        | None => (CSR_SUCCESS, num)
        end
  end.

End Codec.

End Quad.

(** ** Well-formed storage *)

(** [p] is NULL or points to a C string. *)
Definition is_str (h : gmap positive obj) (p : ptr) : bool :=
  match p with
  | None => true
  | Some q => match h !! q with Some (OStr _) => true | _ => false end
  end.

(** [p] is NULL or points to a [regex_t]. *)
Definition is_matcher (h : gmap positive obj) (p : ptr) : bool :=
  match p with
  | None => true
  | Some q => match h !! q with Some (ORegexT _) => true | _ => false end
  end.

(** [a] holds a [struct Regex] whose fields point to live objects. *)
Definition is_regex (h : gmap positive obj) (a : addr) : bool :=
  match h !! a with
  | Some (ORegex r) => is_str h (pattern r) && is_matcher h (regex r)
  | _ => false
  end.

(** [v] holds a variable that is NULL or points to a [struct Regex]. *)
Definition is_var (h : gmap positive obj) (v : addr) : bool :=
  match h !! v with
  | Some (OVar None) => true
  | Some (OVar (Some a)) => is_regex h a
  | _ => false
  end.

(** The value of the variable at [v]. *)
Definition stored (h : gmap positive obj) (v : addr) : ptr :=
  match h !! v with
  | Some (OVar p) => p
  | _ => None
  end.

(** The text behind a [char *]. *)
Definition text_at (h : gmap positive obj) (p : ptr) : option string :=
  match p with
  | None => None
  | Some q => match h !! q with Some (OStr s) => Some s | _ => None end
  end.

(** The fields of the [struct Regex] behind [p], if there is one. *)
Definition regex_at (h : gmap positive obj) (p : ptr) : option Regex :=
  match p with
  | None => None
  | Some a => match h !! a with Some (ORegex r) => Some r | _ => None end
  end.

(** The pattern text of the [struct Regex] behind [p]. *)
Definition pattern_text (h : gmap positive obj) (p : ptr) : option string :=
  match regex_at h p with
  | Some r => text_at h (pattern r)
  | None => None
  end.

(** The [regex_t] of the [struct Regex] behind [p]. *)
Definition matcher_at (h : gmap positive obj) (p : ptr) : option regex_t :=
  match regex_at h p with
  | Some r =>
      match regex r with
      | Some m => match h !! m with Some (ORegexT t) => Some t | _ => None end
      | None => None
      end
  | None => None
  end.

(** The heap without the object behind [p]. *)
Definition unlink (p : ptr) (h : gmap positive obj) : gmap positive obj :=
  match p with
  | Some q => delete q h
  | None => h
  end.

(** The heap without the [struct Regex] behind [p] and what it owns. *)
Definition released (p : ptr) (h : gmap positive obj) : gmap positive obj :=
  match regex_at h p with
  | Some r => unlink p (unlink (regex r) (unlink (pattern r) h))
  | None => h
  end.

(** ** Heaps before and after a call *)

(** The heap with the text [s] behind [p]. *)
Definition link (p : ptr) (s : string) (h : gmap positive obj) : gmap positive obj :=
  match p with
  | Some q => <[q := OStr s]> h
  | None => h
  end.

(** The heap with a [struct Regex] at [a] that owns the text [s] behind
    [p] and the matcher [t] at [m]. *)
Definition with_regex (a m : addr) (p : ptr) (s : string) (n : bool) (t : regex_t)
    (h : gmap positive obj) : gmap positive obj :=
  <[a := ORegex {| pattern := p; regex := Some m; pat_not := n |}]>
    (<[m := ORegexT t]> (link p s h)).

(** [a], [m] and what [p] points to are three addresses that are not live
    in [h]; [p] is NULL exactly for the empty text. *)
Definition new_in (h : gmap positive obj) (a m : addr) (p : ptr) (s : string) : Prop :=
  h !! a = None /\ h !! m = None /\ a <> m /\
  match p with
  | Some q => h !! q = None /\ q <> a /\ q <> m /\ s <> ""%string
  | None => s = ""%string
  end.

(** Objects that stay where they are keep a value well formed. *)
Definition keeps (h h' : gmap positive obj) : Prop :=
  forall i o, h !! i = Some o -> h' !! i = Some o.

(** The heap after the new value at [a] took the place of the old one. *)
Definition installed (v a m : addr) (p : ptr) (s : string) (n : bool) (t : regex_t)
    (h : gmap positive obj) : gmap positive obj :=
  <[v := OVar (Some a)]> (released (stored h v) (with_regex a m p s n t h)).

(** [i] is the [struct Regex] behind [p] or one of the two objects that it
    owns. *)
Definition owns (h : gmap positive obj) (p : ptr) (i : addr) : Prop :=
  match regex_at h p with
  | Some r => p = Some i \/ pattern r = Some i \/ regex r = Some i
  | None => False
  end.

(** Empty text is stored as NULL. *)
Definition nonempty (value : option string) : option string :=
  match value with
  | Some EmptyString => None
  | _ => value
  end.

(** The item holds a value and its pattern is the text [value]. *)
Definition same_text (h : gmap positive obj) (v : addr) (value : option string) : Prop :=
  exists c, stored h v = Some c /\ NONULL value = NONULL (pattern_text h (Some c)).

(** The caller's value is NULL or a well-formed [struct Regex]. *)
Definition is_value (h : gmap positive obj) (value : ptr) : bool :=
  match value with
  | None => true
  | Some o => is_regex h o
  end.

(** The heap [h'] is [h] after the candidate [r] took the place of the
    value of the item at [v]: [r] is NULL, or a [struct Regex] that was
    built from three new objects before the old value was released. *)
Definition replaced (h : gmap positive obj) (v : addr) (r : ptr)
    (h' : gmap positive obj) : Prop :=
  exists h1, h' = <[v := OVar r]> (released (stored h v) h1) /\
    match r with
    | None => h1 = h
    | Some a => exists m p s n t, new_in h a m p s /\ h1 = with_regex a m p s n t h
    end.

(** ** Data for the examples *)

(** The values that the constants have in NeoMutt's [config/set.h] and
    [config/types.h] and in the [<regex.h>] of the GNU C library. *)
Definition neomutt_headers : Headers := {|
  CSR_SUCCESS := 0;
  CSR_ERR_CODE := 1;
  CSR_ERR_INVALID := 3;
  CSR_SUC_EMPTY := 32;
  CSR_SUC_NO_CHANGE := 128;
  CSR_INV_VALIDATOR := 32;
  CSR_RESULT_MASK := 15;
  DT_REGEX_MATCH_CASE := 64;
  DT_REGEX_ALLOW_NOT := 128;
  DT_REGEX_NOSUB := 256;
  DT_INITIAL_SET := 4096;
  REG_ICASE := 2;
  REG_NOSUB := 8
|}.

(** Whether the text ends inside a bracket expression. *)
Fixpoint open_bracket (s : string) (inside : bool) : bool :=
  match s with
  | EmptyString => inside
  | String c s' =>
      if ascii_dec c "["%char then open_bracket s' true
      else if ascii_dec c "]"%char then open_bracket s' false
      else open_bracket s' inside
  end.

(** An engine that refuses the texts with a bracket left open, with the
    code 7 ([REG_EBRACK]), and takes all others. *)
Definition example_REGCOMP (text : string) (cflags : Z) : Z :=
  if open_bracket text false then 7 else 0.

Definition example_regerror (rc : Z) : string :=
  if rc =? 7 then "Unmatched [, [^, [:, [., or [="%string else "Success"%string.

(** A validator that vetoes everything, with [CSR_ERR_INVALID], and one
    that lets everything pass. *)
Definition validator_fail : Validator :=
  fun _ _ err => (3, option_map (fun _ => "validator_fail"%string) err).

Definition validator_succeed : Validator :=
  fun _ _ err => (0, err).

(** Definitions: one that allows the negation, the same with each of the
    two validators, and one that forces the case and asks for no
    submatches. *)
Definition def_negatable : ConfigDef :=
  {| type := 128; initial := NULL; validator := None |}.

Definition def_vetoed : ConfigDef :=
  {| type := 128; initial := NULL; validator := Some validator_fail |}.

Definition def_checked : ConfigDef :=
  {| type := 128; initial := NULL; validator := Some validator_succeed |}.

Definition def_strict : ConfigDef :=
  {| type := 64 + 256; initial := NULL; validator := None |}.

(** A caller's value for the pattern [hello.*], at the addresses 10 to 12. *)
Definition callers_value : gmap positive obj :=
  <[10%positive := ORegex {| pattern := Some 12%positive;
                              regex := Some 11%positive;
                              pat_not := false |}]>
    (<[11%positive := ORegexT (re_prog "hello.*" 2)]>
       (<[12%positive := OStr "hello.*"]> ∅)).

(** An item, at the address 1, that is unset. *)
Definition unset_item : state :=
  {| heap := <[1%positive := OVar NULL]> callers_value; vcalls := [] |}.

(** An item, at the address 1, that holds the negated pattern [!^TODO]. *)
Definition todo_item : state :=
  {| heap :=
       <[1%positive := OVar (Some 2%positive)]>
         (<[2%positive := ORegex {| pattern := Some 4%positive;
                                     regex := Some 3%positive;
                                     pat_not := true |}]>
            (<[3%positive := ORegexT (re_prog "^TODO" 0)]>
               (<[4%positive := OStr "!^TODO"]> callers_value)));
     vcalls := [] |}.

(** An item, at the address 1, that holds a value for the empty pattern:
    the copy that [regex_native_set] makes of a value whose pattern is the
    empty string. *)
Definition blank_item : state :=
  {| heap :=
       <[1%positive := OVar (Some 2%positive)]>
         (<[2%positive := ORegex {| pattern := NULL;
                                     regex := Some 3%positive;
                                     pat_not := false |}]>
            (<[3%positive := ORegexT (re_prog "" 2)]> callers_value));
     vcalls := [] |}.

(** More objects for the examples: the static strings [^inbox], at the
    address 20, [[], at the address 21, and the empty string, at the
    address 22, and a caller's value for the pattern [[], which does not
    compile, at the addresses 30 to 32. *)
Definition with_defaults (st : state) : state :=
  {| heap :=
       <[20%positive := OStr "^inbox"]>
         (<[21%positive := OStr "["]>
            (<[22%positive := OStr ""]>
               (<[30%positive := ORegex {| pattern := Some 32%positive;
                                            regex := Some 31%positive;
                                            pat_not := false |}]>
                  (<[31%positive := ORegexT (re_bad 7)]>
                     (<[32%positive := OStr "["]> (heap st))))));
     vcalls := vcalls st |}.

(** Definitions with an initial text: [^inbox], the same under the
    validator that vetoes everything, and [[]. *)
Definition def_inbox : ConfigDef :=
  {| type := 128; initial := Some 20%positive; validator := None |}.

Definition def_inbox_vetoed : ConfigDef :=
  {| type := 128; initial := Some 20%positive; validator := Some validator_fail |}.

Definition def_bracket : ConfigDef :=
  {| type := 128; initial := Some 21%positive; validator := None |}.

(** A definition whose initial text is the empty string. *)
Definition def_blank : ConfigDef :=
  {| type := 128; initial := Some 22%positive; validator := None |}.

(** ** The facts *)

Section RegexFacts.

Context `{Headers}.
Variable REGCOMP : string -> Z -> Z.
Variable regerror : Z -> string.

(** What [regex_create] makes of the text and the flags. *)
Definition negated (flags : Z) (s : string) : bool :=
  negb (Z.land flags DT_REGEX_ALLOW_NOT =? 0) && starts_with_bang s.

Definition compiled_text (flags : Z) (s : string) : string :=
  if negated flags s then str_next s else s.

Definition compiled_flags (flags : Z) (s : string) : Z :=
  let rflags :=
    if (Z.land flags DT_REGEX_MATCH_CASE =? 0) && mutt_mb_is_lower s
    then Z.lor 0 REG_ICASE else 0 in
  if negb (Z.land flags DT_REGEX_NOSUB =? 0)
  then Z.lor rflags REG_NOSUB else rflags.

Definition compile_rc (flags : Z) (s : string) : Z :=
  REGCOMP (compiled_text flags s) (compiled_flags flags s).

Definition compiled (flags : Z) (s : string) : regex_t :=
  if compile_rc flags s =? 0
  then re_prog (compiled_text flags s) (compiled_flags flags s)
  else re_bad (compile_rc flags s).

(** [regex_create] reports a failure only when the compilation fails and
    there is a buffer for the diagnostic. *)
Definition create_fails (flags : Z) (s : string) (err : option Buffer) : bool :=
  negb (compile_rc flags s =? 0) && bool_decide (is_Some err).

(** The candidate [r] that the text [value] is parsed to, in the heap [h1]. *)
Definition parsed (value : option string) (flags : Z) (err : option Buffer)
    (h : gmap positive obj) (r : ptr) (h1 : gmap positive obj) : Prop :=
  match nonempty value with
  | None => r = NULL /\ h1 = h
  | Some s =>
      create_fails flags s err = false /\
      exists a m p, new_in h a m p s /\ r = Some a /\
        h1 = with_regex a m p s (negated flags s) (compiled flags s) h
  end.

(** [rc |= CSR_SUC_EMPTY] when the new value is NULL. *)
Definition with_empty (r : ptr) (rc : Z) : Z :=
  match r with
  | None => Z.lor rc CSR_SUC_EMPTY
  | Some _ => rc
  end.

Inductive string_set_outcome (v : addr) (d : ConfigDef) (value : option string)
    (err : option Buffer) (st : state)
  : Z * option ConfigDef * option Buffer -> state -> Prop :=
  | set_no_change :
      same_text (heap st) v value ->
      string_set_outcome v d value err st
        (Z.lor CSR_SUCCESS CSR_SUC_NO_CHANGE, Some d, err) st
  | set_invalid s :
      ~ same_text (heap st) v value ->
      nonempty value = Some s ->
      create_fails (type d) s err = true ->
      string_set_outcome v d value err st
        (CSR_ERR_INVALID, Some d, Some (regerror (compile_rc (type d) s))) st
  | set_rejected f r h1 :
      ~ same_text (heap st) v value ->
      parsed value (type d) err (heap st) r h1 ->
      validator d = Some f ->
      CSR_RESULT (fst (f h1 r err)) <> CSR_SUCCESS ->
      string_set_outcome v d value err st
        (Z.lor (fst (f h1 r err)) CSR_INV_VALIDATOR, Some d, snd (f h1 r err))
        {| heap := heap st; vcalls := vcalls st ++ [(r, fst (f h1 r err))] |}
  | set_checked f r h1 :
      ~ same_text (heap st) v value ->
      parsed value (type d) err (heap st) r h1 ->
      validator d = Some f ->
      CSR_RESULT (fst (f h1 r err)) = CSR_SUCCESS ->
      string_set_outcome v d value err st
        (with_empty r (fst (f h1 r err)), Some d, snd (f h1 r err))
        {| heap := <[v := OVar r]> (released (stored (heap st) v) h1);
           vcalls := vcalls st ++ [(r, fst (f h1 r err))] |}
  | set_unchecked r h1 :
      ~ same_text (heap st) v value ->
      parsed value (type d) err (heap st) r h1 ->
      validator d = None ->
      string_set_outcome v d value err st
        (with_empty r CSR_SUCCESS, Some d, err)
        {| heap := <[v := OVar r]> (released (stored (heap st) v) h1);
           vcalls := vcalls st |}.

(** The validator, if there is one, has accepted [value]: what it left in
    the error buffer and in the log. *)
Definition validated (d : ConfigDef) (value : ptr) (err : option Buffer) (st : state)
    (e : option Buffer) (c : list (ptr * Z)) : Prop :=
  match validator d with
  | None => e = err /\ c = vcalls st
  | Some f =>
      CSR_RESULT (fst (f (heap st) value err)) = CSR_SUCCESS /\
      e = snd (f (heap st) value err) /\
      c = vcalls st ++ [(value, fst (f (heap st) value err))]
  end.

(** The type flags that [regex_native_set] hands to [regex_create]. *)
Definition copy_flags (orig : Regex) : Z :=
  if pat_not orig then DT_REGEX_ALLOW_NOT else 0.

Inductive native_set_outcome (v : addr) (d : ConfigDef) (value : ptr)
    (err : option Buffer) (st : state) : Z * option Buffer -> state -> Prop :=
  | nset_rejected f :
      validator d = Some f ->
      CSR_RESULT (fst (f (heap st) value err)) <> CSR_SUCCESS ->
      native_set_outcome v d value err st
        (Z.lor (fst (f (heap st) value err)) CSR_INV_VALIDATOR,
         snd (f (heap st) value err))
        {| heap := heap st;
           vcalls := vcalls st ++ [(value, fst (f (heap st) value err))] |}
  | nset_empty e c :
      validated d value err st e c ->
      pattern_text (heap st) value = None ->
      (forall r, regex_at (heap st) value = Some r -> pattern r = NULL) ->
      native_set_outcome v d value err st
        (Z.lor CSR_SUCCESS CSR_SUC_EMPTY, e)
        {| heap := <[v := OVar NULL]> (released (stored (heap st) v) (heap st));
           vcalls := c |}
  | nset_invalid e c orig s :
      validated d value err st e c ->
      regex_at (heap st) value = Some orig ->
      pattern_text (heap st) value = Some s ->
      create_fails (copy_flags orig) s e = true ->
      native_set_outcome v d value err st
        (CSR_ERR_INVALID, Some (regerror (compile_rc (copy_flags orig) s)))
        {| heap := heap st; vcalls := c |}
  | nset_copied e c orig s a m p :
      validated d value err st e c ->
      regex_at (heap st) value = Some orig ->
      pattern_text (heap st) value = Some s ->
      create_fails (copy_flags orig) s e = false ->
      new_in (heap st) a m p s ->
      native_set_outcome v d value err st
        (CSR_SUCCESS, e)
        {| heap := <[v := OVar (Some a)]>
                     (released (stored (heap st) v)
                        (with_regex a m p s (negated (copy_flags orig) s)
                           (compiled (copy_flags orig) s) (heap st)));
           vcalls := c |}.

(** The candidate [r] that [regex_create] makes of the text, if there is
    one, in the heap [h1]. *)
Definition created (text : option string) (flags : Z) (err : option Buffer)
    (h : gmap positive obj) (r : ptr) (h1 : gmap positive obj) : Prop :=
  match text with
  | None => r = NULL /\ h1 = h
  | Some s =>
      create_fails flags s err = false /\
      exists a m p, new_in h a m p s /\ r = Some a /\
        h1 = with_regex a m p s (negated flags s) (compiled flags s) h
  end.

(** The code that [regex_reset] starts with: an unset item marks it as
    empty. *)
Definition reset_rc (old : ptr) : Z :=
  match old with
  | None => Z.lor CSR_SUCCESS CSR_SUC_EMPTY
  | Some _ => CSR_SUCCESS
  end.

(** The pattern of the stored value is the initial text of the definition
    (no value and no text read as the empty text). *)
Definition at_initial (h : gmap positive obj) (v : addr) (d : ConfigDef) : Prop :=
  NONULL (text_at h (initial d)) = NONULL (pattern_text h (stored h v)).

Inductive reset_outcome (v : addr) (d : ConfigDef) (err : option Buffer) (st : state)
  : Z * option Buffer -> state -> Prop :=
  | reset_no_change :
      at_initial (heap st) v d ->
      reset_outcome v d err st
        (Z.lor (reset_rc (stored (heap st) v)) CSR_SUC_NO_CHANGE, err) st
  | reset_failed s :
      ~ at_initial (heap st) v d ->
      text_at (heap st) (initial d) = Some s ->
      create_fails (type d) s err = true ->
      reset_outcome v d err st
        (CSR_ERR_CODE, Some (regerror (compile_rc (type d) s))) st
  | reset_rejected f r h1 :
      ~ at_initial (heap st) v d ->
      created (text_at (heap st) (initial d)) (type d) err (heap st) r h1 ->
      validator d = Some f ->
      CSR_RESULT (fst (f h1 r err)) <> CSR_SUCCESS ->
      reset_outcome v d err st
        (Z.lor (fst (f h1 r err)) CSR_INV_VALIDATOR, snd (f h1 r err))
        {| heap := heap st; vcalls := vcalls st ++ [(r, fst (f h1 r err))] |}
  | reset_checked f r h1 :
      ~ at_initial (heap st) v d ->
      created (text_at (heap st) (initial d)) (type d) err (heap st) r h1 ->
      validator d = Some f ->
      CSR_RESULT (fst (f h1 r err)) = CSR_SUCCESS ->
      reset_outcome v d err st
        (with_empty r (fst (f h1 r err)), snd (f h1 r err))
        {| heap := <[v := OVar r]> (released (stored (heap st) v) h1);
           vcalls := vcalls st ++ [(r, fst (f h1 r err))] |}
  | reset_unchecked r h1 :
      ~ at_initial (heap st) v d ->
      created (text_at (heap st) (initial d)) (type d) err (heap st) r h1 ->
      validator d = None ->
      reset_outcome v d err st
        (with_empty r (reset_rc (stored (heap st) v)), err)
        {| heap := <[v := OVar r]> (released (stored (heap st) v) h1);
           vcalls := vcalls st |}.

(** ** Running the primitives *)

(** Two heaps built from inserts and deletes agree at every address. *)
Ltac same_heap :=
  apply map_eq; intros ?i;
  repeat (rewrite lookup_insert || rewrite lookup_delete);
  repeat case_decide; subst; congruence || done.

Lemma run_bind {A B} (m : C A) (k : A -> C B) s a s' :
  m s = Some (a, s') -> (m ≫= k) s = k a s'.
Proof. intros E. unfold mbind, C_bind, bind. now rewrite E. Qed.

Lemma set_heap_id s : set_heap (heap s) s = s.
Proof. now destruct s. Qed.

Lemma set_heap_set_heap h h' s : set_heap h (set_heap h' s) = set_heap h s.
Proof. reflexivity. Qed.

Lemma heap_set_heap h s : heap (set_heap h s) = h.
Proof. reflexivity. Qed.

Lemma vcalls_set_heap h s : vcalls (set_heap h s) = vcalls s.
Proof. reflexivity. Qed.

Lemma run_load a o s : heap s !! a = Some o -> load a s = Some (o, s).
Proof. intros E. unfold load. now rewrite E. Qed.

Lemma run_store a o o' s :
  heap s !! a = Some o' -> store a o s = Some (tt, set_heap (<[a := o]> (heap s)) s).
Proof. intros E. unfold store. now rewrite E. Qed.

Lemma run_FREE a o s :
  heap s !! a = Some o -> FREE (Some a) s = Some (tt, set_heap (delete a (heap s)) s).
Proof. intros E. unfold FREE. now rewrite E. Qed.

Lemma run_FREE_unlink p s :
  (forall a, p = Some a -> is_Some (heap s !! a)) ->
  FREE p s = Some (tt, set_heap (unlink p (heap s)) s).
Proof.
  destruct p as [a|]; simpl; intros L.
  - destruct (L a eq_refl) as [o E]. now rewrite E.
  - now rewrite set_heap_id.
Qed.

Lemma run_load_regex a r s :
  heap s !! a = Some (ORegex r) -> load_regex a s = Some (r, s).
Proof. intros E. unfold load_regex. now rewrite (run_bind _ _ _ _ _ (run_load _ _ _ E)). Qed.

Lemma run_load_var a p s :
  heap s !! a = Some (OVar p) -> load_var a s = Some (p, s).
Proof. intros E. unfold load_var. now rewrite (run_bind _ _ _ _ _ (run_load _ _ _ E)). Qed.

Lemma run_store_var a p p' s :
  heap s !! a = Some (OVar p') ->
  store_var a p s = Some (tt, set_heap (<[a := OVar p]> (heap s)) s).
Proof.
  intros E. unfold store_var.
  rewrite (run_bind _ _ _ _ _ (run_load _ _ _ E)). now apply run_store with (o' := OVar p').
Qed.

Lemma run_update_regex a f r s :
  heap s !! a = Some (ORegex r) ->
  update_regex a f s = Some (tt, set_heap (<[a := ORegex (f r)]> (heap s)) s).
Proof.
  intros E. unfold update_regex.
  rewrite (run_bind _ _ _ _ _ (run_load_regex _ _ _ E)). now apply run_store with (o' := ORegex r).
Qed.

Lemma run_load_str p s :
  is_str (heap s) p = true -> load_str p s = Some (text_at (heap s) p, s).
Proof.
  destruct p as [q|]; simpl; [|reflexivity].
  unfold load, mbind, C_bind, bind.
  destruct (heap s !! q) as [[]|]; simpl; congruence || reflexivity.
Qed.

Lemma with_regex_regex h a m p s n t :
  new_in h a m p s ->
  with_regex a m p s n t h !! a
  = Some (ORegex {| pattern := p; regex := Some m; pat_not := n |}).
Proof. intros _. apply lookup_insert_eq. Qed.

Lemma with_regex_matcher h a m p s n t :
  new_in h a m p s -> with_regex a m p s n t h !! m = Some (ORegexT t).
Proof.
  intros (_ & _ & N & _). unfold with_regex.
  rewrite lookup_insert_ne by done. apply lookup_insert_eq.
Qed.

Lemma with_regex_text h a m p s n t :
  new_in h a m p s ->
  text_at (with_regex a m p s n t h) p = match p with Some _ => Some s | None => None end.
Proof.
  intros (_ & _ & N & P). destruct p as [q|]; simpl; [|done].
  destruct P as (_ & Na & Nm & _). unfold with_regex. simpl.
  rewrite !lookup_insert_ne by done. now rewrite lookup_insert_eq.
Qed.

Lemma with_regex_pattern_text h a m p s n t :
  new_in h a m p s ->
  NONULL (pattern_text (with_regex a m p s n t h) (Some a)) = s.
Proof.
  intros N. unfold pattern_text, regex_at.
  rewrite (with_regex_regex _ _ _ _ _ _ _ N). simpl pattern.
  rewrite (with_regex_text _ _ _ _ _ _ _ N).
  destruct p; [done|]. now destruct N as (_ & _ & _ & ->).
Qed.

Lemma with_regex_old h a m p s n t i o :
  new_in h a m p s -> h !! i = Some o -> with_regex a m p s n t h !! i = Some o.
Proof.
  intros (Ha & Hm & N & P) Hi. unfold with_regex.
  assert (a <> i) by (intros ->; congruence).
  assert (m <> i) by (intros ->; congruence).
  rewrite !lookup_insert_ne by done.
  destruct p as [q|]; simpl; [|done].
  destruct P as (Hq & _).
  assert (q <> i) by (intros ->; congruence).
  now rewrite lookup_insert_ne by done.
Qed.

Lemma with_regex_is_regex h a m p s n t :
  new_in h a m p s -> is_regex (with_regex a m p s n t h) a = true.
Proof.
  intros N. unfold is_regex. rewrite (with_regex_regex _ _ _ _ _ _ _ N).
  simpl. rewrite (with_regex_matcher _ _ _ _ _ _ _ N).
  pose proof (with_regex_text _ _ _ _ _ n t N) as T.
  destruct p as [q|]; simpl in *; [|done].
  destruct (with_regex a m (Some q) s n t h !! q) as [[]|]; done.
Qed.

Lemma released_with_regex h a m p s n t :
  new_in h a m p s -> released (Some a) (with_regex a m p s n t h) = h.
Proof.
  intros N. unfold released, regex_at.
  rewrite (with_regex_regex _ _ _ _ _ _ _ N). simpl.
  destruct N as (Ha & Hm & Nam & P). unfold with_regex.
  destruct p as [q|]; simpl.
  - destruct P as (Hq & Nqa & Nqm & _). same_heap.
  - same_heap.
Qed.


Lemma is_str_live h q : is_str h (Some q) = true -> exists t, h !! q = Some (OStr t).
Proof. simpl. destruct (h !! q) as [[]|]; try discriminate. eauto. Qed.

Lemma is_matcher_live h q :
  is_matcher h (Some q) = true -> exists t, h !! q = Some (ORegexT t).
Proof. simpl. destruct (h !! q) as [[]|]; try discriminate. eauto. Qed.

Lemma run_regex_free_obj a r s :
  heap s !! a = Some (ORegex r) ->
  is_str (heap s) (pattern r) = true ->
  is_matcher (heap s) (regex r) = true ->
  regex_free_obj (Some a) s = Some (tt, set_heap (released (Some a) (heap s)) s).
Proof.
  intros Ea Hp Hm. unfold regex_free_obj.
  rewrite (run_bind _ _ _ _ _ (run_load_regex _ _ _ Ea)).
  assert (Na : pattern r <> Some a).
  { intros E. rewrite E in Hp. apply is_str_live in Hp as [t Ht]. congruence. }
  assert (Ma : regex r <> Some a).
  { intros E. rewrite E in Hm. apply is_matcher_live in Hm as [t Ht]. congruence. }
  assert (PM : forall q, pattern r = Some q -> regex r <> Some q).
  { intros q E E'. rewrite E in Hp. rewrite E' in Hm.
    apply is_str_live in Hp as [t Ht]. apply is_matcher_live in Hm as [t' Ht']. congruence. }
  erewrite run_bind; cycle 1.
  { apply run_FREE_unlink. intros q E. rewrite E in Hp.
    apply is_str_live in Hp as [t Ht]. eauto. }
  erewrite run_bind; cycle 1.
  { apply run_update_regex with (r := r). rewrite heap_set_heap.
    destruct (pattern r) as [q|]; simpl; [|done]. rewrite lookup_delete_ne; [done|congruence]. }
  erewrite run_bind; cycle 1.
  { apply run_FREE_unlink. intros q E. rewrite E in Hm.
    apply is_matcher_live in Hm as [t Ht]. rewrite !heap_set_heap.
    exists (ORegexT t). rewrite lookup_insert_ne by congruence.
    destruct (pattern r) as [q'|] eqn:Eq; simpl; [|done].
    rewrite lookup_delete_ne; [done|]. intros ->. now apply (PM q). }
  erewrite run_bind; cycle 1.
  { apply run_update_regex with (r := set_pattern NULL r). rewrite !heap_set_heap.
    destruct (regex r) as [m|]; simpl.
    - rewrite lookup_delete_ne by congruence. apply lookup_insert_eq.
    - apply lookup_insert_eq. }
  erewrite run_FREE; cycle 1.
  { rewrite !heap_set_heap. apply lookup_insert_eq. }
  rewrite !heap_set_heap, !set_heap_set_heap.
  unfold released. simpl. rewrite Ea. simpl.
  apply (f_equal (fun h => Some (tt, set_heap h s))).
  apply map_eq. intros i.
  destruct (decide (i = a)) as [->|Ni].
  - now rewrite !lookup_delete_eq.
  - rewrite !(lookup_delete_ne _ a) by done. rewrite lookup_insert_ne by done.
    destruct (regex r) as [m|]; simpl.
    + destruct (decide (i = m)) as [->|Nm].
      * now rewrite !lookup_delete_eq.
      * rewrite !(lookup_delete_ne _ m) by done. now rewrite lookup_insert_ne by done.
    + now rewrite lookup_insert_ne by done.
Qed.

Lemma fresh_None (h : gmap positive obj) : h !! fresh (dom h) = None.
Proof. apply not_elem_of_dom. apply is_fresh. Qed.

Lemma run_regex_create s flags err st :
  if create_fails flags s err
  then regex_create REGCOMP regerror (Some s) flags err st
       = Some ((NULL, Some (regerror (compile_rc flags s))), st)
  else exists a m p,
       new_in (heap st) a m p s /\
       regex_create REGCOMP regerror (Some s) flags err st
       = Some ((Some a, err),
               set_heap (with_regex a m p s (negated flags s) (compiled flags s) (heap st)) st).
Proof.
  unfold regex_create.
  fold (negated flags s). fold (compiled_text flags s).
  fold (compiled_flags flags s). fold (compile_rc flags s).
  fold (compiled flags s).
  set (h := heap st).
  set (a := fresh (dom h)).
  assert (Ha : h !! a = None) by apply fresh_None.
  set (r0 := {| pattern := NULL; regex := NULL; pat_not := false |}).
  set (h1 := <[a := ORegex r0]> h).
  set (m := fresh (dom h1)).
  assert (Hm1 : h1 !! m = None) by apply fresh_None.
  assert (Hm : h !! m = None /\ a <> m).
  { unfold h1 in Hm1. apply lookup_insert_None in Hm1. tauto. }
  destruct Hm as [Hm Nam].
  set (h2 := <[a := ORegex (set_regex (Some m) r0)]> (<[m := ORegexT re_blank]> h1)).
  rewrite (run_bind _ _ st a (set_heap h1 st)) by reflexivity.
  rewrite (run_bind _ _ _ m (set_heap (<[m := ORegexT re_blank]> h1) st)) by reflexivity.
  erewrite run_bind; cycle 1.
  { erewrite run_update_regex; [reflexivity|].
    rewrite heap_set_heap. rewrite lookup_insert_ne by congruence.
    apply lookup_insert_eq. }
  rewrite heap_set_heap, set_heap_set_heap. fold h2.
  assert (E : exists p, new_in h a m p s /\ forall B (K : C B),
    (mutt_str_strdup (Some s) ≫= λ p, update_regex a (set_pattern p) ≫= λ _,
      (if negated flags s then update_regex a (set_not true) else mret ()) ≫= λ _,
      store m (ORegexT (compiled flags s)) ≫= λ _, K) (set_heap h2 st)
    = K (set_heap (with_regex a m p s (negated flags s) (compiled flags s) h) st)).
  { assert (L2 : forall x (h' : gmap positive obj), h' !! a = Some (ORegex x) ->
      pat_not x = false -> forall B (K : C B),
      ((if negated flags s then update_regex a (set_not true) else mret ()) ≫= λ _,
        store m (ORegexT (compiled flags s)) ≫= λ _, K) (set_heap h' st)
      = K (set_heap (<[m := ORegexT (compiled flags s)]>
                    (<[a := ORegex (set_not (negated flags s) x)]> h')) st)
        \/ h' !! m = None).
    { intros x h' Hx Hn B K. destruct (h' !! m) as [o|] eqn:Eo; [left|now right].
      destruct (negated flags s).
      - erewrite run_bind; cycle 1.
        { apply run_update_regex with (r := x). now rewrite heap_set_heap. }
        erewrite run_bind; [reflexivity|].
        erewrite run_store; [reflexivity|].
        rewrite !heap_set_heap. rewrite lookup_insert_ne by congruence. exact Eo.
      - rewrite (run_bind _ _ _ tt (set_heap h' st)) by reflexivity.
        erewrite run_bind; cycle 1.
        { erewrite run_store; [reflexivity|]. rewrite heap_set_heap. exact Eo. }
        rewrite heap_set_heap, set_heap_set_heap.
        replace (set_not false x) with x by (destruct x; unfold set_not; simpl in *; congruence).
        now rewrite (insert_id h' a) by exact Hx. }
    destruct (decide (s = ""%string)) as [Es|Es].
    - exists NULL. split; [repeat split; auto|]. intros B K.
      rewrite (run_bind _ _ _ NULL (set_heap h2 st)) by (rewrite Es; reflexivity).
      erewrite run_bind; cycle 1.
      { apply run_update_regex with (r := set_regex (Some m) r0).
        rewrite heap_set_heap. apply lookup_insert_eq. }
      rewrite heap_set_heap, set_heap_set_heap.
      edestruct L2 as [-> | Bad].
      { apply lookup_insert_eq. }
      { reflexivity. }
      + f_equal. f_equal. unfold with_regex, link, h2, h1. simpl. same_heap.
      + exfalso. unfold h2 in Bad. rewrite !lookup_insert_ne in Bad by congruence.
        now rewrite lookup_insert_eq in Bad.
    - set (q := fresh (dom h2)).
      assert (Hq2 : h2 !! q = None) by apply fresh_None.
      assert (Hq : h !! q = None /\ q <> a /\ q <> m).
      { unfold h2, h1 in Hq2. apply lookup_insert_None in Hq2 as [Hq2 ?].
        apply lookup_insert_None in Hq2 as [Hq2 ?].
        apply lookup_insert_None in Hq2 as [Hq2 ?]. split; [done|]. split; congruence. }
      destruct Hq as (Hq & Nqa & Nqm).
      exists (Some q). split; [repeat split; auto; congruence|]. intros B K.
      assert (Ed : mutt_str_strdup (Some s) (set_heap h2 st)
                   = Some (Some q, set_heap (<[q := OStr s]> h2) st)).
      { destruct s; [done|reflexivity]. }
      rewrite (run_bind _ _ _ _ _ Ed).
      erewrite run_bind; cycle 1.
      { apply run_update_regex with (r := set_regex (Some m) r0).
        rewrite heap_set_heap. rewrite lookup_insert_ne by congruence.
        apply lookup_insert_eq. }
      rewrite heap_set_heap, set_heap_set_heap.
      edestruct L2 as [-> | Bad].
      { apply lookup_insert_eq. }
      { reflexivity. }
      + f_equal. f_equal. unfold with_regex, link, h2, h1. simpl. same_heap.
      + exfalso. unfold h2 in Bad. rewrite !lookup_insert_ne in Bad by congruence.
        now rewrite lookup_insert_eq in Bad. }
  destruct E as (p & Hnew & E). rewrite !E. clear E.
  assert (F : regex_free_obj (Some a)
      (set_heap (with_regex a m p s (negated flags s) (compiled flags s) h) st)
      = Some (tt, st)).
  { erewrite run_regex_free_obj.
    - rewrite heap_set_heap, set_heap_set_heap.
      rewrite (released_with_regex _ _ _ _ _ _ _ Hnew). unfold h.
      now rewrite set_heap_id.
    - rewrite heap_set_heap. now apply with_regex_regex.
    - rewrite heap_set_heap. simpl pattern.
      pose proof (with_regex_is_regex _ _ _ _ _ (negated flags s) (compiled flags s) Hnew) as R.
      unfold is_regex in R. rewrite (with_regex_regex _ _ _ _ _ _ _ Hnew) in R.
      now apply andb_prop in R.
    - rewrite heap_set_heap. simpl regex.
      pose proof (with_regex_is_regex _ _ _ _ _ (negated flags s) (compiled flags s) Hnew) as R.
      unfold is_regex in R. rewrite (with_regex_regex _ _ _ _ _ _ _ Hnew) in R.
      now apply andb_prop in R. }
  unfold create_fails.
  destruct err as [e|]; destruct (compile_rc flags s =? 0); simpl.
  - exists a, m, p. now split.
  - now rewrite (run_bind _ _ _ _ _ F).
  - exists a, m, p. now split.
  - exists a, m, p. now split.
Qed.



Lemma strcmp_zero a b :
  (mutt_str_strcmp a b =? 0) = true <-> NONULL a = NONULL b.
Proof.
  unfold mutt_str_strcmp. split.
  - intros E. apply String.compare_eq_iff.
    destruct (String.compare (NONULL a) (NONULL b)); [reflexivity|discriminate..].
  - intros ->. pose proof (String.compare_antisym (NONULL b) (NONULL b)) as A.
    destruct (String.compare (NONULL b) (NONULL b)); [reflexivity|discriminate..].
Qed.

Lemma is_var_live h v :
  is_var h v = true ->
  h !! v = Some (OVar (stored h v)) /\
  forall c, stored h v = Some c -> is_regex h c = true.
Proof.
  unfold is_var, stored. destruct (h !! v) as [[| | |[c|]]|]; try discriminate.
  - intros R. split; [done|]. now intros ? [= <-].
  - intros _. split; [done|]. discriminate.
Qed.

Lemma is_regex_live h c :
  is_regex h c = true ->
  exists r, h !! c = Some (ORegex r) /\
            is_str h (pattern r) = true /\ is_matcher h (regex r) = true.
Proof.
  unfold is_regex. destruct (h !! c) as [[| |r|]|]; try discriminate.
  intros [? ?]%andb_prop. eauto.
Qed.

(** [regex_free(var)]: the old value is released and the variable left
    NULL. *)
Lemma run_regex_free v s :
  is_var (heap s) v = true ->
  regex_free (Some v) s
  = Some (tt, set_heap (<[v := OVar NULL]> (released (stored (heap s) v) (heap s))) s).
Proof.
  intros W. destruct (is_var_live _ _ W) as [Ev R]. unfold regex_free.
  rewrite (run_bind _ _ _ _ _ (run_load_var _ _ _ Ev)).
  destruct (stored (heap s) v) as [c|] eqn:Ec.
  - destruct (is_regex_live _ _ (R c eq_refl)) as (r & Er & Hp & Hm).
    rewrite (run_bind _ _ _ _ _ (run_regex_free_obj _ _ _ Er Hp Hm)).
    erewrite run_store_var; [now rewrite heap_set_heap, set_heap_set_heap|].
    rewrite heap_set_heap. unfold released, regex_at. rewrite Er.
    assert (c <> v) by (intros ->; congruence).
    assert (regex r <> Some v).
    { intros E. rewrite E in Hm. apply is_matcher_live in Hm as [? ?]. congruence. }
    assert (pattern r <> Some v).
    { intros E. rewrite E in Hp. apply is_str_live in Hp as [? ?]. congruence. }
    unfold unlink. rewrite lookup_delete_ne by done.
    destruct (regex r) as [m|]; [rewrite lookup_delete_ne by congruence|];
      (destruct (pattern r) as [q|]; [rewrite lookup_delete_ne by congruence|]);
      exact Ev.
  - unfold released. simpl. now rewrite insert_id, set_heap_id.
Qed.

Lemma run_regex_destroy cs d v s :
  is_var (heap s) v = true ->
  regex_destroy (Some cs) (Some v) (Some d) s
  = Some (tt, set_heap (<[v := OVar NULL]> (released (stored (heap s) v) (heap s))) s).
Proof.
  intros W. destruct (is_var_live _ _ W) as [Ev R]. unfold regex_destroy.
  rewrite (run_bind _ _ _ _ _ (run_load_var _ _ _ Ev)).
  destruct (stored (heap s) v) as [c|] eqn:Ec.
  - rewrite (run_regex_free _ _ W). now rewrite Ec.
  - unfold released. simpl. now rewrite insert_id, set_heap_id.
Qed.

(** Destroying the old value and installing [r]. *)
Lemma run_replace cs d v r s B (K : C B) :
  is_var (heap s) v = true ->
  (regex_destroy (Some cs) (Some v) (Some d) ≫= λ _, store_var v r ≫= λ _, K) s
  = K (set_heap (<[v := OVar r]> (released (stored (heap s) v) (heap s))) s).
Proof.
  intros W. rewrite (run_bind _ _ _ _ _ (run_regex_destroy cs d _ _ W)).
  erewrite run_bind; cycle 1.
  { eapply run_store_var. rewrite heap_set_heap. apply lookup_insert_eq. }
  now rewrite heap_set_heap, set_heap_set_heap, insert_insert_eq.
Qed.

Lemma keeps_is_str h h' p : keeps h h' -> is_str h p = true -> is_str h' p = true.
Proof.
  intros K. destruct p as [q|]; [|done]. intros [t E]%is_str_live.
  simpl. now rewrite (K _ _ E).
Qed.

Lemma keeps_is_matcher h h' p :
  keeps h h' -> is_matcher h p = true -> is_matcher h' p = true.
Proof.
  intros K. destruct p as [q|]; [|done]. intros [t E]%is_matcher_live.
  simpl. now rewrite (K _ _ E).
Qed.

Lemma keeps_is_regex h h' c : keeps h h' -> is_regex h c = true -> is_regex h' c = true.
Proof.
  intros K (r & E & P & M)%is_regex_live. unfold is_regex. rewrite (K _ _ E).
  now rewrite (keeps_is_str _ _ _ K P), (keeps_is_matcher _ _ _ K M).
Qed.

Lemma keeps_is_var h h' v :
  keeps h h' -> is_var h v = true ->
  is_var h' v = true /\ stored h' v = stored h v.
Proof.
  intros K W. destruct (is_var_live _ _ W) as [E R].
  unfold is_var, stored at 1. rewrite (K _ _ E). split; [|done].
  destruct (stored h v) as [c|] eqn:Ec; [|done].
  apply (keeps_is_regex _ _ _ K). now apply R.
Qed.

Lemma keeps_pattern_text h h' c :
  keeps h h' -> is_regex h c = true ->
  pattern_text h' (Some c) = pattern_text h (Some c).
Proof.
  intros K (r & E & P & M)%is_regex_live. unfold pattern_text, regex_at.
  rewrite E, (K _ _ E). destruct (pattern r) as [q|]; [|done].
  apply is_str_live in P as [t Et]. simpl. now rewrite Et, (K _ _ Et).
Qed.

Lemma keeps_with_regex h a m p s n t :
  new_in h a m p s -> keeps h (with_regex a m p s n t h).
Proof. intros N i o. now apply with_regex_old. Qed.

Lemma run_replace_free v r s B (K : C B) :
  is_var (heap s) v = true ->
  (regex_free (Some v) ≫= λ _, store_var v r ≫= λ _, K) s
  = K (set_heap (<[v := OVar r]> (released (stored (heap s) v) (heap s))) s).
Proof.
  intros W. rewrite (run_bind _ _ _ _ _ (run_regex_free _ _ W)).
  erewrite run_bind; cycle 1.
  { eapply run_store_var. rewrite heap_set_heap. apply lookup_insert_eq. }
  now rewrite heap_set_heap, set_heap_set_heap, insert_insert_eq.
Qed.

(** ** What [regex_string_set] does to an item with storage *)

Lemma NONULL_nonempty value : NONULL (nonempty value) = NONULL value.
Proof. now destruct value as [[|]|]. Qed.

Lemma regex_string_set_run v d value err st :
  is_var (heap st) v = true ->
  exists res st',
    regex_string_set REGCOMP regerror (Some config_set) (Some v) (Some d) value err st
    = Some (res, st') /\
    string_set_outcome v d value err st res st'.
Proof.
  intros W. destruct (is_var_live _ _ W) as [Ev R].
  unfold regex_string_set. fold (nonempty value).
  rewrite (run_bind _ _ _ _ _ (run_load_var _ _ _ Ev)).
  assert (S : exists b : bool, (b = true <-> same_text (heap st) v value) /\
    match stored (heap st) v with
    | Some c =>
        load_regex c ≫= λ cur, load_str (pattern cur) ≫= λ pat,
          mret (mutt_str_strcmp (nonempty value) pat =? 0)
    | None => mret false
    end st = Some (b, st)).
  { unfold same_text. destruct (stored (heap st) v) as [c|] eqn:Ec.
    - destruct (is_regex_live _ _ (R c eq_refl)) as (r & Er & Hp & Hm).
      rewrite (run_bind _ _ _ _ _ (run_load_regex _ _ _ Er)).
      rewrite (run_bind _ _ _ _ _ (run_load_str _ _ Hp)).
      eexists. split; [|reflexivity].
      rewrite strcmp_zero, NONULL_nonempty.
      assert (T : pattern_text (heap st) (Some c) = text_at (heap st) (pattern r)).
      { unfold pattern_text, regex_at. now rewrite Er. }
      rewrite <- T. split.
      + intros E. exists c. now split.
      + now intros (c' & [= <-] & E).
    - exists false. split; [|reflexivity]. split; [discriminate|].
      now intros (c & ? & _). }
  destruct S as (b & Sb & S). rewrite (run_bind _ _ _ _ _ S). clear S.
  destruct b.
  { do 2 eexists. split; [reflexivity|]. apply set_no_change. now apply Sb. }
  assert (N : ~ same_text (heap st) v value).
  { intros E. apply Sb in E. discriminate. }
  clear Sb.
  (* validation and replacement, for the candidate [r] in the heap [h1] *)
  assert (V : forall r h1 c,
    parsed value (type d) err (heap st) r h1 ->
    keeps (heap st) h1 ->
    (forall a, r = Some a -> is_regex h1 a = true /\ released r h1 = heap st) ->
    exists res st',
      match validator d with
      | Some f =>
          call_validator f r err ≫= λ checked,
            if negb (CSR_RESULT checked.1 =? CSR_SUCCESS)
            then regex_free_obj r ≫= λ _,
                   mret (Z.lor checked.1 CSR_INV_VALIDATOR, Some d, checked.2)
            else regex_destroy (Some config_set) (Some v) (Some d) ≫= λ _,
                   store_var v r ≫= λ _,
                     mret (match r with
                           | Some _ => checked.1
                           | None => Z.lor checked.1 CSR_SUC_EMPTY
                           end, Some d, checked.2)
      | None =>
          regex_destroy (Some config_set) (Some v) (Some d) ≫= λ _,
            store_var v r ≫= λ _,
              mret (match r with
                    | Some _ => CSR_SUCCESS
                    | None => Z.lor CSR_SUCCESS CSR_SUC_EMPTY
                    end, Some d, err)
      end (set_heap h1 {| heap := heap st; vcalls := c |}) = Some (res, st') /\
      (c = vcalls st -> string_set_outcome v d value err st res st')).
  { intros r h1 c P K Fr.
    destruct (keeps_is_var _ _ _ K W) as [W1 S1].
    destruct (validator d) as [f|] eqn:Ef.
    - rewrite (run_bind _ _ _ (f h1 r err)
        {| heap := h1; vcalls := c ++ [(r, fst (f h1 r err))] |}) by reflexivity.
      cbv beta.
      destruct (CSR_RESULT (f h1 r err).1 =? CSR_SUCCESS) eqn:Ok; unfold negb.
      + rewrite run_replace by exact W1. simpl heap. rewrite S1.
        do 2 eexists. split; [reflexivity|]. intros ->.
        apply (set_checked _ _ _ _ _ f r h1); try done.
        now apply Z.eqb_eq.
      + assert (F : regex_free_obj r {| heap := h1; vcalls := c ++ [(r, (f h1 r err).1)] |}
                    = Some (tt, {| heap := heap st; vcalls := c ++ [(r, (f h1 r err).1)] |})).
        { destruct r as [a|]; cycle 1.
          { unfold parsed in P. destruct (nonempty value).
            - now destruct P as (_ & ? & ? & ? & _ & ? & _).
            - now destruct P as [_ ->]. }
          destruct (Fr a eq_refl) as [Ra Rel].
          destruct (is_regex_live _ _ Ra) as (x & Ex & Hp & Hm).
          rewrite (run_regex_free_obj a x); try done. simpl heap. now rewrite Rel. }
        rewrite (run_bind _ _ _ _ _ F).
        do 2 eexists. split; [reflexivity|]. intros ->.
        apply (set_rejected _ _ _ _ _ f r h1); try done.
        now apply Z.eqb_neq.
    - rewrite run_replace by exact W1. simpl heap. rewrite S1.
      do 2 eexists. split; [reflexivity|]. intros ->. unfold set_heap. simpl.
      now apply (set_unchecked _ _ _ _ _ r h1). }
  destruct (nonempty value) as [s|] eqn:En.
  - pose proof (run_regex_create s (type d) err st) as Cr.
    destruct (create_fails (type d) s err) eqn:Ef.
    + rewrite (run_bind _ _ _ _ _ Cr). simpl.
      do 2 eexists. split; [reflexivity|]. now apply set_invalid.
    + destruct Cr as (a & m & p & Hnew & Cr).
      rewrite (run_bind _ _ _ _ _ Cr). simpl fst. simpl snd. cbv iota.
      destruct (V (Some a)
        (with_regex a m p s (negated (type d) s) (compiled (type d) s) (heap st))
        (vcalls st)) as (res & st' & E & O).
      * unfold parsed. rewrite En. split; [done|]. now exists a, m, p.
      * now apply keeps_with_regex.
      * intros ? [= <-]. split.
        -- now apply with_regex_is_regex.
        -- now apply released_with_regex.
      * exists res, st'. split; [exact E|now apply O].
  - destruct (V NULL (heap st) (vcalls st)) as (res & st' & E & O).
    + unfold parsed. now rewrite En.
    + now intros ? ?.
    + discriminate.
    + exists res, st'. split; [|now apply O].
      rewrite <- E. f_equal. now destruct st.
Qed.

(** ** What [regex_native_set] does *)

Hypothesis headers : headers_ok = true.

Lemma headers_facts :
  Z.land CSR_SUCCESS CSR_RESULT_MASK = CSR_SUCCESS /\
  Z.land CSR_ERR_INVALID CSR_RESULT_MASK = CSR_ERR_INVALID /\
  CSR_ERR_INVALID <> CSR_SUCCESS /\
  Z.land CSR_SUC_EMPTY CSR_RESULT_MASK = 0 /\
  Z.land CSR_SUC_NO_CHANGE CSR_RESULT_MASK = 0 /\
  Z.land CSR_INV_VALIDATOR CSR_RESULT_MASK = 0 /\
  CSR_SUC_EMPTY <> 0 /\
  CSR_SUC_NO_CHANGE <> 0 /\
  CSR_INV_VALIDATOR <> 0 /\
  Z.land CSR_SUC_EMPTY CSR_SUC_NO_CHANGE = 0 /\
  DT_REGEX_MATCH_CASE <> 0 /\
  DT_REGEX_ALLOW_NOT <> 0 /\
  DT_REGEX_NOSUB <> 0 /\
  Z.land DT_REGEX_ALLOW_NOT DT_REGEX_MATCH_CASE = 0 /\
  Z.land DT_REGEX_ALLOW_NOT DT_REGEX_NOSUB = 0 /\
  REG_ICASE <> 0 /\
  REG_NOSUB <> 0 /\
  Z.land REG_ICASE REG_NOSUB = 0.
Proof.
  pose proof headers as K. unfold headers_ok in K.
  repeat (apply andb_prop in K as [K ?]).
  repeat match goal with
         | X : negb _ = true |- _ => apply negb_true_iff, Z.eqb_neq in X
         | X : (_ =? _) = true |- _ => apply Z.eqb_eq in X
         end.
  repeat split; assumption.
Qed.

Lemma CSR_RESULT_flag rc flag :
  Z.land flag CSR_RESULT_MASK = 0 -> CSR_RESULT (Z.lor rc flag) = CSR_RESULT rc.
Proof.
  intros E. unfold CSR_RESULT. now rewrite Z.land_lor_distr_l, E, Z.lor_0_r.
Qed.

Lemma CSR_RESULT_success : CSR_RESULT CSR_SUCCESS = CSR_SUCCESS.
Proof. apply headers_facts. Qed.

Lemma CSR_RESULT_invalid : CSR_RESULT CSR_ERR_INVALID <> CSR_SUCCESS.
Proof.
  unfold CSR_RESULT. destruct headers_facts as (_ & -> & N & _). exact N.
Qed.

Lemma CSR_RESULT_empty rc : CSR_RESULT (Z.lor rc CSR_SUC_EMPTY) = CSR_RESULT rc.
Proof. apply CSR_RESULT_flag, headers_facts. Qed.

Lemma CSR_RESULT_rejected rc : CSR_RESULT (Z.lor rc CSR_INV_VALIDATOR) = CSR_RESULT rc.
Proof. apply CSR_RESULT_flag, headers_facts. Qed.

Lemma flag_set rc flag : Z.land (Z.lor rc flag) flag = flag.
Proof.
  apply Z.bits_inj'. intros n _. rewrite Z.land_spec, Z.lor_spec.
  now destruct (Z.testbit rc n), (Z.testbit flag n).
Qed.

(** A vetoed result is not the plain [CSR_ERR_INVALID] of a value that
    does not parse: it carries the validator's flag. *)
Lemma rejected_not_invalid rc : Z.lor rc CSR_INV_VALIDATOR <> CSR_ERR_INVALID.
Proof.
  destruct headers_facts as (_ & I & _ & _ & _ & V & _ & _ & N & _).
  intros E. apply N. rewrite <- (flag_set rc CSR_INV_VALIDATOR), E, <- I.
  now rewrite <- Z.land_assoc, (Z.land_comm CSR_RESULT_MASK), V, Z.land_0_r.
Qed.

Lemma regex_native_set_run v d value err st :
  is_var (heap st) v = true ->
  is_value (heap st) value = true ->
  exists res st',
    regex_native_set REGCOMP regerror (Some config_set) (Some v) (Some d) value err st
    = Some (res, st') /\
    native_set_outcome v d value err st res st'.
Proof.
  intros W V. unfold regex_native_set.
  assert (I : forall e c, validated d value err st e c ->
    exists res st',
      (match value with
       | Some o =>
           load_regex o ≫= λ orig,
             match pattern orig with
             | Some _ =>
                 load_str (pattern orig) ≫= λ text,
                   regex_create REGCOMP regerror text
                     (if pat_not orig then DT_REGEX_ALLOW_NOT else 0) e ≫= λ created,
                     mret (created.1,
                           match created.1 with
                           | Some _ => CSR_SUCCESS
                           | None => CSR_ERR_INVALID
                           end, created.2)
             | None => mret (None, Z.lor CSR_SUCCESS CSR_SUC_EMPTY, e)
             end
       | None => mret (None, Z.lor CSR_SUCCESS CSR_SUC_EMPTY, e)
       end ≫= λ made,
         if CSR_RESULT made.1.2 =? CSR_SUCCESS
         then regex_free (Some v) ≫= λ _,
                store_var v made.1.1 ≫= λ _, mret (made.1.2, made.2)
         else mret (made.1.2, made.2)) {| heap := heap st; vcalls := c |}
      = Some (res, st') /\
      native_set_outcome v d value err st res st').
  { intros e c Hv.
    assert (Em : (CSR_RESULT (Z.lor CSR_SUCCESS CSR_SUC_EMPTY) =? CSR_SUCCESS) = true).
    { apply Z.eqb_eq. now rewrite CSR_RESULT_empty, CSR_RESULT_success. }
    assert (Empty :
      pattern_text (heap st) value = None ->
      (forall r, regex_at (heap st) value = Some r -> pattern r = NULL) ->
      exists res st',
        (mret (None, Z.lor CSR_SUCCESS CSR_SUC_EMPTY, e) ≫= λ made,
          if CSR_RESULT made.1.2 =? CSR_SUCCESS
          then regex_free (Some v) ≫= λ _,
                 store_var v made.1.1 ≫= λ _, mret (made.1.2, made.2)
          else mret (made.1.2, made.2)) {| heap := heap st; vcalls := c |}
        = Some (res, st') /\
        native_set_outcome v d value err st res st').
    { intros T P.
      rewrite (run_bind _ _ _ (None, Z.lor CSR_SUCCESS CSR_SUC_EMPTY, e)
                 {| heap := heap st; vcalls := c |}) by reflexivity.
      cbv beta. cbn [fst snd]. rewrite Em.
      rewrite run_replace_free by exact W.
      do 2 eexists. split; [reflexivity|]. unfold set_heap; cbn [heap vcalls].
      now apply nset_empty. }
    destruct value as [o|]; cycle 1.
    { now apply Empty. }
    destruct (is_regex_live _ _ V) as (orig & Eo & Hp & Hm).
    assert (L : forall B (K : Regex -> C B) c',
      (load_regex o ≫= K) {| heap := heap st; vcalls := c' |}
      = K orig {| heap := heap st; vcalls := c' |}).
    { intros B K c'. apply run_bind. now apply run_load_regex. }
    destruct (pattern orig) as [q|] eqn:Eq; cycle 1.
    { destruct Empty as (res & st' & E & O).
      - unfold pattern_text, regex_at. now rewrite Eo, Eq.
      - unfold regex_at. rewrite Eo. now intros ? [= <-].
      - exists res, st'. split; [|exact O]. rewrite <- E.
        unfold mbind at 1, C_bind, bind at 1. rewrite L, Eq. reflexivity. }
    destruct (is_str_live _ _ Hp) as [s Es].
    assert (T : pattern_text (heap st) (Some o) = Some s).
    { unfold pattern_text, regex_at. rewrite Eo, Eq. simpl. now rewrite Es. }
    assert (Ro : regex_at (heap st) (Some o) = Some orig).
    { unfold regex_at. now rewrite Eo. }
    pose proof (run_regex_create s (copy_flags orig) e
                  {| heap := heap st; vcalls := c |}) as Cr.
    destruct (create_fails (copy_flags orig) s e) eqn:Ef.
    - erewrite run_bind; cycle 1.
      { rewrite L, Eq.
        erewrite run_bind; cycle 1.
        { rewrite run_load_str by exact Hp. simpl. rewrite Es. reflexivity. }
        fold (copy_flags orig). rewrite (run_bind _ _ _ _ _ Cr). reflexivity. }
      cbn [fst snd].
      destruct (CSR_RESULT CSR_ERR_INVALID =? CSR_SUCCESS) eqn:Bad.
      { apply Z.eqb_eq in Bad. now apply CSR_RESULT_invalid in Bad. }
      do 2 eexists. split; [reflexivity|].
      now apply (nset_invalid _ _ _ _ _ e c orig s).
    - destruct Cr as (a & m & p & Hnew & Cr). simpl heap in *.
      erewrite run_bind; cycle 1.
      { rewrite L, Eq.
        erewrite run_bind; cycle 1.
        { rewrite run_load_str by exact Hp. simpl. rewrite Es. reflexivity. }
        fold (copy_flags orig). rewrite (run_bind _ _ _ _ _ Cr). reflexivity. }
      cbn [fst snd].
      replace (CSR_RESULT CSR_SUCCESS =? CSR_SUCCESS) with true
        by (symmetry; apply Z.eqb_eq, CSR_RESULT_success).
      destruct (keeps_is_var _ _ v (keeps_with_regex _ _ _ _ _
        (negated (copy_flags orig) s) (compiled (copy_flags orig) s) Hnew) W) as [W1 S1].
      rewrite run_replace_free by exact W1. simpl heap. rewrite S1.
      do 2 eexists. split; [reflexivity|]. unfold set_heap; cbn [heap vcalls].
      now apply (nset_copied _ _ _ _ _ e c orig s a m p). }
  destruct (validator d) as [f|] eqn:Ef.
  - rewrite (run_bind _ _ _ (f (heap st) value err)
      {| heap := heap st; vcalls := vcalls st ++ [(value, fst (f (heap st) value err))] |})
      by reflexivity.
    cbv beta.
    destruct (CSR_RESULT (f (heap st) value err).1 =? CSR_SUCCESS) eqn:Ok; unfold negb.
    + apply I. unfold validated. rewrite Ef. apply Z.eqb_eq in Ok. now repeat split.
    + do 2 eexists. split; [reflexivity|]. apply nset_rejected; [done|].
      now apply Z.eqb_neq.
  - destruct (I err (vcalls st)) as (res & st' & E & O).
    { unfold validated. now rewrite Ef. }
    exists res, st'. split; [|exact O]. rewrite <- E. f_equal. now destruct st.
Qed.

(** ** The heap after a value was installed *)

(** Releasing a value touches only what that value owns. *)
Lemma released_lookup h p i :
  (forall r, regex_at h p = Some r ->
     p <> Some i /\ pattern r <> Some i /\ regex r <> Some i) ->
  released p h !! i = h !! i.
Proof.
  unfold released. destruct (regex_at h p) as [r|]; [|done].
  intros N. destruct (N r eq_refl) as (N1 & N2 & N3). unfold unlink.
  destruct p as [c|]; [rewrite lookup_delete_ne by congruence|];
    (destruct (regex r) as [m|]; [rewrite lookup_delete_ne by congruence|]);
    (destruct (pattern r) as [q|]; [rewrite lookup_delete_ne by congruence|]);
    reflexivity.
Qed.

(** What was not live before the new value was built is not a part of
    the old value. *)
Lemma released_new h h1 v i :
  is_var h v = true -> keeps h h1 -> h !! i = None ->
  released (stored h v) h1 !! i = h1 !! i.
Proof.
  intros W K F. apply released_lookup. intros r Er.
  destruct (is_var_live _ _ W) as [_ R].
  destruct (stored h v) as [c|] eqn:Ec; [|discriminate].
  destruct (is_regex_live _ _ (R c eq_refl)) as (r' & E & P & M).
  unfold regex_at in Er. rewrite (K _ _ E) in Er. injection Er as <-.
  repeat split.
  - intros [= ->]. congruence.
  - intros Q. rewrite Q in P. apply is_str_live in P as [? ?]. congruence.
  - intros Q. rewrite Q in M. apply is_matcher_live in M as [? ?]. congruence.
Qed.

(** The variable itself is not a part of the old value. *)
Lemma released_var h h1 v :
  is_var h v = true -> keeps h h1 ->
  released (stored h v) h1 !! v = h1 !! v.
Proof.
  intros W K. apply released_lookup. intros r Er.
  destruct (is_var_live _ _ W) as [Ev R].
  destruct (stored h v) as [c|] eqn:Ec; [|discriminate].
  destruct (is_regex_live _ _ (R c eq_refl)) as (r' & E & P & M).
  unfold regex_at in Er. rewrite (K _ _ E) in Er. injection Er as <-.
  repeat split.
  - intros [= ->]. congruence.
  - intros Q. rewrite Q in P. apply is_str_live in P as [? ?]. congruence.
  - intros Q. rewrite Q in M. apply is_matcher_live in M as [? ?]. congruence.
Qed.

Section Installed.

Variables (h : gmap positive obj) (v a m : addr) (p : ptr) (s : string)
  (n : bool) (t : regex_t).
Hypothesis HW : is_var h v = true.
Hypothesis HN : new_in h a m p s.

Lemma installed_var : installed v a m p s n t h !! v = Some (OVar (Some a)).
Proof. apply lookup_insert_eq. Qed.

Lemma installed_other i :
  h !! i = None -> installed v a m p s n t h !! i = with_regex a m p s n t h !! i.
Proof.
  intros F. unfold installed.
  assert (v <> i).
  { intros ->. destruct (is_var_live _ _ HW) as [E _]. congruence. }
  rewrite lookup_insert_ne by done.
  apply released_new; [exact HW| |exact F]. now apply keeps_with_regex.
Qed.

Lemma installed_regex :
  installed v a m p s n t h !! a
  = Some (ORegex {| pattern := p; regex := Some m; pat_not := n |}).
Proof.
  rewrite installed_other by apply HN. now apply with_regex_regex.
Qed.

Lemma installed_matcher : installed v a m p s n t h !! m = Some (ORegexT t).
Proof.
  rewrite installed_other by apply HN. now apply with_regex_matcher.
Qed.

Lemma installed_text_live q : p = Some q -> installed v a m p s n t h !! q = Some (OStr s).
Proof.
  intros E. pose proof HN as (_ & _ & _ & F). rewrite E in F.
  destruct F as (F & Na & Nm & _).
  rewrite installed_other by exact F. unfold with_regex. rewrite E. simpl.
  rewrite !lookup_insert_ne by congruence. apply lookup_insert_eq.
Qed.

Lemma installed_text :
  text_at (installed v a m p s n t h) p
  = match p with Some _ => Some s | None => None end.
Proof.
  pose proof installed_text_live as T. revert T.
  generalize p. intros [q|] T; [|done]. simpl. now rewrite (T q eq_refl).
Qed.

Lemma installed_stored : stored (installed v a m p s n t h) v = Some a.
Proof. unfold stored. now rewrite installed_var. Qed.

Lemma installed_regex_at :
  regex_at (installed v a m p s n t h) (Some a)
  = Some {| pattern := p; regex := Some m; pat_not := n |}.
Proof. unfold regex_at. now rewrite installed_regex. Qed.

Lemma installed_pattern_text :
  NONULL (pattern_text (installed v a m p s n t h) (Some a)) = s.
Proof.
  unfold pattern_text. rewrite installed_regex_at. cbn [pattern].
  rewrite installed_text. pose proof HN as (_ & _ & _ & F). revert F.
  generalize p. now intros [q|] F.
Qed.

Lemma installed_matcher_at : matcher_at (installed v a m p s n t h) (Some a) = Some t.
Proof.
  unfold matcher_at. rewrite installed_regex_at. cbn [regex].
  now rewrite installed_matcher.
Qed.

Lemma installed_is_var : is_var (installed v a m p s n t h) v = true.
Proof.
  unfold is_var. rewrite installed_var. unfold is_regex. rewrite installed_regex.
  cbn [pattern regex]. unfold is_matcher. rewrite installed_matcher.
  pose proof installed_text_live as T. revert T. generalize p.
  intros [q|] T; [|done]. simpl. now rewrite (T q eq_refl).
Qed.

End Installed.

(** The heap after the item was emptied. *)
Lemma emptied_var h v :
  is_var h v = true ->
  is_var (<[v := OVar NULL]> (released (stored h v) h)) v = true /\
  stored (<[v := OVar NULL]> (released (stored h v) h)) v = NULL.
Proof.
  intros _. unfold is_var, stored. now rewrite lookup_insert_eq.
Qed.

Lemma emptied_unset h v :
  is_var h v = true -> stored h v = NULL ->
  <[v := OVar NULL]> (released (stored h v) h) = h.
Proof.
  intros W E. destruct (is_var_live _ _ W) as [Ev _]. rewrite E in *.
  unfold released. simpl. now apply insert_id.
Qed.

(** The item after [regex_string_set] installed the candidate [r]. *)
Lemma committed_var v value flags err h r h1 :
  is_var h v = true ->
  parsed value flags err h r h1 ->
  is_var (<[v := OVar r]> (released (stored h v) h1)) v = true /\
  stored (<[v := OVar r]> (released (stored h v) h1)) v = r /\
  (r = NULL -> nonempty value = None /\ h1 = h) /\
  (forall a, r = Some a ->
     NONULL (pattern_text (<[v := OVar r]> (released (stored h v) h1)) r) = NONULL value /\
     nonempty value = Some (NONULL value) /\
     matcher_at (<[v := OVar r]> (released (stored h v) h1)) r
     = Some (compiled flags (NONULL value)) /\
     exists x, regex_at (<[v := OVar r]> (released (stored h v) h1)) r = Some x /\
               pat_not x = negated flags (NONULL value)).
Proof.
  intros W P. unfold parsed in P. destruct (nonempty value) as [s|] eqn:En.
  - destruct P as (_ & a & m & p & Hnew & -> & ->).
    assert (Es : NONULL value = s) by now rewrite <- NONULL_nonempty, En.
    fold (installed v a m p s (negated flags s) (compiled flags s) h).
    split; [now apply installed_is_var|]. split; [now apply installed_stored|].
    split; [discriminate|]. intros ? [= <-]. rewrite Es.
    split; [now apply installed_pattern_text|]. split; [done|].
    split; [now apply installed_matcher_at|].
    eexists. split; [now apply installed_regex_at|]. reflexivity.
  - destruct P as [-> ->]. destruct (emptied_var _ _ W) as [Wn Sn].
    split; [done|]. split; [done|]. split; [done|]. discriminate.
Qed.

(** ** The properties of the codec *)

(** C5. An item that holds a value, asked by [regex_string_set] to take the
    text that is its pattern already, answers
    [CSR_SUCCESS | CSR_SUC_NO_CHANGE] and the state stays as it was: the
    heap is untouched and the validator's log has no new call. So when a
    [regex_string_set] succeeded and left a value in the item, the same
    call again answers [CSR_SUCCESS | CSR_SUC_NO_CHANGE] and changes
    nothing. *)
Theorem string_set_same_text_no_change v d value err st :
  is_var (heap st) v = true ->
  (stored (heap st) v <> NULL ->
   NONULL value = NONULL (pattern_text (heap st) (stored (heap st) v)) ->
   regex_string_set REGCOMP regerror (Some config_set) (Some v) (Some d) value err st
   = Some ((Z.lor CSR_SUCCESS CSR_SUC_NO_CHANGE, Some d, err), st)) /\
  (forall res st1 err2,
   regex_string_set REGCOMP regerror (Some config_set) (Some v) (Some d) value err st
   = Some (res, st1) ->
   CSR_RESULT (fst (fst res)) = CSR_SUCCESS ->
   stored (heap st1) v <> NULL ->
   regex_string_set REGCOMP regerror (Some config_set) (Some v) (Some d) value err2 st1
   = Some ((Z.lor CSR_SUCCESS CSR_SUC_NO_CHANGE, Some d, err2), st1)).
Proof.
  assert (A : forall value err st, is_var (heap st) v = true ->
    same_text (heap st) v value ->
    regex_string_set REGCOMP regerror (Some config_set) (Some v) (Some d) value err st
    = Some ((Z.lor CSR_SUCCESS CSR_SUC_NO_CHANGE, Some d, err), st)).
  { clear. intros value err st W S.
    destruct (regex_string_set_run v d value err st W) as (res & st' & E & O).
    rewrite E. now destruct O. }
  intros W. split.
  - intros L T. apply A; [exact W|].
    destruct (stored (heap st) v) as [c|] eqn:Ec; [|now destruct L]. now exists c.
  - intros res st1 err2 E Ok L.
    destruct (regex_string_set_run v d value err st W) as (res' & st' & E' & O).
    rewrite E in E'. injection E' as <- <-.
    assert (B : forall r h1 c, parsed value (type d) err (heap st) r h1 ->
      stored (<[v := OVar r]> (released (stored (heap st) v) h1)) v <> NULL ->
      regex_string_set REGCOMP regerror (Some config_set) (Some v) (Some d) value err2
        {| heap := <[v := OVar r]> (released (stored (heap st) v) h1); vcalls := c |}
      = Some ((Z.lor CSR_SUCCESS CSR_SUC_NO_CHANGE, Some d, err2),
              {| heap := <[v := OVar r]> (released (stored (heap st) v) h1);
                 vcalls := c |})).
    { intros r h1 c P L1.
      destruct (committed_var _ _ _ _ _ _ _ W P) as (W1 & S1 & _ & T1).
      apply A; [exact W1|]. cbn [heap]. rewrite S1 in *.
      destruct r as [a|]; [|now destruct L1]. exists a. split; [done|].
      now destruct (T1 a eq_refl) as [-> _]. }
    destruct O; cbn [fst] in Ok.
    + now apply A.
    + now apply CSR_RESULT_invalid in Ok.
    + now rewrite CSR_RESULT_rejected in Ok.
    + now apply B.
    + now apply B.
Qed.

Lemma append_empty s : mutt_buffer_addstr s "" = s.
Proof.
  unfold mutt_buffer_addstr. induction s as [|c s IH]; [reflexivity|].
  change (String c s ++ "")%string with (String c (s ++ "")%string). now rewrite IH.
Qed.

(** [regex_string_get] leaves the state alone and adds the pattern of the
    stored value to the buffer, nothing when there is none. *)
Lemma regex_string_get_run v d buf st :
  is_var (heap st) v = true ->
  exists rc,
    regex_string_get (Some config_set) (Some v) (Some d) buf st
    = Some ((rc, mutt_buffer_addstr buf
                   (NONULL (pattern_text (heap st) (stored (heap st) v)))), st) /\
    (rc = CSR_SUCCESS \/ rc = Z.lor CSR_SUCCESS CSR_SUC_EMPTY).
Proof.
  intros W. destruct (is_var_live _ _ W) as [Ev R]. unfold regex_string_get.
  unfold pattern_text, regex_at.
  destruct (stored (heap st) v) as [c|] eqn:Ec.
  - destruct (is_regex_live _ _ (R c eq_refl)) as (r & Er & Hp & Hm).
    rewrite (run_bind _ _ st (pattern r) st); cycle 1.
    { rewrite (run_bind _ _ _ _ _ (run_load_var _ _ _ Ev)).
      now rewrite (run_bind _ _ _ _ _ (run_load_regex _ _ _ Er)). }
    rewrite Er. destruct (pattern r) as [q|] eqn:Eq.
    + rewrite (run_bind _ _ _ _ _ (run_load_str _ _ Hp)).
      eexists. split; [reflexivity|]. now left.
    + eexists. split; [|now right]. cbn [text_at NONULL default].
      now rewrite append_empty.
  - rewrite (run_bind _ _ st None st); cycle 1.
    { now rewrite (run_bind _ _ _ _ _ (run_load_var _ _ _ Ev)). }
    eexists. split; [|now right]. cbn [NONULL default]. now rewrite append_empty.
Qed.

Lemma get_result_success rc :
  rc = CSR_SUCCESS \/ rc = Z.lor CSR_SUCCESS CSR_SUC_EMPTY ->
  CSR_RESULT rc = CSR_SUCCESS.
Proof.
  intros [-> | ->]; [|rewrite CSR_RESULT_empty]; apply CSR_RESULT_success.
Qed.

(** After a [regex_string_set] that succeeded, the pattern of the stored
    value is the text that was given, and nothing is stored for no text. *)
Lemma string_set_stores_text v d x err st res st' :
  is_var (heap st) v = true ->
  regex_string_set REGCOMP regerror (Some config_set) (Some v) (Some d) x err st
  = Some (res, st') ->
  CSR_RESULT (fst (fst res)) = CSR_SUCCESS ->
  is_var (heap st') v = true /\
  NONULL (pattern_text (heap st') (stored (heap st') v)) = NONULL x.
Proof.
  intros W E Ok.
  destruct (regex_string_set_run v d x err st W) as (res' & st1 & E' & O).
  rewrite E in E'. injection E' as <- <-.
  assert (B : forall r h1, parsed x (type d) err (heap st) r h1 ->
    is_var (<[v := OVar r]> (released (stored (heap st) v) h1)) v = true /\
    NONULL (pattern_text (<[v := OVar r]> (released (stored (heap st) v) h1))
              (stored (<[v := OVar r]> (released (stored (heap st) v) h1)) v))
    = NONULL x).
  { intros r h1 P.
    destruct (committed_var _ _ _ _ _ _ _ W P) as (W1 & S1 & T0 & T1).
    split; [exact W1|]. rewrite S1. destruct r as [a|].
    - now destruct (T1 a eq_refl) as [-> _].
    - destruct (T0 eq_refl) as [En _]. now rewrite <- (NONULL_nonempty x), En. }
  destruct O as [Sm|s Ns En Ef|f r h1 Ns P Ef Rj|f r h1 Ns P Ef Ac|r h1 Ns P Ef];
    cbn [fst heap] in *.
  - split; [exact W|]. destruct Sm as (c & -> & ->). reflexivity.
  - now apply CSR_RESULT_invalid in Ok.
  - now rewrite CSR_RESULT_rejected in Ok.
  - now apply B.
  - now apply B.
Qed.

(** C2. Whatever text [x] a [regex_string_set] on an item succeeds with, a
    [regex_string_get] that follows succeeds and adds exactly [x] to the
    buffer it is given, a leading [!] included: a buffer that was empty
    then holds [x]. The state is left as it is. *)
Theorem string_set_get_round_trip v d x err st res st' :
  is_var (heap st) v = true ->
  regex_string_set REGCOMP regerror (Some config_set) (Some v) (Some d) x err st
  = Some (res, st') ->
  CSR_RESULT (fst (fst res)) = CSR_SUCCESS ->
  (forall buf, exists rc,
     regex_string_get (Some config_set) (Some v) (Some d) buf st'
     = Some ((rc, mutt_buffer_addstr buf (NONULL x)), st') /\
     CSR_RESULT rc = CSR_SUCCESS) /\
  (exists rc,
     regex_string_get (Some config_set) (Some v) (Some d) ""%string st'
     = Some ((rc, NONULL x), st') /\
     CSR_RESULT rc = CSR_SUCCESS).
Proof.
  intros W E Ok.
  destruct (string_set_stores_text _ _ _ _ _ _ _ W E Ok) as [W1 T].
  assert (G : forall buf, exists rc,
     regex_string_get (Some config_set) (Some v) (Some d) buf st'
     = Some ((rc, mutt_buffer_addstr buf (NONULL x)), st') /\
     CSR_RESULT rc = CSR_SUCCESS).
  { intros buf. destruct (regex_string_get_run v d buf st' W1) as (rc & G & S).
    exists rc. rewrite T in G. split; [exact G|]. now apply get_result_success. }
  split; [exact G|]. exact (G ""%string).
Qed.

Lemma empty_flag_set rc : Z.land (Z.lor rc CSR_SUC_EMPTY) CSR_SUC_EMPTY = CSR_SUC_EMPTY.
Proof. apply flag_set. Qed.

(** [CSR_SUCCESS | CSR_SUC_NO_CHANGE] does not carry the empty flag. *)
Lemma empty_not_no_change rc :
  Z.lor rc CSR_SUC_EMPTY <> Z.lor CSR_SUCCESS CSR_SUC_NO_CHANGE.
Proof.
  destruct headers_facts as (S & _ & _ & E & _ & _ & N & _ & _ & EN & _).
  intros Q. apply N. rewrite <- (flag_set rc CSR_SUC_EMPTY), Q.
  rewrite Z.land_lor_distr_l, (Z.land_comm CSR_SUC_NO_CHANGE), EN, Z.lor_0_r.
  rewrite <- S, <- Z.land_assoc, (Z.land_comm CSR_RESULT_MASK), E.
  apply Z.land_0_r.
Qed.

(** C10. An item whose storage is unset, given no text or the empty text by
    [regex_string_set]: the validator, if there is one, is called, with
    NULL for the candidate; unless it vetoes, the answer carries
    [CSR_SUC_EMPTY] on a success (it is [CSR_SUCCESS | CSR_SUC_EMPTY]
    without a validator) and is not [CSR_SUCCESS | CSR_SUC_NO_CHANGE]; the
    storage is unset afterwards and the heap is what it was. *)
Theorem string_set_unset_empty v d value err st :
  is_var (heap st) v = true ->
  stored (heap st) v = NULL ->
  value = None \/ value = Some ""%string ->
  exists rc e st',
    regex_string_set REGCOMP regerror (Some config_set) (Some v) (Some d) value err st
    = Some ((rc, Some d, e), st') /\
    stored (heap st') v = NULL /\
    heap st' = heap st /\
    match validator d with
    | None =>
        rc = Z.lor CSR_SUCCESS CSR_SUC_EMPTY /\ e = err /\ vcalls st' = vcalls st
    | Some f =>
        vcalls st' = vcalls st ++ [(NULL, fst (f (heap st) NULL err))] /\
        e = snd (f (heap st) NULL err) /\
        (CSR_RESULT (fst (f (heap st) NULL err)) = CSR_SUCCESS ->
         rc = Z.lor (fst (f (heap st) NULL err)) CSR_SUC_EMPTY) /\
        (CSR_RESULT (fst (f (heap st) NULL err)) <> CSR_SUCCESS ->
         rc = Z.lor (fst (f (heap st) NULL err)) CSR_INV_VALIDATOR)
    end /\
    (CSR_RESULT rc = CSR_SUCCESS ->
     Z.land rc CSR_SUC_EMPTY = CSR_SUC_EMPTY /\
     rc <> Z.lor CSR_SUCCESS CSR_SUC_NO_CHANGE).
Proof.
  intros W U Hv.
  assert (En : nonempty value = None) by now destruct Hv as [-> | ->].
  destruct (regex_string_set_run v d value err st W) as (res & st' & E & O).
  rewrite E.
  assert (Pn : forall r h1, parsed value (type d) err (heap st) r h1 ->
                r = NULL /\ h1 = heap st).
  { intros r h1 P. unfold parsed in P. now rewrite En in P. }
  destruct O as [Sm|s Ns Es Ef|f r h1 Ns P Ef Rj|f r h1 Ns P Ef Ac|r h1 Ns P Ef].
  - destruct Sm as (c & Sc & _). congruence.
  - congruence.
  - destruct (Pn _ _ P) as [-> ->]. do 3 eexists. split; [reflexivity|].
    cbn [heap vcalls]. rewrite Ef.
    split; [exact U|]. split; [done|]. split; [now repeat split|].
    intros Ok. now rewrite CSR_RESULT_rejected in Ok.
  - destruct (Pn _ _ P) as [-> ->]. do 3 eexists. split; [reflexivity|].
    cbn [heap vcalls with_empty]. rewrite Ef, (emptied_unset _ _ W U).
    split; [exact U|]. split; [done|]. split; [now repeat split|].
    intros _. split; [apply empty_flag_set|apply empty_not_no_change].
  - destruct (Pn _ _ P) as [-> ->]. do 3 eexists. split; [reflexivity|].
    cbn [heap vcalls with_empty]. rewrite Ef, (emptied_unset _ _ W U).
    split; [exact U|]. split; [done|]. split; [now repeat split|].
    intros _. split; [apply empty_flag_set|apply empty_not_no_change].
Qed.

Lemma token_index_None tokens value i :
  ~ In value tokens -> Quad.token_index tokens value i = None.
Proof.
  revert i. induction tokens as [|t rest IH]; intros i N; [reflexivity|].
  simpl. destruct (String.eqb t value) eqn:E.
  - apply String.eqb_eq in E. subst. destruct N. now left.
  - apply IH. intros I. apply N. now right.
Qed.

(** A text that is none of the four tokens is refused, and the stored
    quad stays. *)
Lemma quad_string_set_invalid validator var value :
  ~ In (NONULL value) Quad.valid ->
  CSR_RESULT (fst (Quad.quad_string_set validator var value)) <> CSR_SUCCESS /\
  snd (Quad.quad_string_set validator var value) = var.
Proof.
  intros N. unfold Quad.quad_string_set. rewrite (token_index_None _ _ _ N).
  split; [apply CSR_RESULT_invalid|reflexivity].
Qed.

(** C8. [string_set] on a quad item refuses the empty text and every text
    that is not one of the four tokens: the answer is not a success and the
    stored value stays. [regex_string_set] on a regex item takes the empty
    text: when the item does not hold an empty pattern already and the
    validator, if there is one, does not veto, the answer is a success that
    carries [CSR_SUC_EMPTY] ([CSR_SUCCESS | CSR_SUC_EMPTY] without a
    validator) and the storage is unset afterwards. *)
Theorem empty_text_quad_fails_regex_succeeds quad_validator quad_var v d err st :
  is_var (heap st) v = true ->
  (stored (heap st) v = NULL \/
   NONULL (pattern_text (heap st) (stored (heap st) v)) <> ""%string) ->
  (forall f, validator d = Some f ->
     CSR_RESULT (fst (f (heap st) NULL err)) = CSR_SUCCESS) ->
  (forall value, ~ In (NONULL value) Quad.valid ->
     CSR_RESULT (fst (Quad.quad_string_set quad_validator quad_var value))
     <> CSR_SUCCESS /\
     snd (Quad.quad_string_set quad_validator quad_var value) = quad_var) /\
  (CSR_RESULT (fst (Quad.quad_string_set quad_validator quad_var (Some ""%string)))
   <> CSR_SUCCESS /\
   snd (Quad.quad_string_set quad_validator quad_var (Some ""%string)) = quad_var) /\
  exists rc e st',
    regex_string_set REGCOMP regerror (Some config_set) (Some v) (Some d)
      (Some ""%string) err st
    = Some ((rc, Some d, e), st') /\
    CSR_RESULT rc = CSR_SUCCESS /\
    Z.land rc CSR_SUC_EMPTY = CSR_SUC_EMPTY /\
    stored (heap st') v = NULL /\
    (validator d = None -> rc = Z.lor CSR_SUCCESS CSR_SUC_EMPTY).
Proof.
  intros W Hp Hv. split; [|split].
  - intros value. apply quad_string_set_invalid.
  - apply quad_string_set_invalid. simpl. intros [E|[E|[E|[E|[]]]]]; discriminate.
  - destruct (regex_string_set_run v d (Some ""%string) err st W) as (res & st' & E & O).
    rewrite E.
    assert (Pn : forall r h1, parsed (Some ""%string) (type d) err (heap st) r h1 ->
                  r = NULL /\ h1 = heap st) by (intros r h1 P; exact P).
    destruct O as [Sm|s Ns Es Ef|f r h1 Ns P Ef Rj|f r h1 Ns P Ef Ac|r h1 Ns P Ef].
    + destruct Sm as (c & Sc & T). rewrite Sc in Hp.
      destruct Hp as [Hp|Hp]; [discriminate|]. now destruct Hp.
    + discriminate.
    + destruct (Pn _ _ P) as [-> ->]. now destruct (Rj (Hv f Ef)).
    + destruct (Pn _ _ P) as [-> ->]. do 3 eexists. split; [reflexivity|].
      cbn [heap with_empty]. rewrite CSR_RESULT_empty.
      split; [exact Ac|]. split; [apply empty_flag_set|].
      split; [apply emptied_var, W|]. congruence.
    + destruct (Pn _ _ P) as [-> ->]. do 3 eexists. split; [reflexivity|].
      cbn [heap with_empty]. rewrite CSR_RESULT_empty.
      split; [apply CSR_RESULT_success|]. split; [apply empty_flag_set|].
      split; [apply emptied_var, W|]. reflexivity.
Qed.

Lemma rejected_flag_set rc :
  Z.land (Z.lor rc CSR_INV_VALIDATOR) CSR_INV_VALIDATOR = CSR_INV_VALIDATOR.
Proof. apply flag_set. Qed.

Lemma log_grew {A} (l : list A) x : l <> l ++ [x].
Proof.
  intros E. apply (f_equal (@length A)) in E. rewrite length_app in E.
  simpl in E. lia.
Qed.

(** C1. When the validator of a regex item vetoes the value it is handed
    (its answer is not a success), [regex_string_set] and
    [regex_native_set] both answer with the validator's code and the flag
    [CSR_INV_VALIDATOR], which is not a success and is not the plain
    [CSR_ERR_INVALID] of a text that does not compile; the heap afterwards
    is the heap before, so the stored value is what it was and the value
    parsed from the text is freed, not installed. With a validator that
    vetoes everything no [regex_string_set] changes the heap.
    [regex_string_set] proposes a value whenever the text is not the
    stored pattern and parses: the validator is then handed the candidate
    [r], in the heap [h1] where it was built beside the old value, and
    its answer decides; on a veto the call answers as said, the state is
    the one before with the call in the log, and a value is installed
    only when the validator accepts. *)
Theorem validator_veto v d f value native err st :
  is_var (heap st) v = true ->
  validator d = Some f ->
  (exists res st',
     regex_string_set REGCOMP regerror (Some config_set) (Some v) (Some d) value err st
     = Some (res, st') /\
     (forall candidate rc,
        vcalls st' = vcalls st ++ [(candidate, rc)] ->
        CSR_RESULT rc <> CSR_SUCCESS ->
        fst (fst res) = Z.lor rc CSR_INV_VALIDATOR /\
        CSR_RESULT (fst (fst res)) <> CSR_SUCCESS /\
        Z.land (fst (fst res)) CSR_INV_VALIDATOR = CSR_INV_VALIDATOR /\
        fst (fst res) <> CSR_ERR_INVALID /\
        heap st' = heap st) /\
     ((forall h p e, CSR_RESULT (fst (f h p e)) <> CSR_SUCCESS) ->
      heap st' = heap st)) /\
  (~ same_text (heap st) v value ->
   (forall s, nonempty value = Some s -> create_fails (type d) s err = false) ->
   exists r h1,
     parsed value (type d) err (heap st) r h1 /\
     (CSR_RESULT (fst (f h1 r err)) <> CSR_SUCCESS ->
      regex_string_set REGCOMP regerror (Some config_set) (Some v) (Some d) value err st
      = Some ((Z.lor (fst (f h1 r err)) CSR_INV_VALIDATOR, Some d, snd (f h1 r err)),
              {| heap := heap st;
                 vcalls := vcalls st ++ [(r, fst (f h1 r err))] |}) /\
      CSR_RESULT (Z.lor (fst (f h1 r err)) CSR_INV_VALIDATOR) <> CSR_SUCCESS /\
      Z.land (Z.lor (fst (f h1 r err)) CSR_INV_VALIDATOR) CSR_INV_VALIDATOR
      = CSR_INV_VALIDATOR /\
      Z.lor (fst (f h1 r err)) CSR_INV_VALIDATOR <> CSR_ERR_INVALID) /\
     (CSR_RESULT (fst (f h1 r err)) = CSR_SUCCESS ->
      regex_string_set REGCOMP regerror (Some config_set) (Some v) (Some d) value err st
      = Some ((with_empty r (fst (f h1 r err)), Some d, snd (f h1 r err)),
              {| heap := <[v := OVar r]> (released (stored (heap st) v) h1);
                 vcalls := vcalls st ++ [(r, fst (f h1 r err))] |}))) /\
  (CSR_RESULT (fst (f (heap st) native err)) <> CSR_SUCCESS ->
   regex_native_set REGCOMP regerror (Some config_set) (Some v) (Some d) native err st
   = Some ((Z.lor (fst (f (heap st) native err)) CSR_INV_VALIDATOR,
            snd (f (heap st) native err)),
           {| heap := heap st;
              vcalls := vcalls st ++ [(native, fst (f (heap st) native err))] |}) /\
   CSR_RESULT (Z.lor (fst (f (heap st) native err)) CSR_INV_VALIDATOR) <> CSR_SUCCESS /\
   Z.lor (fst (f (heap st) native err)) CSR_INV_VALIDATOR <> CSR_ERR_INVALID).
Proof.
  intros W Ef. split; [|split].
  - destruct (regex_string_set_run v d value err st W) as (res & st' & E & O).
    exists res, st'. split; [exact E|].
    destruct O as [Sm|s Ns Es Ec|g r h1 Ns P Eg Rj|g r h1 Ns P Eg Ac|r h1 Ns P Eg];
      cbn [fst heap vcalls].
    + split; [|done]. intros c rc L. now apply log_grew in L.
    + split; [|done]. intros c rc L. now apply log_grew in L.
    + split; [|done]. intros c rc L Rc.
      apply app_inj_tail in L as [_ [= <- <-]].
      rewrite CSR_RESULT_rejected.
      repeat split; try done; [apply rejected_flag_set|apply rejected_not_invalid].
    + split.
      * intros c rc L Rc. apply app_inj_tail in L as [_ [= <- <-]]. now destruct Rc.
      * intros All. rewrite Ef in Eg. injection Eg as <-. now destruct (All h1 r err).
    + congruence.
  - intros Nt Cf.
    destruct (regex_string_set_run v d value err st W) as (res & st' & E & O).
    destruct O as [Sm|s Ns Es Ec|g r h1 Ns P Eg Rj|g r h1 Ns P Eg Ac|r h1 Ns P Eg].
    + now destruct Nt.
    + rewrite (Cf s Es) in Ec. discriminate.
    + rewrite Ef in Eg. injection Eg as <-. exists r, h1. split; [exact P|]. split.
      * intros _. split; [exact E|]. rewrite CSR_RESULT_rejected.
        split; [exact Rj|]. split; [apply rejected_flag_set|apply rejected_not_invalid].
      * intros Ac. now destruct Rj.
    + rewrite Ef in Eg. injection Eg as <-. exists r, h1. split; [exact P|]. split.
      * intros Rj. now destruct Rj.
      * intros _. exact E.
    + congruence.
  - intros Rj. split; [|split].
    + unfold regex_native_set. rewrite Ef.
      rewrite (run_bind _ _ _ (f (heap st) native err)
        {| heap := heap st;
           vcalls := vcalls st ++ [(native, fst (f (heap st) native err))] |})
        by reflexivity.
      cbv beta. apply Z.eqb_neq in Rj. now rewrite Rj.
    + now rewrite CSR_RESULT_rejected.
    + apply rejected_not_invalid.
Qed.

(** The compile flags carry [REG_ICASE] exactly for a text without
    uppercase letters under a definition that does not force the case. *)
Lemma compiled_flags_icase flags s :
  Z.land (compiled_flags flags s) REG_ICASE <> 0 <->
  Z.land flags DT_REGEX_MATCH_CASE = 0 /\ mutt_mb_is_lower s = true.
Proof.
  destruct headers_facts as (_&_&_&_&_&_&_&_&_&_&_&_&_&_&_& I & _ & IN).
  rewrite Z.land_comm in IN. unfold compiled_flags.
  destruct (Z.land flags DT_REGEX_MATCH_CASE =? 0) eqn:Ec;
    [apply Z.eqb_eq in Ec|apply Z.eqb_neq in Ec];
    destruct (mutt_mb_is_lower s);
    destruct (negb (Z.land flags DT_REGEX_NOSUB =? 0)); simpl;
    rewrite ?Z.land_lor_distr_l, ?IN, ?Z.lor_0_r, ?Z.land_diag, ?Z.land_0_l;
    intuition congruence.
Qed.

(** They carry [REG_NOSUB] exactly under a definition that asks for it. *)
Lemma compiled_flags_nosub flags s :
  Z.land (compiled_flags flags s) REG_NOSUB <> 0 <->
  Z.land flags DT_REGEX_NOSUB <> 0.
Proof.
  destruct headers_facts as (_&_&_&_&_&_&_&_&_&_&_&_&_&_&_& _ & Nz & IN).
  unfold compiled_flags.
  destruct (Z.land flags DT_REGEX_NOSUB =? 0) eqn:Ec;
    [apply Z.eqb_eq in Ec|apply Z.eqb_neq in Ec];
    destruct ((Z.land flags DT_REGEX_MATCH_CASE =? 0) && mutt_mb_is_lower s); simpl;
    rewrite ?Z.land_lor_distr_l, ?IN, ?Z.lor_0_l, ?Z.land_diag, ?Z.land_0_l;
    intuition congruence.
Qed.

Lemma negated_iff flags s :
  negated flags s = true <->
  Z.land flags DT_REGEX_ALLOW_NOT <> 0 /\ starts_with_bang s = true.
Proof.
  unfold negated. rewrite andb_true_iff, negb_true_iff, Z.eqb_neq. tauto.
Qed.

Lemma starts_with_bang_text s :
  starts_with_bang s = true -> s = String "!" (str_next s).
Proof.
  destruct s as [|c s']; [discriminate|]. simpl.
  destruct (ascii_dec c "!"); [now subst|discriminate].
Qed.

(** The mark is no uppercase letter: the text has one exactly when the
    text behind the mark has one. *)
Lemma is_lower_compiled_text flags s :
  mutt_mb_is_lower (compiled_text flags s) = mutt_mb_is_lower s.
Proof.
  unfold compiled_text. destruct (negated flags s) eqn:E; [|reflexivity].
  apply negated_iff in E as [_ E]. apply starts_with_bang_text in E.
  rewrite E at 2. reflexivity.
Qed.

(** C3. [regex_create] on a text and the flags of a definition: the [!] in
    front is taken off and the value marked as negated exactly when the
    flags allow the negation and the text starts with [!]; what is left is
    compiled, with [REG_ICASE] exactly when the flags do not force the case
    and what is left has no uppercase letter, without it otherwise. The
    value that comes back holds the mark, the compiled matcher and the
    text as it was given; when the compilation fails and there is a buffer
    for the diagnostic, NULL comes back and the heap is what it was. *)
Theorem regex_create_parses s flags err st :
  exists (neg : bool) (text : string) (cflags : Z),
    (neg = true <->
     Z.land flags DT_REGEX_ALLOW_NOT <> 0 /\ starts_with_bang s = true) /\
    s = (if neg then String "!" text else text) /\
    (Z.land cflags REG_ICASE <> 0 <->
     Z.land flags DT_REGEX_MATCH_CASE = 0 /\ mutt_mb_is_lower text = true) /\
    if negb (REGCOMP text cflags =? 0) && bool_decide (is_Some err)
    then regex_create REGCOMP regerror (Some s) flags err st
         = Some ((NULL, Some (regerror (REGCOMP text cflags))), st)
    else exists a x st',
         regex_create REGCOMP regerror (Some s) flags err st
         = Some ((Some a, err), st') /\
         heap st !! a = None /\
         regex_at (heap st') (Some a) = Some x /\
         pat_not x = neg /\
         NONULL (pattern_text (heap st') (Some a)) = s /\
         matcher_at (heap st') (Some a)
         = Some (if REGCOMP text cflags =? 0
                 then re_prog text cflags
                 else re_bad (REGCOMP text cflags)).
Proof.
  exists (negated flags s), (compiled_text flags s), (compiled_flags flags s).
  split; [apply negated_iff|]. split.
  { unfold compiled_text. destruct (negated flags s) eqn:E; [|reflexivity].
    apply negated_iff in E as [_ E]. now apply starts_with_bang_text. }
  split.
  { rewrite is_lower_compiled_text. apply compiled_flags_icase. }
  pose proof (run_regex_create s flags err st) as Cr.
  unfold create_fails, compile_rc in Cr.
  destruct (negb (REGCOMP (compiled_text flags s) (compiled_flags flags s) =? 0)
            && bool_decide (is_Some err)); [exact Cr|].
  destruct Cr as (a & m & p & Hnew & Cr).
  exists a, {| pattern := p; regex := Some m; pat_not := negated flags s |}.
  eexists. split; [exact Cr|]. rewrite heap_set_heap.
  split; [apply Hnew|].
  split; [unfold regex_at; now rewrite (with_regex_regex _ _ _ _ _ _ _ Hnew)|].
  split; [reflexivity|].
  split; [now apply with_regex_pattern_text|].
  unfold matcher_at, regex_at. rewrite (with_regex_regex _ _ _ _ _ _ _ Hnew).
  cbn [regex]. now rewrite (with_regex_matcher _ _ _ _ _ _ _ Hnew).
Qed.

Lemma released_sub h p i x : released p h !! i = Some x -> h !! i = Some x.
Proof.
  unfold released. destruct (regex_at h p) as [r|]; [|done]. unfold unlink.
  destruct p as [c|], (regex r) as [m|], (pattern r) as [q|];
    repeat (rewrite lookup_delete; case_decide; [discriminate|]); done.
Qed.

Lemma owns_live h o i :
  is_regex h o = true -> owns h (Some o) i ->
  exists x, h !! i = Some x /\ forall p, x <> OVar p.
Proof.
  intros (r & E & P & M)%is_regex_live. unfold owns, regex_at. rewrite E.
  intros [[= <-]|[Q|Q]].
  - now exists (ORegex r).
  - rewrite Q in P. apply is_str_live in P as [t Et]. now exists (OStr t).
  - rewrite Q in M. apply is_matcher_live in M as [t Et]. now exists (ORegexT t).
Qed.

(** What [regex_native_set] leaves when it succeeds with a value that has
    a pattern: the copy, built by [regex_create] from the pattern text. *)
Lemma native_set_copied v d o orig s err st res st' :
  is_var (heap st) v = true ->
  regex_at (heap st) (Some o) = Some orig ->
  pattern orig <> NULL ->
  pattern_text (heap st) (Some o) = Some s ->
  native_set_outcome v d (Some o) err st res st' ->
  CSR_RESULT (fst res) = CSR_SUCCESS ->
  fst res = CSR_SUCCESS /\
  exists a m p,
    new_in (heap st) a m p s /\
    heap st' = installed v a m p s (negated (copy_flags orig) s)
                 (compiled (copy_flags orig) s) (heap st).
Proof.
  intros W Ro Np T O Ok.
  destruct O as [f Ef Rj|e c Hv Tn Pn|e c orig' s' Hv Ro' T' Cf
                |e c orig' s' a m p Hv Ro' T' Cf Hnew]; cbn [fst] in *.
  - now rewrite CSR_RESULT_rejected in Ok.
  - now destruct (Np (Pn orig Ro)).
  - now apply CSR_RESULT_invalid in Ok.
  - rewrite Ro in Ro'. injection Ro' as <-. rewrite T in T'. injection T' as <-.
    split; [reflexivity|]. now exists a, m, p.
Qed.

(** C6. A [regex_native_set] that succeeds with a value that has a pattern
    leaves in the item a copy of that value: a [struct Regex] at an
    address that was not live before the call, so not the caller's, whose
    matcher is a new [regex_t] compiled from the pattern text and whose
    pattern is the caller's text, in an allocation of its own. The two
    values share nothing: what the caller's value owns and the item's old
    value did not is as it was, and releasing the caller's value leaves
    every new object in place. *)
Theorem native_set_deep_copy v d o orig s err st :
  is_var (heap st) v = true ->
  is_regex (heap st) o = true ->
  regex_at (heap st) (Some o) = Some orig ->
  pattern orig <> NULL ->
  pattern_text (heap st) (Some o) = Some s ->
  exists res st',
    regex_native_set REGCOMP regerror (Some config_set) (Some v) (Some d) (Some o) err st
    = Some (res, st') /\
    (CSR_RESULT (fst res) = CSR_SUCCESS ->
     exists a m p,
       stored (heap st') v = Some a /\
       a <> o /\ heap st !! a = None /\
       regex_at (heap st') (Some a)
       = Some {| pattern := p; regex := Some m;
                 pat_not := negated (copy_flags orig) s |} /\
       regex orig <> Some m /\ heap st !! m = None /\
       heap st' !! m = Some (ORegexT (compiled (copy_flags orig) s)) /\
       NONULL (pattern_text (heap st') (Some a)) = s /\
       (s <> ""%string -> exists q,
          p = Some q /\ pattern orig <> Some q /\ heap st !! q = None /\
          heap st' !! q = Some (OStr s)) /\
       (forall i, owns (heap st) (Some o) i ->
                  ~ owns (heap st) (stored (heap st) v) i ->
                  heap st' !! i = heap st !! i) /\
       (forall i, heap st !! i = None ->
                  released (Some o) (heap st') !! i = heap st' !! i)).
Proof.
  intros W V Ro Np T.
  destruct (regex_native_set_run v d (Some o) err st W V) as (res & st' & E & O).
  exists res, st'. split; [exact E|]. intros Ok.
  destruct (native_set_copied _ _ _ _ _ _ _ _ _ W Ro Np T O Ok)
    as (_ & a & m & p & Hnew & ->).
  destruct (is_regex_live _ _ V) as (r & Eo & Hp & Hm).
  assert (r = orig) as -> by (unfold regex_at in Ro; rewrite Eo in Ro; congruence).
  pose proof Hnew as (Fa & Fm & Nam & Fp).
  exists a, m, p.
  split; [now apply installed_stored|].
  split; [intros ->; congruence|]. split; [exact Fa|].
  split; [now apply installed_regex_at|].
  split.
  { intros Q. rewrite Q in Hm. apply is_matcher_live in Hm as [? ?]. congruence. }
  split; [exact Fm|]. split; [now apply installed_matcher|].
  split; [now apply installed_pattern_text|].
  split.
  { intros Ns. destruct p as [q|]; [|now destruct Ns].
    destruct Fp as (Fq & _). exists q. split; [reflexivity|]. split.
    - intros Q. rewrite Q in Hp. apply is_str_live in Hp as [? ?]. congruence.
    - split; [exact Fq|]. now apply (installed_text_live _ _ _ _ (Some q)). }
  split.
  { intros i Oi Ni. destruct (owns_live _ _ _ V Oi) as (x & Ex & Nv).
    destruct (is_var_live _ _ W) as [Ev _].
    assert (v <> i) by (intros ->; rewrite Ev in Ex; injection Ex as <-; now eapply Nv).
    unfold installed. rewrite lookup_insert_ne by done.
    rewrite released_lookup.
    - rewrite Ex. now apply with_regex_old.
    - intros y Ey. unfold owns in Ni.
      destruct (stored (heap st) v) as [c|] eqn:Ec; [|discriminate].
      assert (Ec' : regex_at (heap st) (Some c) = Some y).
      { destruct (is_var_live _ _ W) as [_ R]. rewrite Ec in R.
        destruct (is_regex_live _ _ (R c eq_refl)) as (z & Ez & _).
        unfold regex_at in *. rewrite Ez.
        now rewrite (with_regex_old _ _ _ _ _ _ _ _ _ Hnew Ez) in Ey. }
      rewrite Ec' in Ni. tauto. }
  intros i Fi. apply released_lookup. intros y Ey.
  assert (Ey' : regex_at (heap st) (Some o) = Some y).
  { unfold regex_at in Ey |- *.
    destruct (installed v a m p s (negated (copy_flags orig) s)
                (compiled (copy_flags orig) s) (heap st) !! o) as [x|] eqn:Ex;
      [|discriminate].
    unfold installed in Ex.
    assert (v <> o).
    { intros ->. destruct (is_var_live _ _ W) as [Ev _]. congruence. }
    rewrite lookup_insert_ne in Ex by done. apply released_sub in Ex.
    rewrite Eo. rewrite (with_regex_old _ _ _ _ _ _ _ _ _ Hnew Eo) in Ex.
    injection Ex as <-. exact Ey. }
  rewrite Ro in Ey'. injection Ey' as <-.
  repeat split.
  - intros [= ->]. congruence.
  - intros Q. rewrite Q in Hp. apply is_str_live in Hp as [? ?]. congruence.
  - intros Q. rewrite Q in Hm. apply is_matcher_live in Hm as [? ?]. congruence.
Qed.

(** [regex_native_set] reads the validator of the definition and nothing
    else of it. *)
Lemma native_set_reads_validator_only cs var d d' value err :
  validator d' = validator d ->
  regex_native_set REGCOMP regerror cs var (Some d') value err
  = regex_native_set REGCOMP regerror cs var (Some d) value err.
Proof. intros E. unfold regex_native_set. now rewrite E. Qed.

Lemma copy_flags_case orig : Z.land (copy_flags orig) DT_REGEX_MATCH_CASE = 0.
Proof.
  unfold copy_flags. destruct (pat_not orig); [apply headers_facts|reflexivity].
Qed.

Lemma copy_flags_nosub orig : Z.land (copy_flags orig) DT_REGEX_NOSUB = 0.
Proof.
  unfold copy_flags. destruct (pat_not orig); [apply headers_facts|reflexivity].
Qed.

(** C9. A [regex_native_set] that succeeds with a value that has a pattern
    compiles the copy under the flags [DT_REGEX_ALLOW_NOT] or none, as the
    value is negated or not: the flags of the definition are not read (the
    call does the same for every definition with the same validator), so
    the copy is compiled without [REG_NOSUB] and with [REG_ICASE] whenever
    the text has no uppercase letter. A [regex_string_set] of the same
    text on an unset item of the same definition compiles under the flags
    of the definition: under [DT_REGEX_NOSUB], or under
    [DT_REGEX_MATCH_CASE] for a text without uppercase letters, the two
    are compiled with different flags. *)
Theorem native_set_ignores_definition_flags v d o orig s err st res st' :
  is_var (heap st) v = true ->
  is_regex (heap st) o = true ->
  regex_at (heap st) (Some o) = Some orig ->
  pattern orig <> NULL ->
  pattern_text (heap st) (Some o) = Some s ->
  regex_native_set REGCOMP regerror (Some config_set) (Some v) (Some d) (Some o) err st
  = Some (res, st') ->
  CSR_RESULT (fst res) = CSR_SUCCESS ->
  (forall d', validator d' = validator d ->
     regex_native_set REGCOMP regerror (Some config_set) (Some v) (Some d') (Some o) err st
     = Some (res, st')) /\
  matcher_at (heap st') (stored (heap st') v) = Some (compiled (copy_flags orig) s) /\
  copy_flags orig = (if pat_not orig then DT_REGEX_ALLOW_NOT else 0) /\
  Z.land (compiled_flags (copy_flags orig) s) REG_NOSUB = 0 /\
  (Z.land (compiled_flags (copy_flags orig) s) REG_ICASE <> 0 <->
   mutt_mb_is_lower s = true) /\
  (forall err0 st0 res0 st1,
     is_var (heap st0) v = true ->
     stored (heap st0) v = NULL ->
     s <> ""%string ->
     regex_string_set REGCOMP regerror (Some config_set) (Some v) (Some d) (Some s)
       err0 st0 = Some (res0, st1) ->
     CSR_RESULT (fst (fst res0)) = CSR_SUCCESS ->
     matcher_at (heap st1) (stored (heap st1) v) = Some (compiled (type d) s) /\
     (Z.land (type d) DT_REGEX_NOSUB <> 0 ->
      compiled_flags (type d) s <> compiled_flags (copy_flags orig) s) /\
     (Z.land (type d) DT_REGEX_MATCH_CASE <> 0 -> mutt_mb_is_lower s = true ->
      compiled_flags (type d) s <> compiled_flags (copy_flags orig) s)).
Proof.
  intros W V Ro Np T E Ok.
  destruct (regex_native_set_run v d (Some o) err st W V) as (res1 & st1 & E1 & O).
  rewrite E in E1. injection E1 as <- <-.
  destruct (native_set_copied _ _ _ _ _ _ _ _ _ W Ro Np T O Ok)
    as (_ & a & m & p & Hnew & Eh).
  assert (Nosub : Z.land (compiled_flags (copy_flags orig) s) REG_NOSUB = 0).
  { destruct (Z.eq_dec (Z.land (compiled_flags (copy_flags orig) s) REG_NOSUB) 0)
      as [Z|Z]; [exact Z|].
    apply compiled_flags_nosub in Z. now destruct (Z (copy_flags_nosub orig)). }
  assert (Icase : Z.land (compiled_flags (copy_flags orig) s) REG_ICASE <> 0 <->
                  mutt_mb_is_lower s = true).
  { rewrite compiled_flags_icase. pose proof (copy_flags_case orig). tauto. }
  split.
  { intros d' Ed. now rewrite (native_set_reads_validator_only _ _ d d'). }
  split.
  { rewrite Eh, (installed_stored (heap st) v a m p s). now apply installed_matcher_at. }
  split; [reflexivity|]. split; [exact Nosub|]. split; [exact Icase|].
  intros err0 st0 res0 st2 W0 U0 Ns E0 Ok0.
  destruct (regex_string_set_run v d (Some s) err0 st0 W0) as (res2 & st3 & E2 & O2).
  rewrite E0 in E2. injection E2 as <- <-.
  assert (M : forall r h1, parsed (Some s) (type d) err0 (heap st0) r h1 ->
    matcher_at (<[v := OVar r]> (released (stored (heap st0) v) h1))
      (stored (<[v := OVar r]> (released (stored (heap st0) v) h1)) v)
    = Some (compiled (type d) s)).
  { intros r h1 P.
    destruct (committed_var _ _ _ _ _ _ _ W0 P) as (_ & -> & T0 & T1).
    destruct r as [b|].
    - now destruct (T1 b eq_refl) as (_ & _ & -> & _).
    - destruct (T0 eq_refl) as [En _]. now destruct s. }
  split; [|split].
  - destruct O2 as [Sm|s' Ns' Es Ec|g r h1 Ns' P Eg Rj|g r h1 Ns' P Eg Ac|r h1 Ns' P Eg];
      cbn [fst heap] in *.
    + destruct Sm as (c & Sc & _). congruence.
    + now apply CSR_RESULT_invalid in Ok0.
    + now rewrite CSR_RESULT_rejected in Ok0.
    + now apply M.
    + now apply M.
  - intros Fn Q. apply (compiled_flags_nosub (type d) s) in Fn.
    rewrite Q in Fn. now destruct Fn.
  - intros Fc Low Q. apply Icase in Low. rewrite <- Q in Low.
    apply compiled_flags_icase in Low. now destruct Low as [Z _].
Qed.

(** X9. With a buffer for the diagnostic, a text that does not compile is
    refused: [CSR_ERR_INVALID], the diagnostic of the engine in the buffer,
    and the state as it was. *)
Lemma string_set_compile_failure v d value s b st :
  is_var (heap st) v = true ->
  nonempty value = Some s ->
  ~ same_text (heap st) v value ->
  compile_rc (type d) s <> 0 ->
  regex_string_set REGCOMP regerror (Some config_set) (Some v) (Some d) value (Some b) st
  = Some ((CSR_ERR_INVALID, Some d, Some (regerror (compile_rc (type d) s))), st).
Proof.
  intros W En Ns Rc.
  destruct (regex_string_set_run v d value (Some b) st W) as (res & st' & E & O).
  rewrite E.
  assert (F : create_fails (type d) s (Some b) = true).
  { unfold create_fails. apply Z.eqb_neq in Rc. now rewrite Rc. }
  assert (Pn : forall r h1, ~ parsed value (type d) (Some b) (heap st) r h1).
  { intros r h1 P. unfold parsed in P. rewrite En in P. destruct P as [P _]. congruence. }
  destruct O as [Sm|s' Ns' Es Ec|g r h1 Ns' P Eg Rj|g r h1 Ns' P Eg Ac|r h1 Ns' P Eg].
  - now destruct Ns.
  - rewrite En in Es. now injection Es as <-.
  - now destruct (Pn _ _ P).
  - now destruct (Pn _ _ P).
  - now destruct (Pn _ _ P).
Qed.


(** X12. Without storage [regex_string_set] records the text as the initial
    value of the definition, and [regex_string_get] reads it back from
    there. *)
Lemma string_set_get_initial_round_trip d x err st buf :
  (Z.land (type d) DT_INITIAL_SET <> 0 ->
   forall a, initial d = Some a -> is_Some (heap st !! a)) ->
  exists d' st' rc,
    regex_string_set REGCOMP regerror (Some config_set) NULL (Some d) x err st
    = Some ((CSR_SUCCESS, Some d', err), st') /\
    regex_string_get (Some config_set) NULL (Some d') buf st'
    = Some ((rc, mutt_buffer_addstr buf (NONULL x)), st') /\
    CSR_RESULT rc = CSR_SUCCESS.
Proof.
  intros L. unfold regex_string_set. fold (nonempty x).
  assert (F : exists st1,
    (if negb (Z.land (type d) DT_INITIAL_SET =? 0) then FREE (initial d) else mret tt)
      st = Some (tt, st1)).
  { destruct (Z.land (type d) DT_INITIAL_SET =? 0) eqn:E; simpl.
    - now exists st.
    - apply Z.eqb_neq in E. eexists. apply run_FREE_unlink. now apply L. }
  destruct F as (st1 & F). rewrite (run_bind _ _ _ _ _ F).
  destruct (nonempty x) as [s|] eqn:En.
  - assert (Ns : s <> ""%string) by (intros ->; now destruct x as [[|]|]).
    assert (Ex : NONULL x = s) by now rewrite <- NONULL_nonempty, En.
    set (q := fresh (dom (heap st1))).
    assert (D : mutt_str_strdup (Some s) st1
                = Some (Some q, set_heap (<[q := OStr s]> (heap st1)) st1)).
    { destruct s; [done|reflexivity]. }
    rewrite (run_bind _ _ _ _ _ D). do 3 eexists. split; [reflexivity|].
    unfold regex_string_get. cbn [initial].
    rewrite (run_bind _ _ _ (Some q) (set_heap (<[q := OStr s]> (heap st1)) st1))
      by reflexivity.
    erewrite run_bind; cycle 1.
    { apply run_load_str. simpl. now rewrite lookup_insert_eq. }
    cbn [text_at heap set_heap]. rewrite lookup_insert_eq, Ex.
    split; [reflexivity|]. apply CSR_RESULT_success.
  - assert (Ex : NONULL x = ""%string) by now rewrite <- NONULL_nonempty, En.
    rewrite (run_bind _ _ _ NULL st1) by reflexivity.
    do 3 eexists. split; [reflexivity|].
    unfold regex_string_get. cbn [initial].
    rewrite (run_bind _ _ _ NULL st1) by reflexivity.
    rewrite Ex, append_empty. split; [reflexivity|].
    rewrite CSR_RESULT_empty. apply CSR_RESULT_success.
Qed.

(** ** What [regex_reset] does *)

Lemma regex_reset_run v d err st :
  is_var (heap st) v = true ->
  is_str (heap st) (initial d) = true ->
  exists res st',
    regex_reset REGCOMP regerror (Some config_set) (Some v) (Some d) err st
    = Some (res, st') /\
    reset_outcome v d err st res st'.
Proof.
  intros W I. destruct (is_var_live _ _ W) as [Ev R].
  unfold regex_reset.
  rewrite (run_bind _ _ _ _ _ (run_load_var _ _ _ Ev)).
  fold (reset_rc (stored (heap st) v)).
  assert (L : (match stored (heap st) v with
               | Some c => load_regex c ≫= λ cur, mret (pattern cur)
               | None => mret None
               end) st
              = Some (match regex_at (heap st) (stored (heap st) v) with
                      | Some r => pattern r
                      | None => None
                      end, st) /\
              is_str (heap st) (match regex_at (heap st) (stored (heap st) v) with
                                | Some r => pattern r
                                | None => None
                                end) = true).
  { destruct (stored (heap st) v) as [c|] eqn:Ec; [|done].
    destruct (is_regex_live _ _ (R c eq_refl)) as (r & Er & Hp & Hm).
    unfold regex_at. rewrite Er. split; [|exact Hp].
    now rewrite (run_bind _ _ _ _ _ (run_load_regex _ _ _ Er)). }
  destruct L as [L Hc]. rewrite (run_bind _ _ _ _ _ L). clear L.
  rewrite (run_bind _ _ _ _ _ (run_load_str _ _ I)).
  rewrite (run_bind _ _ _ _ _ (run_load_str _ _ Hc)).
  assert (T : text_at (heap st) (match regex_at (heap st) (stored (heap st) v) with
                                 | Some r => pattern r
                                 | None => None
                                 end)
              = pattern_text (heap st) (stored (heap st) v)).
  { unfold pattern_text. now destruct (regex_at (heap st) (stored (heap st) v)). }
  rewrite T. clear T Hc.
  destruct (mutt_str_strcmp (text_at (heap st) (initial d))
              (pattern_text (heap st) (stored (heap st) v)) =? 0) eqn:Eq.
  { apply strcmp_zero in Eq. do 2 eexists. split; [reflexivity|].
    now apply reset_no_change. }
  assert (N : ~ at_initial (heap st) v d).
  { intros E. apply strcmp_zero in E. congruence. }
  clear Eq.
  (* validation and replacement, for the candidate [r] in the heap [h1] *)
  assert (V : forall r h1 c,
    created (text_at (heap st) (initial d)) (type d) err (heap st) r h1 ->
    keeps (heap st) h1 ->
    (forall a, r = Some a -> is_regex h1 a = true /\ released r h1 = heap st) ->
    exists res st',
      match validator d with
      | Some f =>
          call_validator f r err ≫= λ checked,
            if negb (CSR_RESULT checked.1 =? CSR_SUCCESS)
            then regex_free_obj r ≫= λ _,
                   mret (Z.lor checked.1 CSR_INV_VALIDATOR, checked.2)
            else regex_destroy (Some config_set) (Some v) (Some d) ≫= λ _,
                   store_var v r ≫= λ _,
                     mret (match r with
                           | Some _ => checked.1
                           | None => Z.lor checked.1 CSR_SUC_EMPTY
                           end, checked.2)
      | None =>
          regex_destroy (Some config_set) (Some v) (Some d) ≫= λ _,
            store_var v r ≫= λ _,
              mret (match r with
                    | Some _ => reset_rc (stored (heap st) v)
                    | None => Z.lor (reset_rc (stored (heap st) v)) CSR_SUC_EMPTY
                    end, err)
      end (set_heap h1 {| heap := heap st; vcalls := c |}) = Some (res, st') /\
      (c = vcalls st -> reset_outcome v d err st res st')).
  { intros r h1 c P K Fr.
    destruct (keeps_is_var _ _ _ K W) as [W1 S1].
    destruct (validator d) as [f|] eqn:Ef.
    - rewrite (run_bind _ _ _ (f h1 r err)
        {| heap := h1; vcalls := c ++ [(r, fst (f h1 r err))] |}) by reflexivity.
      cbv beta.
      destruct (CSR_RESULT (f h1 r err).1 =? CSR_SUCCESS) eqn:Ok; unfold negb.
      + rewrite run_replace by exact W1. simpl heap. rewrite S1.
        do 2 eexists. split; [reflexivity|]. intros ->.
        apply (reset_checked _ _ _ _ f r h1); try done.
        now apply Z.eqb_eq.
      + assert (F : regex_free_obj r {| heap := h1; vcalls := c ++ [(r, (f h1 r err).1)] |}
                    = Some (tt, {| heap := heap st; vcalls := c ++ [(r, (f h1 r err).1)] |})).
        { destruct r as [a|]; cycle 1.
          { unfold created in P. destruct (text_at (heap st) (initial d)).
            - now destruct P as (_ & ? & ? & ? & _ & ? & _).
            - now destruct P as [_ ->]. }
          destruct (Fr a eq_refl) as [Ra Rel].
          destruct (is_regex_live _ _ Ra) as (x & Ex & Hp & Hm).
          rewrite (run_regex_free_obj a x); try done. simpl heap. now rewrite Rel. }
        rewrite (run_bind _ _ _ _ _ F).
        do 2 eexists. split; [reflexivity|]. intros ->.
        apply (reset_rejected _ _ _ _ f r h1); try done.
        now apply Z.eqb_neq.
    - rewrite run_replace by exact W1. simpl heap. rewrite S1.
      do 2 eexists. split; [reflexivity|]. intros ->. unfold set_heap. simpl.
      now apply (reset_unchecked _ _ _ _ r h1). }
  destruct (initial d) as [q|] eqn:Ei.
  - destruct (is_str_live _ _ I) as [s Es].
    assert (Et : text_at (heap st) (Some q) = Some s) by (simpl; now rewrite Es).
    rewrite Et in *.
    pose proof (run_regex_create s (type d) err st) as Cr.
    destruct (create_fails (type d) s err) eqn:Ef.
    + rewrite (run_bind _ _ _ _ _ Cr). simpl.
      do 2 eexists. split; [reflexivity|]. apply reset_failed; try done.
      now rewrite Ei.
    + destruct Cr as (a & m & p & Hnew & Cr).
      rewrite (run_bind _ _ _ _ _ Cr). simpl fst. simpl snd. cbv iota.
      destruct (V (Some a)
        (with_regex a m p s (negated (type d) s) (compiled (type d) s) (heap st))
        (vcalls st)) as (res & st' & E & O).
      * unfold created. split; [done|]. now exists a, m, p.
      * now apply keeps_with_regex.
      * intros ? [= <-]. split.
        -- now apply with_regex_is_regex.
        -- now apply released_with_regex.
      * exists res, st'. split; [exact E|now apply O].
  - simpl text_at in V.
    destruct (V NULL (heap st) (vcalls st)) as (res & st' & E & O).
    + now unfold created.
    + now intros ? ?.
    + discriminate.
    + exists res, st'. split; [|now apply O].
      rewrite <- E. f_equal. now destruct st.
Qed.

(** ** The heap after a replacement *)

Lemma owns_dec h p i : {owns h p i} + {~ owns h p i}.
Proof.
  unfold owns. destruct (regex_at h p) as [r|]; [|right; tauto].
  destruct (decide (p = Some i)), (decide (pattern r = Some i)),
    (decide (regex r = Some i)); (left; tauto) || (right; tauto).
Qed.

Lemma released_owned h p i : owns h p i -> released p h !! i = None.
Proof.
  unfold owns, released. destruct (regex_at h p) as [r|]; [|done].
  unfold unlink. intros O.
  destruct p as [c|], (regex r) as [m|], (pattern r) as [q|];
    repeat (rewrite lookup_delete; case_decide; [reflexivity|]);
    destruct O as [O|[O|O]]; congruence.
Qed.

Lemma released_other h p i : ~ owns h p i -> released p h !! i = h !! i.
Proof.
  intros N. apply released_lookup. intros r E. unfold owns in N. rewrite E in N.
  tauto.
Qed.

(** The old value of a well-formed item is NULL or a [struct Regex]. *)
Lemma stored_is_value h v : is_var h v = true -> is_value h (stored h v) = true.
Proof.
  intros W. destruct (is_var_live _ _ W) as [_ R].
  destruct (stored h v) as [c|]; [now apply R|done].
Qed.

Lemma keeps_regex_at h h1 p :
  keeps h h1 -> is_value h p = true -> regex_at h1 p = regex_at h p.
Proof.
  intros K V. destruct p as [c|]; [|done].
  destruct (is_regex_live _ _ V) as (r & E & _). unfold regex_at.
  now rewrite E, (K _ _ E).
Qed.

Lemma keeps_owns h h1 p i :
  keeps h h1 -> is_value h p = true -> owns h1 p i <-> owns h p i.
Proof. intros K V. unfold owns. now rewrite (keeps_regex_at _ _ _ K V). Qed.

Lemma replaced_keeps h v r h' :
  replaced h v r h' ->
  exists h1, h' = <[v := OVar r]> (released (stored h v) h1) /\ keeps h h1.
Proof.
  intros (h1 & -> & Q). exists h1. split; [done|].
  destruct r as [a|]; [|now subst].
  destruct Q as (m & p & s & n & t & Hnew & ->). now apply keeps_with_regex.
Qed.

Lemma replaced_is_var h v r h' :
  is_var h v = true -> replaced h v r h' ->
  is_var h' v = true /\ stored h' v = r.
Proof.
  intros W (h1 & -> & Q). destruct r as [a|].
  - destruct Q as (m & p & s & n & t & Hnew & ->).
    fold (installed v a m p s n t h).
    split; [now apply installed_is_var|now apply installed_stored].
  - subst h1. now apply emptied_var.
Qed.

(** What the old value does not own stays as it is. *)
Lemma replaced_frame h v r h' i o :
  is_var h v = true -> replaced h v r h' ->
  h !! i = Some o -> i <> v -> ~ owns h (stored h v) i -> h' !! i = Some o.
Proof.
  intros W Rp E Nv No. destruct (replaced_keeps _ _ _ _ Rp) as (h1 & -> & K).
  rewrite lookup_insert_ne by done. rewrite released_other; [now apply K|].
  now rewrite (keeps_owns _ _ _ _ K (stored_is_value _ _ W)).
Qed.

(** What the old value owns is freed. *)
Lemma replaced_frees h v r h' i :
  is_var h v = true -> replaced h v r h' ->
  owns h (stored h v) i -> h' !! i = None.
Proof.
  intros W Rp O. destruct (replaced_keeps _ _ _ _ Rp) as (h1 & -> & K).
  pose proof (stored_is_value _ _ W) as V.
  destruct (is_var_live _ _ W) as [Ev _].
  assert (Nv : v <> i).
  { intros <-. destruct (stored h v) as [c|] eqn:Ec; [|now unfold owns in O].
    destruct (owns_live _ _ _ V O) as (x & Ex & Nx). rewrite Ev in Ex.
    injection Ex as <-. now eapply Nx. }
  rewrite lookup_insert_ne by done. apply released_owned.
  now rewrite (keeps_owns _ _ _ _ K V).
Qed.

(** Destroying the new value leaves what destroying the old one would
    have left: every object that the replacement made is owned by the new
    value. *)
Lemma replaced_destroy h v r h' :
  is_var h v = true -> replaced h v r h' ->
  <[v := OVar NULL]> (released r h') = <[v := OVar NULL]> (released (stored h v) h).
Proof.
  intros W Rp. pose proof (stored_is_value _ _ W) as V.
  destruct Rp as (h1 & -> & Q). destruct r as [a|]; cycle 1.
  { subst h1. unfold released at 1. simpl. apply insert_insert_eq. }
  destruct Q as (m & p & s & n & t & Hnew & ->).
  fold (installed v a m p s n t h).
  pose proof (installed_regex_at h v a m p s n t W Hnew) as Ra.
  pose proof (keeps_with_regex _ _ _ _ _ n t Hnew) as K.
  apply map_eq. intros i.
  destruct (decide (v = i)) as [<-|Nv]; [now rewrite !lookup_insert_eq|].
  rewrite !lookup_insert_ne by done.
  destruct (owns_dec (installed v a m p s n t h) (Some a) i) as [O|O].
  - rewrite (released_owned _ _ _ O). symmetry.
    destruct (released (stored h v) h !! i) as [x|] eqn:E; [|done].
    apply released_sub in E. unfold owns in O. rewrite Ra in O. cbn [pattern regex] in O.
    destruct Hnew as (Fa & Fm & _ & Fp).
    destruct O as [[= <-]|[->|[= <-]]]; [congruence| |congruence].
    destruct Fp as [Fq _]. congruence.
  - rewrite (released_other _ _ _ O). unfold installed.
    rewrite lookup_insert_ne by done.
    unfold owns in O. rewrite Ra in O. cbn [pattern regex] in O.
    assert (Ew : with_regex a m p s n t h !! i = h !! i).
    { unfold with_regex. rewrite !lookup_insert_ne by (intros <-; tauto).
      destruct p as [q|]; simpl; [|done].
      rewrite lookup_insert_ne; [done|]. intros <-. tauto. }
    destruct (owns_dec h (stored h v) i) as [Oi|Oi].
    + rewrite (released_owned _ _ _ Oi). apply released_owned.
      now rewrite (keeps_owns _ _ _ _ K V).
    + rewrite (released_other _ _ _ Oi), <- Ew. apply released_other.
      now rewrite (keeps_owns _ _ _ _ K V).
Qed.

Lemma parsed_replaced v value flags err h r h1 :
  parsed value flags err h r h1 ->
  replaced h v r (<[v := OVar r]> (released (stored h v) h1)).
Proof.
  unfold parsed. intros P. exists h1. split; [done|].
  destruct (nonempty value) as [s|].
  - destruct P as (_ & a & m & p & Hnew & -> & ->). exists m, p, s. now do 2 eexists.
  - now destruct P as [-> ->].
Qed.

Lemma created_replaced v text flags err h r h1 :
  created text flags err h r h1 ->
  replaced h v r (<[v := OVar r]> (released (stored h v) h1)).
Proof.
  unfold created. intros P. exists h1. split; [done|].
  destruct text as [s|].
  - destruct P as (_ & a & m & p & Hnew & -> & ->). exists m, p, s. now do 2 eexists.
  - now destruct P as [-> ->].
Qed.

Lemma string_set_outcome_heap v d value err st res st' :
  string_set_outcome v d value err st res st' ->
  heap st' = heap st \/ exists r, replaced (heap st) v r (heap st').
Proof.
  intros [Sm|s Ns En Ef|f r h1 Ns P Ef Rj|f r h1 Ns P Ef Ac|r h1 Ns P Ef];
    cbn [heap]; try (now left); right; exists r; now apply (parsed_replaced v) in P.
Qed.

Lemma native_set_outcome_heap v d value err st res st' :
  native_set_outcome v d value err st res st' ->
  heap st' = heap st \/ exists r, replaced (heap st) v r (heap st').
Proof.
  intros [f Ef Rj|e c Hv Tn Pn|e c orig s Hv Ro T Cf|e c orig s a m p Hv Ro T Cf Hnew];
    cbn [heap]; try (now left); right.
  - exists NULL. now exists (heap st).
  - exists (Some a). eexists. split; [reflexivity|]. exists m, p, s. now do 2 eexists.
Qed.

Lemma reset_outcome_heap v d err st res st' :
  reset_outcome v d err st res st' ->
  heap st' = heap st \/ exists r, replaced (heap st) v r (heap st').
Proof.
  intros [Sm|s Ns En Ef|f r h1 Ns P Ef Rj|f r h1 Ns P Ef Ac|r h1 Ns P Ef];
    cbn [heap]; try (now left); right; exists r; now apply (created_replaced v) in P.
Qed.

(** The item stays well formed, and what is neither the item nor a part
    of its old value stays as it is. *)
Lemma kept_item h v h' :
  is_var h v = true ->
  h' = h \/ (exists r, replaced h v r h') ->
  is_var h' v = true /\
  forall i o, h !! i = Some o -> i <> v -> ~ owns h (stored h v) i -> h' !! i = Some o.
Proof.
  intros W [->|[r Rp]]; [now split|].
  split; [now apply (replaced_is_var _ _ _ _ W Rp)|].
  intros i o. now apply replaced_frame with (r := r).
Qed.

(** The heap after a [regex_destroy] that follows. *)
Lemma destroyed_after h v h' :
  is_var h v = true ->
  h' = h \/ (exists r, replaced h v r h') ->
  <[v := OVar NULL]> (released (stored h' v) h')
  = <[v := OVar NULL]> (released (stored h v) h).
Proof.
  intros W [->|[r Rp]]; [done|].
  destruct (replaced_is_var _ _ _ _ W Rp) as [_ ->]. now apply replaced_destroy.
Qed.

(** ** More of the codec *)

(** X1. A value that [regex_create] hands out sits at an address that was not
    live, is well formed, and [regex_free] on it gives back all that
    [regex_create] had allocated: the state is as it was before the
    value was made. *)
Theorem regex_create_free_round_trip s flags err st :
  create_fails flags s err = false ->
  exists a st1,
    regex_create REGCOMP regerror (Some s) flags err st = Some ((Some a, err), st1) /\
    heap st !! a = None /\
    is_regex (heap st1) a = true /\
    regex_free_obj (Some a) st1 = Some (tt, st).
Proof.
  intros F. pose proof (run_regex_create s flags err st) as Cr. rewrite F in Cr.
  destruct Cr as (a & m & p & Hnew & Cr).
  exists a. eexists. split; [exact Cr|]. split; [apply Hnew|].
  pose proof (with_regex_is_regex _ _ _ _ _ (negated flags s) (compiled flags s) Hnew) as Ra.
  split; [exact Ra|].
  destruct (is_regex_live _ _ Ra) as (x & Ex & Hp & Hm).
  rewrite (run_regex_free_obj a x); try done.
  rewrite heap_set_heap, set_heap_set_heap, released_with_regex by done.
  now rewrite set_heap_id.
Qed.

(** X2. [regex_destroy] on a well-formed item frees the value and all that it
    owns and leaves the item unset; nothing else in the heap changes and
    the validator is not called. A second [regex_destroy] changes
    nothing, and [regex_string_get] then answers
    [CSR_SUCCESS | CSR_SUC_EMPTY] and adds nothing to the buffer. *)
Theorem regex_destroy_releases v d st :
  is_var (heap st) v = true ->
  exists st',
    regex_destroy (Some config_set) (Some v) (Some d) st = Some (tt, st') /\
    is_var (heap st') v = true /\
    stored (heap st') v = NULL /\
    vcalls st' = vcalls st /\
    (forall i, owns (heap st) (stored (heap st) v) i -> heap st' !! i = None) /\
    (forall i o, heap st !! i = Some o -> i <> v ->
       ~ owns (heap st) (stored (heap st) v) i -> heap st' !! i = Some o) /\
    regex_destroy (Some config_set) (Some v) (Some d) st' = Some (tt, st') /\
    (forall buf, regex_string_get (Some config_set) (Some v) (Some d) buf st'
       = Some ((Z.lor CSR_SUCCESS CSR_SUC_EMPTY, buf), st')).
Proof.
  intros W. eexists. split; [now apply run_regex_destroy|].
  rewrite heap_set_heap, vcalls_set_heap.
  assert (Rp : replaced (heap st) v NULL
                 (<[v := OVar NULL]> (released (stored (heap st) v) (heap st)))).
  { now exists (heap st). }
  destruct (replaced_is_var _ _ _ _ W Rp) as [W1 S1].
  split; [exact W1|]. split; [exact S1|]. split; [reflexivity|].
  split; [intros i; now apply replaced_frees with (r := NULL)|].
  split; [intros i o; now apply replaced_frame with (r := NULL)|].
  split.
  - rewrite run_regex_destroy by (now rewrite heap_set_heap).
    rewrite heap_set_heap, set_heap_set_heap. now rewrite emptied_unset.
  - intros buf.
    set (st1 := set_heap (<[v := OVar NULL]> (released (stored (heap st) v) (heap st))) st).
    assert (Ev : heap st1 !! v = Some (OVar NULL)) by apply lookup_insert_eq.
    unfold regex_string_get.
    rewrite (run_bind _ _ _ NULL st1); [reflexivity|].
    now rewrite (run_bind _ _ _ _ _ (run_load_var _ _ _ Ev)).
Qed.

(** X3. [regex_string_set] on a well-formed item always returns, leaves the
    item well formed, and touches nothing but the item and what its old
    value owns: every other object is as it was. *)
Theorem string_set_keeps_item v d value err st :
  is_var (heap st) v = true ->
  exists res st',
    regex_string_set REGCOMP regerror (Some config_set) (Some v) (Some d) value err st
    = Some (res, st') /\
    is_var (heap st') v = true /\
    forall i o, heap st !! i = Some o -> i <> v ->
      ~ owns (heap st) (stored (heap st) v) i -> heap st' !! i = Some o.
Proof.
  intros W. destruct (regex_string_set_run v d value err st W) as (res & st' & E & O).
  exists res, st'. split; [exact E|].
  apply (kept_item _ _ _ W). now apply string_set_outcome_heap in O.
Qed.

(** X4. [regex_native_set] on a well-formed item, with a value that is NULL
    or well formed, always returns, leaves the item well formed, and
    touches nothing but the item and what its old value owns: the
    caller's value, where it is not the item's own, is as it was. *)
Theorem native_set_keeps_item v d value err st :
  is_var (heap st) v = true ->
  is_value (heap st) value = true ->
  exists res st',
    regex_native_set REGCOMP regerror (Some config_set) (Some v) (Some d) value err st
    = Some (res, st') /\
    is_var (heap st') v = true /\
    forall i o, heap st !! i = Some o -> i <> v ->
      ~ owns (heap st) (stored (heap st) v) i -> heap st' !! i = Some o.
Proof.
  intros W V.
  destruct (regex_native_set_run v d value err st W V) as (res & st' & E & O).
  exists res, st'. split; [exact E|].
  apply (kept_item _ _ _ W). now apply native_set_outcome_heap in O.
Qed.

(** X5. [regex_reset] on a well-formed item, under a definition whose initial
    value is NULL or a string, always returns, leaves the item well
    formed, and touches nothing but the item and what its old value
    owns. *)
Theorem reset_keeps_item v d err st :
  is_var (heap st) v = true ->
  is_str (heap st) (initial d) = true ->
  exists res st',
    regex_reset REGCOMP regerror (Some config_set) (Some v) (Some d) err st
    = Some (res, st') /\
    is_var (heap st') v = true /\
    forall i o, heap st !! i = Some o -> i <> v ->
      ~ owns (heap st) (stored (heap st) v) i -> heap st' !! i = Some o.
Proof.
  intros W I. destruct (regex_reset_run v d err st W I) as (res & st' & E & O).
  exists res, st'. split; [exact E|].
  apply (kept_item _ _ _ W). now apply reset_outcome_heap in O.
Qed.

(** X6. Nothing leaks from [regex_string_set]: whatever the call did, a
    [regex_destroy] after it leaves the heap that a [regex_destroy] in
    its place would have left. All that the call allocated and did not
    free itself is owned by the value it stored. *)
Theorem string_set_then_destroy v d value err st :
  is_var (heap st) v = true ->
  exists res st1 st2 st0,
    regex_string_set REGCOMP regerror (Some config_set) (Some v) (Some d) value err st
    = Some (res, st1) /\
    regex_destroy (Some config_set) (Some v) (Some d) st1 = Some (tt, st2) /\
    regex_destroy (Some config_set) (Some v) (Some d) st = Some (tt, st0) /\
    heap st2 = heap st0.
Proof.
  intros W. destruct (regex_string_set_run v d value err st W) as (res & st1 & E & O).
  apply string_set_outcome_heap in O.
  destruct (kept_item _ _ _ W O) as [W1 _].
  exists res, st1. do 2 eexists. split; [exact E|].
  split; [now apply run_regex_destroy|]. split; [now apply run_regex_destroy|].
  rewrite !heap_set_heap. now apply destroyed_after.
Qed.

(** X7. Nothing leaks from [regex_native_set]: a [regex_destroy] after it
    leaves the heap that a [regex_destroy] in its place would have
    left. *)
Theorem native_set_then_destroy v d value err st :
  is_var (heap st) v = true ->
  is_value (heap st) value = true ->
  exists res st1 st2 st0,
    regex_native_set REGCOMP regerror (Some config_set) (Some v) (Some d) value err st
    = Some (res, st1) /\
    regex_destroy (Some config_set) (Some v) (Some d) st1 = Some (tt, st2) /\
    regex_destroy (Some config_set) (Some v) (Some d) st = Some (tt, st0) /\
    heap st2 = heap st0.
Proof.
  intros W V.
  destruct (regex_native_set_run v d value err st W V) as (res & st1 & E & O).
  apply native_set_outcome_heap in O.
  destruct (kept_item _ _ _ W O) as [W1 _].
  exists res, st1. do 2 eexists. split; [exact E|].
  split; [now apply run_regex_destroy|]. split; [now apply run_regex_destroy|].
  rewrite !heap_set_heap. now apply destroyed_after.
Qed.

(** X8. Nothing leaks from [regex_reset]: a [regex_destroy] after it leaves
    the heap that a [regex_destroy] in its place would have left. *)
Theorem reset_then_destroy v d err st :
  is_var (heap st) v = true ->
  is_str (heap st) (initial d) = true ->
  exists res st1 st2 st0,
    regex_reset REGCOMP regerror (Some config_set) (Some v) (Some d) err st
    = Some (res, st1) /\
    regex_destroy (Some config_set) (Some v) (Some d) st1 = Some (tt, st2) /\
    regex_destroy (Some config_set) (Some v) (Some d) st = Some (tt, st0) /\
    heap st2 = heap st0.
Proof.
  intros W I. destruct (regex_reset_run v d err st W I) as (res & st1 & E & O).
  apply reset_outcome_heap in O.
  destruct (kept_item _ _ _ W O) as [W1 _].
  exists res, st1. do 2 eexists. split; [exact E|].
  split; [now apply run_regex_destroy|]. split; [now apply run_regex_destroy|].
  rewrite !heap_set_heap. now apply destroyed_after.
Qed.

(** X14. [regex_native_get] after a [regex_string_set] that succeeded: it
    hands out the pointer that the item holds and changes nothing; the
    pointer is NULL or a well-formed [struct Regex], and the pattern
    behind it is the text that was set. *)
Theorem native_get_after_string_set INT_MIN v d x err st res st' :
  is_var (heap st) v = true ->
  regex_string_set REGCOMP regerror (Some config_set) (Some v) (Some d) x err st
  = Some (res, st') ->
  CSR_RESULT (fst (fst res)) = CSR_SUCCESS ->
  forall e, exists p,
    regex_native_get INT_MIN (Some config_set) (Some v) (Some d) e st'
    = Some (IP p, st') /\
    p = stored (heap st') v /\
    is_value (heap st') p = true /\
    NONULL (pattern_text (heap st') p) = NONULL x.
Proof.
  intros W E Ok e.
  destruct (string_set_stores_text _ _ _ _ _ _ _ W E Ok) as [W1 T].
  destruct (is_var_live _ _ W1) as [Ev _].
  exists (stored (heap st') v). unfold regex_native_get.
  rewrite (run_bind _ _ _ _ _ (run_load_var _ _ _ Ev)).
  split; [reflexivity|]. split; [reflexivity|].
  split; [now apply stored_is_value|exact T].
Qed.

(** X15. The item's own value, as [regex_native_get] hands it out, given back
    to [regex_native_set]: the copy is made before the old value is
    freed, so the call is safe. When it succeeds the item holds a value
    with the same pattern text, and the pointer that was handed out is
    dead: it was freed with the old value. *)
Theorem native_set_own_value INT_MIN v d o err st :
  is_var (heap st) v = true ->
  stored (heap st) v = Some o ->
  exists res st',
    regex_native_get INT_MIN (Some config_set) (Some v) (Some d) err st
    = Some (IP (Some o), st) /\
    regex_native_set REGCOMP regerror (Some config_set) (Some v) (Some d) (Some o) err st
    = Some (res, st') /\
    (CSR_RESULT (fst res) = CSR_SUCCESS ->
     heap st' !! o = None /\
     stored (heap st') v <> Some o /\
     is_var (heap st') v = true /\
     NONULL (pattern_text (heap st') (stored (heap st') v))
     = NONULL (pattern_text (heap st) (Some o))).
Proof.
  intros W S. destruct (is_var_live _ _ W) as [Ev R]. rewrite S in Ev.
  pose proof (R o S) as V.
  destruct (regex_native_set_run v d (Some o) err st W V) as (res & st' & E & O).
  exists res, st'. split.
  { unfold regex_native_get. now rewrite (run_bind _ _ _ _ _ (run_load_var _ _ _ Ev)). }
  split; [exact E|]. intros Ok.
  assert (Oo : owns (heap st) (stored (heap st) v) o).
  { rewrite S. destruct (is_regex_live _ _ V) as (r & Er & _).
    unfold owns, regex_at. rewrite Er. now left. }
  assert (B : forall r h', replaced (heap st) v r h' ->
    NONULL (pattern_text h' r) = NONULL (pattern_text (heap st) (Some o)) ->
    h' !! o = None /\ stored h' v <> Some o /\ is_var h' v = true /\
    NONULL (pattern_text h' (stored h' v)) = NONULL (pattern_text (heap st) (Some o))).
  { intros r h' Rp T. pose proof (replaced_frees _ _ _ _ _ W Rp Oo) as F.
    destruct (replaced_is_var _ _ _ _ W Rp) as [W1 S1].
    split; [exact F|]. split; [|split; [exact W1|now rewrite S1]].
    intros Q. destruct (is_var_live _ _ W1) as [_ R1].
    destruct (is_regex_live _ _ (R1 o Q)) as (x & Ex & _). congruence. }
  destruct O as [f Ef Rj|e c Hv Tn Pn|e c orig s Hv Ro T Cf|e c orig s a m p Hv Ro T Cf Hnew];
    cbn [fst heap] in *.
  - now rewrite CSR_RESULT_rejected in Ok.
  - apply (B NULL); [now exists (heap st)|]. now rewrite Tn.
  - now apply CSR_RESULT_invalid in Ok.
  - apply (B (Some a)).
    + eexists. split; [reflexivity|]. exists m, p, s. now do 2 eexists.
    + rewrite T. cbn [NONULL default].
      fold (installed v a m p s (negated (copy_flags orig) s)
              (compiled (copy_flags orig) s) (heap st)).
      now apply installed_pattern_text.
Qed.

(** X16. [regex_native_set] with NULL, or with a value that has no pattern,
    empties the item unless the validator vetoes: the validator, if
    there is one, is handed the value; the answer is
    [CSR_SUCCESS | CSR_SUC_EMPTY], the item is unset, and the heap is
    what a [regex_destroy] would have left. *)
Theorem native_set_empties v d value err st :
  is_var (heap st) v = true ->
  is_value (heap st) value = true ->
  (forall r, regex_at (heap st) value = Some r -> pattern r = NULL) ->
  (forall f, validator d = Some f ->
     CSR_RESULT (fst (f (heap st) value err)) = CSR_SUCCESS) ->
  exists e st' st0,
    regex_native_set REGCOMP regerror (Some config_set) (Some v) (Some d) value err st
    = Some ((Z.lor CSR_SUCCESS CSR_SUC_EMPTY, e), st') /\
    stored (heap st') v = NULL /\
    regex_destroy (Some config_set) (Some v) (Some d) st = Some (tt, st0) /\
    heap st' = heap st0 /\
    match validator d with
    | None => e = err /\ vcalls st' = vcalls st
    | Some f =>
        e = snd (f (heap st) value err) /\
        vcalls st' = vcalls st ++ [(value, fst (f (heap st) value err))]
    end.
Proof.
  intros W V Np Acc.
  destruct (regex_native_set_run v d value err st W V) as (res & st' & E & O).
  assert (Tn : forall orig s, regex_at (heap st) value = Some orig ->
                pattern_text (heap st) value = Some s -> False).
  { intros orig s Ro T. unfold pattern_text in T. rewrite Ro, (Np _ Ro) in T.
    discriminate. }
  destruct O as [f Ef Rj|e c Hv _ _|e c orig s Hv Ro T Cf|e c orig s a m p Hv Ro T Cf Hnew].
  - now destruct (Rj (Acc f Ef)).
  - exists e. do 2 eexists. split; [exact E|]. cbn [heap vcalls].
    split; [now apply emptied_var|].
    split; [now apply run_regex_destroy|]. split; [reflexivity|].
    unfold validated in Hv. destruct (validator d) as [f|]; tauto.
  - now destruct (Tn orig s).
  - now destruct (Tn orig s).
Qed.

(** X17. [regex_native_set] with a buffer for the diagnostic and a value whose
    pattern does not compile under the flags of the copy: the answer is
    [CSR_ERR_INVALID], the diagnostic of the engine is in the buffer, and
    the state is as it was: the item keeps its old value. *)
Theorem native_set_compile_failure v d o orig s b st :
  is_var (heap st) v = true ->
  is_regex (heap st) o = true ->
  regex_at (heap st) (Some o) = Some orig ->
  pattern_text (heap st) (Some o) = Some s ->
  pattern orig <> NULL ->
  validator d = None ->
  compile_rc (copy_flags orig) s <> 0 ->
  regex_native_set REGCOMP regerror (Some config_set) (Some v) (Some d) (Some o)
    (Some b) st
  = Some ((CSR_ERR_INVALID, Some (regerror (compile_rc (copy_flags orig) s))), st).
Proof.
  intros W V Ro T Np Ev Rc.
  destruct (regex_native_set_run v d (Some o) (Some b) st W V) as (res & st' & E & O).
  rewrite E.
  assert (F : create_fails (copy_flags orig) s (Some b) = true).
  { unfold create_fails. apply Z.eqb_neq in Rc. now rewrite Rc. }
  destruct O as [f Ef Rj|e c Hv Tn Pn|e c orig' s' Hv Ro' T' Cf
                |e c orig' s' a m p Hv Ro' T' Cf Hnew].
  - congruence.
  - now destruct (Np (Pn orig Ro)).
  - rewrite Ro in Ro'. injection Ro' as <-. rewrite T in T'. injection T' as <-.
    unfold validated in Hv. rewrite Ev in Hv. destruct Hv as [-> ->].
    do 2 f_equal. now destruct st.
  - rewrite Ro in Ro'. injection Ro' as <-. rewrite T in T'. injection T' as <-.
    unfold validated in Hv. rewrite Ev in Hv. destruct Hv as [-> ->]. congruence.
Qed.

(** X18. The copy that [regex_native_set] makes of a value that [regex_create]
    made (under whatever flags) is negated exactly when that value is,
    and is compiled from the same text, the one behind the [!]. *)
Theorem native_set_keeps_negation v d o orig s flags err st res st' :
  is_var (heap st) v = true ->
  is_regex (heap st) o = true ->
  regex_at (heap st) (Some o) = Some orig ->
  pattern_text (heap st) (Some o) = Some s ->
  pattern orig <> NULL ->
  pat_not orig = negated flags s ->
  regex_native_set REGCOMP regerror (Some config_set) (Some v) (Some d) (Some o) err st
  = Some (res, st') ->
  CSR_RESULT (fst res) = CSR_SUCCESS ->
  exists x,
    regex_at (heap st') (stored (heap st') v) = Some x /\
    pat_not x = pat_not orig /\
    matcher_at (heap st') (stored (heap st') v) = Some (compiled (copy_flags orig) s) /\
    compiled_text (copy_flags orig) s = compiled_text flags s.
Proof.
  intros W V Ro T Np Made E Ok.
  destruct (regex_native_set_run v d (Some o) err st W V) as (res1 & st1 & E1 & O).
  rewrite E in E1. injection E1 as <- <-.
  destruct (native_set_copied _ _ _ _ _ _ _ _ _ W Ro Np T O Ok)
    as (_ & a & m & p & Hnew & ->).
  assert (Ng : negated (copy_flags orig) s = pat_not orig).
  { unfold negated at 1, copy_flags. destruct (pat_not orig) eqn:En.
    - symmetry in Made. apply negated_iff in Made as [_ ->].
      rewrite Z.land_diag.
      destruct headers_facts as (_&_&_&_&_&_&_&_&_&_&_& An & _).
      apply Z.eqb_neq in An. now rewrite An.
    - reflexivity. }
  rewrite (installed_stored (heap st) v a m p s).
  eexists. split; [now apply installed_regex_at|]. split; [exact Ng|].
  split; [now apply installed_matcher_at|].
  unfold compiled_text. now rewrite Ng, Made.
Qed.

(** The item after [regex_reset] installed the candidate [r]. *)
Lemma created_var v text flags err h r h1 :
  is_var h v = true ->
  created text flags err h r h1 ->
  is_var (<[v := OVar r]> (released (stored h v) h1)) v = true /\
  stored (<[v := OVar r]> (released (stored h v) h1)) v = r /\
  NONULL (pattern_text (<[v := OVar r]> (released (stored h v) h1)) r) = NONULL text /\
  (r = NULL <-> text = None).
Proof.
  intros W P. unfold created in P. destruct text as [s|].
  - destruct P as (_ & a & m & p & Hnew & -> & ->).
    fold (installed v a m p s (negated flags s) (compiled flags s) h).
    split; [now apply installed_is_var|]. split; [now apply installed_stored|].
    split; [now apply installed_pattern_text|]. split; discriminate.
  - destruct P as [-> ->]. destruct (emptied_var _ _ W) as [Wn Sn].
    split; [done|]. split; [done|]. split; done.
Qed.

(** After a [regex_reset] that succeeded, the pattern of the stored value
    is the initial text of the definition. *)
Lemma reset_stores_text v d err st res st' :
  CSR_RESULT CSR_ERR_CODE <> CSR_SUCCESS ->
  is_var (heap st) v = true ->
  reset_outcome v d err st res st' ->
  CSR_RESULT (fst res) = CSR_SUCCESS ->
  is_var (heap st') v = true /\
  NONULL (pattern_text (heap st') (stored (heap st') v))
  = NONULL (text_at (heap st) (initial d)).
Proof.
  intros Code W O Ok.
  assert (B : forall r h1,
    created (text_at (heap st) (initial d)) (type d) err (heap st) r h1 ->
    is_var (<[v := OVar r]> (released (stored (heap st) v) h1)) v = true /\
    NONULL (pattern_text (<[v := OVar r]> (released (stored (heap st) v) h1))
              (stored (<[v := OVar r]> (released (stored (heap st) v) h1)) v))
    = NONULL (text_at (heap st) (initial d))).
  { intros r h1 P. destruct (created_var _ _ _ _ _ _ _ W P) as (W1 & S1 & T & _).
    split; [exact W1|]. now rewrite S1. }
  destruct O as [Sm|s Ns En Ef|f r h1 Ns P Ef Rj|f r h1 Ns P Ef Ac|r h1 Ns P Ef];
    cbn [fst heap] in *.
  - split; [exact W|]. now symmetry.
  - now destruct Code.
  - now rewrite CSR_RESULT_rejected in Ok.
  - now apply B.
  - now apply B.
Qed.

(** X19. [regex_reset] on an item whose pattern is the initial text already
    (an unset item and no initial text count as equal, as do NULL and the
    empty text) answers [CSR_SUCCESS | CSR_SUC_NO_CHANGE], with
    [CSR_SUC_EMPTY] as well when the item is unset, which is a success;
    the state stays as it was: nothing is compiled, the validator is not
    called. *)
Theorem reset_at_initial_no_change v d err st :
  is_var (heap st) v = true ->
  is_str (heap st) (initial d) = true ->
  at_initial (heap st) v d ->
  regex_reset REGCOMP regerror (Some config_set) (Some v) (Some d) err st
  = Some ((Z.lor (reset_rc (stored (heap st) v)) CSR_SUC_NO_CHANGE, err), st) /\
  reset_rc (stored (heap st) v)
  = (if bool_decide (stored (heap st) v = NULL)
     then Z.lor CSR_SUCCESS CSR_SUC_EMPTY else CSR_SUCCESS) /\
  CSR_RESULT (Z.lor (reset_rc (stored (heap st) v)) CSR_SUC_NO_CHANGE) = CSR_SUCCESS.
Proof.
  intros W I A. destruct (regex_reset_run v d err st W I) as (res & st' & E & O).
  rewrite E. split; [|split].
  - now destruct O.
  - now destruct (stored (heap st) v).
  - rewrite CSR_RESULT_flag by apply headers_facts.
    destruct (stored (heap st) v); cbn [reset_rc];
      [|rewrite CSR_RESULT_empty]; apply CSR_RESULT_success.
Qed.

(** X20. After a [regex_reset] that succeeded, [regex_string_get] adds the
    initial text of the definition to the buffer, and leaves the state as
    it is. *)
Theorem reset_get_round_trip v d err st res st' :
  CSR_RESULT CSR_ERR_CODE <> CSR_SUCCESS ->
  is_var (heap st) v = true ->
  is_str (heap st) (initial d) = true ->
  regex_reset REGCOMP regerror (Some config_set) (Some v) (Some d) err st
  = Some (res, st') ->
  CSR_RESULT (fst res) = CSR_SUCCESS ->
  forall buf, exists rc,
    regex_string_get (Some config_set) (Some v) (Some d) buf st'
    = Some ((rc, mutt_buffer_addstr buf (NONULL (text_at (heap st) (initial d)))), st') /\
    CSR_RESULT rc = CSR_SUCCESS.
Proof.
  intros Code W I E Ok buf.
  destruct (regex_reset_run v d err st W I) as (res1 & st1 & E1 & O).
  rewrite E in E1. injection E1 as <- <-.
  destruct (reset_stores_text _ _ _ _ _ _ Code W O Ok) as [W1 T].
  destruct (regex_string_get_run v d buf st' W1) as (rc & G & S).
  exists rc. rewrite T in G. split; [exact G|]. now apply get_result_success.
Qed.

(** X21. After a [regex_reset] that succeeded, on an item whose old value does
    not own the initial text, a second [regex_reset] finds nothing to do:
    it answers with [CSR_SUC_NO_CHANGE] and leaves the state as it is. *)
Theorem reset_twice_no_change v d err st res st' :
  CSR_RESULT CSR_ERR_CODE <> CSR_SUCCESS ->
  is_var (heap st) v = true ->
  is_str (heap st) (initial d) = true ->
  (forall q, initial d = Some q -> ~ owns (heap st) (stored (heap st) v) q) ->
  regex_reset REGCOMP regerror (Some config_set) (Some v) (Some d) err st
  = Some (res, st') ->
  CSR_RESULT (fst res) = CSR_SUCCESS ->
  forall err2,
    regex_reset REGCOMP regerror (Some config_set) (Some v) (Some d) err2 st'
    = Some ((Z.lor (reset_rc (stored (heap st') v)) CSR_SUC_NO_CHANGE, err2), st').
Proof.
  intros Code W I Sep E Ok err2.
  destruct (regex_reset_run v d err st W I) as (res1 & st1 & E1 & O).
  rewrite E in E1. injection E1 as <- <-.
  destruct (reset_stores_text _ _ _ _ _ _ Code W O Ok) as [W1 T].
  assert (It : is_str (heap st') (initial d) = true /\
               text_at (heap st') (initial d) = text_at (heap st) (initial d)).
  { destruct (initial d) as [q|] eqn:Ei; [|done].
    destruct (is_str_live _ _ I) as [t Et].
    assert (Nv : q <> v).
    { intros ->. destruct (is_var_live _ _ W) as [Ev _]. congruence. }
    destruct (kept_item _ _ _ W (reset_outcome_heap _ _ _ _ _ _ O)) as [_ K].
    pose proof (K q _ Et Nv (Sep q eq_refl)) as Eq. simpl. now rewrite Eq, Et. }
  destruct It as [I1 T1].
  destruct (regex_reset_run v d err2 st' W1 I1) as (res2 & st2 & E2 & O2).
  rewrite E2.
  assert (A : at_initial (heap st') v d).
  { unfold at_initial. now rewrite T1, T. }
  now destruct O2.
Qed.

(** X22. [regex_reset] with a buffer for the diagnostic, under a definition
    whose initial text does not compile: the answer is [CSR_ERR_CODE]
    (where [regex_string_set] answers [CSR_ERR_INVALID] to the same
    text), the diagnostic of the engine is in the buffer, and the state
    is as it was. *)
Theorem reset_compile_failure v d s b st :
  is_var (heap st) v = true ->
  text_at (heap st) (initial d) = Some s ->
  ~ at_initial (heap st) v d ->
  compile_rc (type d) s <> 0 ->
  regex_reset REGCOMP regerror (Some config_set) (Some v) (Some d) (Some b) st
  = Some ((CSR_ERR_CODE, Some (regerror (compile_rc (type d) s))), st).
Proof.
  intros W T Na Rc.
  assert (I : is_str (heap st) (initial d) = true).
  { destruct (initial d) as [q|]; [|done]. simpl in *.
    now destruct (heap st !! q) as [[]|]. }
  destruct (regex_reset_run v d (Some b) st W I) as (res & st' & E & O).
  rewrite E.
  assert (F : create_fails (type d) s (Some b) = true).
  { unfold create_fails. apply Z.eqb_neq in Rc. now rewrite Rc. }
  assert (Pn : forall r h1,
    ~ created (text_at (heap st) (initial d)) (type d) (Some b) (heap st) r h1).
  { intros r h1 P. unfold created in P. rewrite T in P. destruct P as [P _]. congruence. }
  destruct O as [Sm|s' Ns' Es Ec|g r h1 Ns' P Eg Rj|g r h1 Ns' P Eg Ac|r h1 Ns' P Eg].
  - now destruct Na.
  - rewrite T in Es. now injection Es as <-.
  - now destruct (Pn _ _ P).
  - now destruct (Pn _ _ P).
  - now destruct (Pn _ _ P).
Qed.

(** X23. [regex_reset] on an item that is not at its initial text, whose
    initial text compiles: the validator is handed the value [r] that
    [regex_create] made of the initial text (NULL without one), in the
    heap [h1] where it was built beside the old value, and its answer
    decides. When it vetoes, the answer is the validator's code with the
    flag [CSR_INV_VALIDATOR], which is not a success, and the state is
    the one before with the call in the log: the item keeps its value and
    the candidate is freed. When it accepts, the candidate takes the
    place of the old value. When the item is at its initial text already,
    the validator is not called at all. *)
Theorem reset_veto v d f err st :
  is_var (heap st) v = true ->
  is_str (heap st) (initial d) = true ->
  validator d = Some f ->
  (~ at_initial (heap st) v d ->
   (forall s, text_at (heap st) (initial d) = Some s ->
      create_fails (type d) s err = false) ->
   exists r h1,
     created (text_at (heap st) (initial d)) (type d) err (heap st) r h1 /\
     (CSR_RESULT (fst (f h1 r err)) <> CSR_SUCCESS ->
      regex_reset REGCOMP regerror (Some config_set) (Some v) (Some d) err st
      = Some ((Z.lor (fst (f h1 r err)) CSR_INV_VALIDATOR, snd (f h1 r err)),
              {| heap := heap st;
                 vcalls := vcalls st ++ [(r, fst (f h1 r err))] |}) /\
      CSR_RESULT (Z.lor (fst (f h1 r err)) CSR_INV_VALIDATOR) <> CSR_SUCCESS /\
      Z.land (Z.lor (fst (f h1 r err)) CSR_INV_VALIDATOR) CSR_INV_VALIDATOR
      = CSR_INV_VALIDATOR) /\
     (CSR_RESULT (fst (f h1 r err)) = CSR_SUCCESS ->
      regex_reset REGCOMP regerror (Some config_set) (Some v) (Some d) err st
      = Some ((with_empty r (fst (f h1 r err)), snd (f h1 r err)),
              {| heap := <[v := OVar r]> (released (stored (heap st) v) h1);
                 vcalls := vcalls st ++ [(r, fst (f h1 r err))] |}))) /\
  (at_initial (heap st) v d ->
   exists res,
     regex_reset REGCOMP regerror (Some config_set) (Some v) (Some d) err st
     = Some (res, st)) /\
  exists res st',
    regex_reset REGCOMP regerror (Some config_set) (Some v) (Some d) err st
    = Some (res, st') /\
    (forall candidate rc,
       vcalls st' = vcalls st ++ [(candidate, rc)] ->
       CSR_RESULT rc <> CSR_SUCCESS ->
       fst res = Z.lor rc CSR_INV_VALIDATOR /\
       CSR_RESULT (fst res) <> CSR_SUCCESS /\
       Z.land (fst res) CSR_INV_VALIDATOR = CSR_INV_VALIDATOR /\
       heap st' = heap st) /\
    ((forall h p e, CSR_RESULT (fst (f h p e)) <> CSR_SUCCESS) ->
     heap st' = heap st) /\
    (at_initial (heap st) v d -> vcalls st' = vcalls st).
Proof.
  intros W I Ef. destruct (regex_reset_run v d err st W I) as (res & st' & E & O).
  split; [|split].
  - intros Na Cf.
    destruct O as [Sm|s Ns Es Ec|g r h1 Ns P Eg Rj|g r h1 Ns P Eg Ac|r h1 Ns P Eg].
    + now destruct Na.
    + rewrite (Cf s Es) in Ec. discriminate.
    + rewrite Ef in Eg. injection Eg as <-. exists r, h1. split; [exact P|]. split.
      * intros _. split; [exact E|]. rewrite CSR_RESULT_rejected.
        split; [exact Rj|apply rejected_flag_set].
      * intros Ac. now destruct Rj.
    + rewrite Ef in Eg. injection Eg as <-. exists r, h1. split; [exact P|]. split.
      * intros Rj. now destruct Rj.
      * intros _. exact E.
    + congruence.
  - intros A. exists res. rewrite E. now destruct O.
  - exists res, st'. split; [exact E|].
    destruct O as [Sm|s Ns Es Ec|g r h1 Ns P Eg Rj|g r h1 Ns P Eg Ac|r h1 Ns P Eg];
      cbn [fst heap vcalls].
    + split; [|done]. intros c rc L. now apply log_grew in L.
    + split; [|done]. intros c rc L. now apply log_grew in L.
    + split; [|done]. intros c rc L Rc.
      apply app_inj_tail in L as [_ [= <- <-]].
      rewrite CSR_RESULT_rejected.
      repeat split; try done. apply rejected_flag_set.
    + split; [|split; [|done]].
      * intros c rc L Rc. apply app_inj_tail in L as [_ [= <- <-]]. now destruct Rc.
      * intros All. rewrite Ef in Eg. injection Eg as <-. now destruct (All h1 r err).
    + congruence.
Qed.

(** X24. An unset item under a definition without a validator whose initial
    text is not empty and compiles: [regex_reset] installs a value for
    the initial text, and answers [CSR_SUCCESS | CSR_SUC_EMPTY], the flag
    of an empty value, which it had set on finding the item unset. A
    [regex_string_set] of the same text on the same item answers a plain
    [CSR_SUCCESS]. *)
Theorem reset_unset_reports_empty v d s err st :
  is_var (heap st) v = true ->
  stored (heap st) v = NULL ->
  text_at (heap st) (initial d) = Some s ->
  s <> ""%string ->
  validator d = None ->
  create_fails (type d) s err = false ->
  exists a st' st'',
    regex_reset REGCOMP regerror (Some config_set) (Some v) (Some d) err st
    = Some ((Z.lor CSR_SUCCESS CSR_SUC_EMPTY, err), st') /\
    stored (heap st') v = Some a /\
    NONULL (pattern_text (heap st') (Some a)) = s /\
    Z.lor CSR_SUCCESS CSR_SUC_EMPTY <> CSR_SUCCESS /\
    regex_string_set REGCOMP regerror (Some config_set) (Some v) (Some d) (Some s) err st
    = Some ((CSR_SUCCESS, Some d, err), st'').
Proof.
  intros W U T Ns Ev Cf.
  assert (I : is_str (heap st) (initial d) = true).
  { destruct (initial d) as [q|]; [|done]. simpl in *.
    now destruct (heap st !! q) as [[]|]. }
  assert (Na : ~ at_initial (heap st) v d).
  { unfold at_initial. rewrite T, U. simpl. exact Ns. }
  assert (Nt : ~ same_text (heap st) v (Some s)).
  { intros (c & Sc & _). congruence. }
  assert (En : nonempty (Some s) = Some s) by now destruct s.
  assert (Rc : reset_rc (stored (heap st) v) = Z.lor CSR_SUCCESS CSR_SUC_EMPTY)
    by now rewrite U.
  destruct (regex_reset_run v d err st W I) as (res & st' & E & O).
  destruct (regex_string_set_run v d (Some s) err st W) as (res2 & st2 & E2 & O2).
  assert (Ne : Z.lor CSR_SUCCESS CSR_SUC_EMPTY <> CSR_SUCCESS).
  { destruct headers_facts as (S & _ & _ & M & _ & _ & Nz & _).
    intros Q. apply Nz. rewrite <- (flag_set CSR_SUCCESS CSR_SUC_EMPTY), Q.
    rewrite <- S, <- Z.land_assoc, (Z.land_comm CSR_RESULT_MASK), M.
    apply Z.land_0_r. }
  destruct O as [Sm|s' Ns' Es Ec|g r h1 Ns' P Eg Rj|g r h1 Ns' P Eg Ac|r h1 Ns' P Eg];
    try congruence.
  destruct O2 as [Sm2|s2 Ns2 Es2 Ec2|g2 r2 h2 Ns2 P2 Eg2 Rj2|g2 r2 h2 Ns2 P2 Eg2 Ac2
                 |r2 h2 Ns2 P2 Eg2]; try congruence.
  unfold created in P. rewrite T in P. unfold parsed in P2. rewrite En in P2.
  destruct P as (_ & a & m & p & Hnew & -> & ->).
  destruct P2 as (_ & a2 & m2 & p2 & Hnew2 & -> & ->).
  cbn [with_empty] in E, E2. rewrite Rc in E.
  exists a. do 2 eexists. split; [exact E|]. cbn [heap].
  fold (installed v a m p s (negated (type d) s) (compiled (type d) s) (heap st)).
  split; [now apply installed_stored|].
  split; [now apply installed_pattern_text|].
  split; [exact Ne|exact E2].
Qed.

(** ** The initial value of a definition *)

(** An item stays well formed when nothing that it is made of changes. *)
Lemma is_var_agree h h' v :
  is_var h v = true ->
  h' !! v = h !! v ->
  (forall i, owns h (stored h v) i -> h' !! i = h !! i) ->
  is_var h' v = true /\ stored h' v = stored h v.
Proof.
  intros W Ev A. destruct (is_var_live _ _ W) as [E R].
  unfold is_var, stored at 1. rewrite Ev, E. split; [|reflexivity].
  destruct (stored h v) as [c|] eqn:Ec; [|reflexivity].
  destruct (is_regex_live _ _ (R c eq_refl)) as (r & Er & P & M).
  assert (O : forall i, Some c = Some i \/ pattern r = Some i \/ regex r = Some i ->
                h' !! i = h !! i).
  { intros i Q. apply A. unfold owns, regex_at. now rewrite Er. }
  unfold is_regex. rewrite (O c) by now left. rewrite Er.
  apply andb_true_intro. split.
  - destruct (pattern r) as [q|] eqn:Eq; [|done]. simpl in *.
    now rewrite (O q) by (right; now left).
  - destruct (regex r) as [m|] eqn:Em; [|done]. simpl in *.
    now rewrite (O m) by (right; now right).
Qed.

(** [regex_string_set] without storage: the text becomes the initial
    value of the definition, in a new allocation; an initial value that
    an earlier call had allocated is freed. *)
Lemma run_string_set_initial d x err st :
  (Z.land (type d) DT_INITIAL_SET <> 0 ->
   forall a, initial d = Some a -> is_Some (heap st !! a)) ->
  exists i,
    regex_string_set REGCOMP regerror (Some config_set) NULL (Some d) x err st
    = Some ((CSR_SUCCESS,
             Some {| type := Z.lor (type d) DT_INITIAL_SET; initial := i;
                     validator := validator d |}, err),
            set_heap (link i (NONULL x)
                        (if Z.land (type d) DT_INITIAL_SET =? 0 then heap st
                         else unlink (initial d) (heap st))) st) /\
    i = match nonempty x with
        | Some _ =>
            Some (fresh (dom (if Z.land (type d) DT_INITIAL_SET =? 0 then heap st
                              else unlink (initial d) (heap st))))
        | None => NULL
        end.
Proof.
  intros L. unfold regex_string_set. fold (nonempty x).
  set (h0 := if Z.land (type d) DT_INITIAL_SET =? 0 then heap st
             else unlink (initial d) (heap st)).
  assert (F : (if negb (Z.land (type d) DT_INITIAL_SET =? 0)
               then FREE (initial d) else mret tt) st = Some (tt, set_heap h0 st)).
  { unfold h0. destruct (Z.land (type d) DT_INITIAL_SET =? 0) eqn:E; simpl.
    - now rewrite set_heap_id.
    - apply Z.eqb_neq in E. apply run_FREE_unlink. now apply L. }
  rewrite (run_bind _ _ _ _ _ F).
  destruct (nonempty x) as [s|] eqn:En.
  - assert (Ns : s <> ""%string) by (intros ->; now destruct x as [[|]|]).
    assert (Ex : NONULL x = s) by now rewrite <- NONULL_nonempty, En.
    eexists. split; [|reflexivity].
    assert (D : mutt_str_strdup (Some s) (set_heap h0 st)
                = Some (Some (fresh (dom h0)),
                        set_heap (<[fresh (dom h0) := OStr s]> h0) st)).
    { destruct s; [done|reflexivity]. }
    rewrite (run_bind _ _ _ _ _ D). now rewrite Ex.
  - exists NULL. split; [|reflexivity].
    now rewrite (run_bind _ _ _ NULL (set_heap h0 st)) by reflexivity.
Qed.

(** X13. Setting the initial value twice leaves what setting it once, to the
    second text, leaves: the definition and the heap are the same, so the
    text of the first call is freed by the second. *)
Theorem string_set_initial_twice d x y err st :
  DT_INITIAL_SET <> 0 ->
  (Z.land (type d) DT_INITIAL_SET <> 0 ->
   forall a, initial d = Some a -> is_Some (heap st !! a)) ->
  exists d1 st1 d2 st2,
    regex_string_set REGCOMP regerror (Some config_set) NULL (Some d) x err st
    = Some ((CSR_SUCCESS, Some d1, err), st1) /\
    regex_string_set REGCOMP regerror (Some config_set) NULL (Some d1) y err st1
    = Some ((CSR_SUCCESS, Some d2, err), st2) /\
    regex_string_set REGCOMP regerror (Some config_set) NULL (Some d) y err st
    = Some ((CSR_SUCCESS, Some d2, err), st2).
Proof.
  intros Nz L.
  set (h0 := if Z.land (type d) DT_INITIAL_SET =? 0 then heap st
             else unlink (initial d) (heap st)).
  destruct (run_string_set_initial d x err st L) as (i1 & E1 & I1).
  destruct (run_string_set_initial d y err st L) as (i2 & E2 & I2).
  fold h0 in E1, I1, E2, I2.
  set (d1 := {| type := Z.lor (type d) DT_INITIAL_SET; initial := i1;
                validator := validator d |}) in *.
  set (st1 := set_heap (link i1 (NONULL x) h0) st) in *.
  assert (Fl : (Z.land (type d1) DT_INITIAL_SET =? 0) = false).
  { apply Z.eqb_neq. cbn [type d1]. now rewrite flag_set. }
  assert (U : unlink i1 (heap st1) = h0).
  { unfold st1. rewrite heap_set_heap. rewrite I1.
    destruct (nonempty x); [|reflexivity]. simpl.
    apply delete_insert_id. apply fresh_None. }
  destruct (run_string_set_initial d1 y err st1) as (i3 & E3 & I3).
  { intros _ a Ea. cbn [initial d1] in Ea. subst i1.
    destruct (nonempty x); [|discriminate]. injection Ea as <-.
    unfold st1. rewrite heap_set_heap. simpl. rewrite lookup_insert_eq. eauto. }
  rewrite Fl in E3, I3. cbn [initial d1] in E3, I3. rewrite U in E3, I3.
  exists d1, st1. do 2 eexists. split; [exact E1|]. split; [exact E3|].
  rewrite E2. cbn [type validator d1].
  rewrite <- Z.lor_assoc, Z.lor_diag. unfold st1. rewrite set_heap_set_heap.
  now rewrite I2, I3.
Qed.

(** X26. The initial value is set by [regex_string_set] without storage, then
    an item of the definition is reset: when the reset succeeds,
    [regex_string_get] on the item adds the text that was set. An initial
    value that the first call frees must not be a part of the item. *)
Theorem string_set_initial_then_reset v d x err st :
  CSR_RESULT CSR_ERR_CODE <> CSR_SUCCESS ->
  is_var (heap st) v = true ->
  (Z.land (type d) DT_INITIAL_SET <> 0 ->
   forall a, initial d = Some a ->
     is_Some (heap st !! a) /\ a <> v /\ ~ owns (heap st) (stored (heap st) v) a) ->
  exists d' st1 res st2,
    regex_string_set REGCOMP regerror (Some config_set) NULL (Some d) x err st
    = Some ((CSR_SUCCESS, Some d', err), st1) /\
    regex_reset REGCOMP regerror (Some config_set) (Some v) (Some d') err st1
    = Some (res, st2) /\
    (CSR_RESULT (fst res) = CSR_SUCCESS ->
     forall buf, exists rc,
       regex_string_get (Some config_set) (Some v) (Some d') buf st2
       = Some ((rc, mutt_buffer_addstr buf (NONULL x)), st2) /\
       CSR_RESULT rc = CSR_SUCCESS).
Proof.
  intros Code W L.
  set (h0 := if Z.land (type d) DT_INITIAL_SET =? 0 then heap st
             else unlink (initial d) (heap st)).
  destruct (run_string_set_initial d x err st) as (i & E1 & I1).
  { intros Fl a Ea. now apply (L Fl a Ea). }
  fold h0 in E1, I1.
  set (d' := {| type := Z.lor (type d) DT_INITIAL_SET; initial := i;
                validator := validator d |}) in *.
  set (st1 := set_heap (link i (NONULL x) h0) st) in *.
  (* the item is untouched *)
  assert (W0 : is_var h0 v = true).
  { unfold h0. destruct (Z.land (type d) DT_INITIAL_SET =? 0) eqn:Fl; [exact W|].
    apply Z.eqb_neq in Fl. destruct (initial d) as [a|] eqn:Ea; [|exact W].
    destruct (L Fl a eq_refl) as (_ & Nv & No). simpl.
    apply (is_var_agree (heap st)); [exact W|now apply lookup_delete_ne|].
    intros j Oj. apply lookup_delete_ne. now intros <-. }
  assert (K : keeps h0 (heap st1)).
  { unfold st1. rewrite heap_set_heap, I1. destruct (nonempty x); [|now intros ? ?].
    simpl. intros j o Ej. rewrite lookup_insert_ne; [done|].
    intros <-. rewrite fresh_None in Ej. discriminate. }
  destruct (keeps_is_var _ _ _ K W0) as [W1 _].
  assert (T1 : is_str (heap st1) i = true /\ NONULL (text_at (heap st1) i) = NONULL x).
  { unfold st1. rewrite heap_set_heap, I1.
    destruct (nonempty x) as [s|] eqn:En; simpl.
    - rewrite lookup_insert_eq. now split.
    - split; [done|]. now rewrite <- NONULL_nonempty, En. }
  destruct T1 as [Is T1].
  destruct (regex_reset_run v d' err st1 W1 Is) as (res & st2 & E2 & O).
  exists d', st1, res, st2. split; [exact E1|]. split; [exact E2|].
  intros Ok buf.
  destruct (reset_stores_text _ _ _ _ _ _ Code W1 O Ok) as [W2 T].
  destruct (regex_string_get_run v d' buf st2 W2) as (rc & G & S).
  exists rc. rewrite T in G. cbn [initial d'] in G. rewrite T1 in G.
  split; [exact G|]. now apply get_result_success.
Qed.

(** X25. [regex_reset] is [regex_string_set] with the initial text of the
    definition, up to the result code: for an initial text that is not
    empty the two leave the same state and the same buffer. The codes
    differ when the text does not compile ([CSR_ERR_CODE] for
    [CSR_ERR_INVALID]) and when an unset item is reset without a
    validator ([CSR_SUCCESS | CSR_SUC_EMPTY] for [CSR_SUCCESS]). *)
Theorem reset_as_string_set v d s err st :
  is_var (heap st) v = true ->
  text_at (heap st) (initial d) = Some s ->
  s <> ""%string ->
  exists rc rc' e st',
    regex_reset REGCOMP regerror (Some config_set) (Some v) (Some d) err st
    = Some ((rc, e), st') /\
    regex_string_set REGCOMP regerror (Some config_set) (Some v) (Some d) (Some s) err st
    = Some ((rc', Some d, e), st') /\
    (rc = rc' \/
     (rc = CSR_ERR_CODE /\ rc' = CSR_ERR_INVALID) \/
     (rc = Z.lor CSR_SUCCESS CSR_SUC_EMPTY /\ rc' = CSR_SUCCESS /\
      stored (heap st) v = NULL /\ validator d = None)).
Proof.
  intros W T Ns.
  destruct (initial d) as [q|] eqn:Ei; [|discriminate].
  assert (I : is_str (heap st) (Some q) = true).
  { simpl in *. now destruct (heap st !! q) as [[]|]. }
  destruct (is_var_live _ _ W) as [Ev R].
  assert (En : nonempty (Some s) = Some s) by now destruct s.
  unfold regex_reset, regex_string_set. rewrite Ei. fold (nonempty (Some s)).
  rewrite En.
  rewrite !(run_bind _ _ _ _ _ (run_load_var _ _ _ Ev)).
  (* the pattern of the old value, read by the two *)
  assert (L : exists cp,
    (match stored (heap st) v with
     | Some c => load_regex c ≫= λ cur, mret (pattern cur)
     | None => mret None
     end) st = Some (cp, st) /\
    (match stored (heap st) v with
     | Some c =>
         load_regex c ≫= λ cur, load_str (pattern cur) ≫= λ pat,
           mret (mutt_str_strcmp (Some s) pat =? 0)
     | None => mret false
     end) st = Some (mutt_str_strcmp (Some s) (text_at (heap st) cp) =? 0, st) /\
    is_str (heap st) cp = true /\
    (stored (heap st) v = NULL ->
     (mutt_str_strcmp (Some s) (text_at (heap st) cp) =? 0) = false)).
  { destruct (stored (heap st) v) as [c|] eqn:Ec.
    - destruct (is_regex_live _ _ (R c eq_refl)) as (r & Er & Hp & Hm).
      exists (pattern r).
      split; [now rewrite (run_bind _ _ _ _ _ (run_load_regex _ _ _ Er))|].
      split; [|split; [exact Hp|discriminate]].
      rewrite (run_bind _ _ _ _ _ (run_load_regex _ _ _ Er)).
      now rewrite (run_bind _ _ _ _ _ (run_load_str _ _ Hp)).
    - assert (F : (mutt_str_strcmp (Some s) None =? 0) = false).
      { apply not_true_iff_false. rewrite strcmp_zero. exact Ns. }
      exists NULL. simpl text_at. rewrite F. now repeat split. }
  destruct L as (cp & L1 & L2 & Hc & Un).
  rewrite (run_bind _ _ _ _ _ L1), (run_bind _ _ _ _ _ L2). clear L1 L2.
  rewrite (run_bind _ _ _ _ _ (run_load_str _ _ I)).
  rewrite (run_bind _ _ _ _ _ (run_load_str _ _ Hc)).
  rewrite T.
  destruct (mutt_str_strcmp (Some s) (text_at (heap st) cp) =? 0) eqn:Eq.
  { do 4 eexists. split; [reflexivity|]. split; [reflexivity|]. left.
    destruct (stored (heap st) v); [reflexivity|]. now discriminate Un. }
  clear Un Eq Hc cp.
  pose proof (run_regex_create s (type d) err st) as Cr.
  destruct (create_fails (type d) s err) eqn:Ef.
  { rewrite !(run_bind _ _ _ _ _ Cr). cbn [fst snd].
    do 4 eexists. split; [reflexivity|]. split; [reflexivity|]. right. now left. }
  destruct Cr as (a & m & p & Hnew & Cr).
  rewrite !(run_bind _ _ _ _ _ Cr). cbn [fst snd]. cbv iota.
  set (h1 := with_regex a m p s (negated (type d) s) (compiled (type d) s) (heap st)).
  destruct (keeps_is_var _ _ v (keeps_with_regex _ _ _ _ _
    (negated (type d) s) (compiled (type d) s) Hnew) W) as [W1 S1].
  fold h1 in W1, S1.
  destruct (validator d) as [f|] eqn:Ev'.
  - rewrite !(run_bind _ _ _ (f h1 (Some a) err)
      {| heap := h1; vcalls := vcalls st ++ [(Some a, fst (f h1 (Some a) err))] |})
      by reflexivity.
    cbv beta.
    destruct (CSR_RESULT (f h1 (Some a) err).1 =? CSR_SUCCESS) eqn:Ok; unfold negb.
    + rewrite !run_replace by exact W1.
      do 4 eexists. split; [reflexivity|]. split; [reflexivity|]. now left.
    + assert (F : regex_free_obj (Some a)
                    {| heap := h1; vcalls := vcalls st ++ [(Some a, (f h1 (Some a) err).1)] |}
                  = Some (tt, {| heap := heap st;
                                 vcalls := vcalls st ++ [(Some a, (f h1 (Some a) err).1)] |})).
      { pose proof (with_regex_is_regex _ _ _ _ _ (negated (type d) s)
                      (compiled (type d) s) Hnew) as Ra.
        destruct (is_regex_live _ _ Ra) as (x & Ex & Hp & Hm).
        rewrite (run_regex_free_obj a x); try done. simpl heap.
        unfold h1. now rewrite released_with_regex. }
      rewrite !(run_bind _ _ _ _ _ F).
      do 4 eexists. split; [reflexivity|]. split; [reflexivity|]. now left.
  - rewrite !run_replace by exact W1.
    do 4 eexists. split; [reflexivity|]. split; [reflexivity|].
    destruct (stored (heap st) v) eqn:Es; [now left|]. right. right. now repeat split.
Qed.


(** X11. [regex_string_get] never changes the state. On an item that is unset,
    or whose value has no pattern (a value for the empty text), it
    answers [CSR_SUCCESS | CSR_SUC_EMPTY] and leaves the buffer alone;
    else it answers [CSR_SUCCESS] and adds the pattern to the buffer. *)
Theorem string_get_reads_pattern v d buf st :
  is_var (heap st) v = true ->
  exists rc out,
    regex_string_get (Some config_set) (Some v) (Some d) buf st = Some ((rc, out), st) /\
    match regex_at (heap st) (stored (heap st) v) with
    | Some {| pattern := Some q |} =>
        rc = CSR_SUCCESS /\
        exists t, heap st !! q = Some (OStr t) /\ out = mutt_buffer_addstr buf t
    | _ => rc = Z.lor CSR_SUCCESS CSR_SUC_EMPTY /\ out = buf
    end.
Proof.
  intros W. destruct (is_var_live _ _ W) as [Ev R]. unfold regex_string_get.
  destruct (stored (heap st) v) as [c|] eqn:Ec.
  - destruct (is_regex_live _ _ (R c eq_refl)) as (r & Er & Hp & Hm).
    rewrite (run_bind _ _ st (pattern r) st); cycle 1.
    { rewrite (run_bind _ _ _ _ _ (run_load_var _ _ _ Ev)).
      now rewrite (run_bind _ _ _ _ _ (run_load_regex _ _ _ Er)). }
    unfold regex_at. rewrite Er. destruct r as [[q|] m n]; cbn [pattern] in *.
    + rewrite (run_bind _ _ _ _ _ (run_load_str _ _ Hp)).
      destruct (is_str_live _ _ Hp) as [t Et].
      do 2 eexists. split; [reflexivity|]. split; [reflexivity|].
      exists t. split; [exact Et|]. simpl. now rewrite Et.
    + do 2 eexists. split; [reflexivity|]. now split.
  - rewrite (run_bind _ _ st None st); cycle 1.
    { now rewrite (run_bind _ _ _ _ _ (run_load_var _ _ _ Ev)). }
    do 2 eexists. split; [reflexivity|]. now split.
Qed.

End RegexFacts.


















(** ** The Quad codec *)

Section QuadFacts.

Context `{Headers}.

Lemma asks_toggle q : Quad.asks (Quad.quad_toggle q) = Quad.asks q.
Proof. now destruct q. Qed.

Lemma asks_toggles k q : Quad.asks (Nat.iter k Quad.quad_toggle q) = Quad.asks q.
Proof.
  induction k as [|k IH]; [reflexivity|]. simpl. now rewrite asks_toggle.
Qed.

Lemma quad_in_range n :
  0 <= n <= 3 -> exists q, Quad.quad_of_value n = Some q /\ Quad.quad_value q = n.
Proof.
  intros R. assert (n = 0 \/ n = 1 \/ n = 2 \/ n = 3) as [-> | [-> | [-> | ->]]] by lia;
    eexists; split; reflexivity.
Qed.

(** C7. A quad value in the range 0 to 3 is one of the four states, and
    the toggle takes No to Yes, Yes to No, AskNo to AskYes and AskYes to
    AskNo, the rows of the table of [test_toggle]: [quad_he_toggle]
    succeeds and stores the toggled state. Two toggles, and so four, give
    the state back, and no number of toggles leads from the pair of plain
    answers to the pair of asking ones or back. *)
Theorem quad_toggle_pairs n :
  0 <= n <= 3 ->
  (Quad.quad_toggle Quad.MUTT_NO = Quad.MUTT_YES /\
   Quad.quad_toggle Quad.MUTT_YES = Quad.MUTT_NO /\
   Quad.quad_toggle Quad.MUTT_ASKNO = Quad.MUTT_ASKYES /\
   Quad.quad_toggle Quad.MUTT_ASKYES = Quad.MUTT_ASKNO) /\
  exists q,
    Quad.quad_of_value n = Some q /\
    Quad.quad_value q = n /\
    Quad.quad_he_toggle (Some config_set)
      (Some {| Quad.he_quad := true; Quad.he_var := n |})
    = (CSR_SUCCESS, Some (Quad.quad_value (Quad.quad_toggle q))) /\
    In (q, Quad.quad_toggle q) Quad.tests /\
    Quad.quad_toggle (Quad.quad_toggle q) = q /\
    Nat.iter 4 Quad.quad_toggle q = q /\
    (forall k, Quad.asks (Nat.iter k Quad.quad_toggle q) = Quad.asks q).
Proof.
  intros R. split; [now repeat split|].
  destruct (quad_in_range n R) as (q & E & V). exists q.
  split; [exact E|]. split; [exact V|].
  split; [unfold Quad.quad_he_toggle; cbn [Quad.he_quad Quad.he_var]; now rewrite E|].
  split; [destruct q; simpl; tauto|].
  split; [now destruct q|]. split; [now destruct q|].
  intros k. apply asks_toggles.
Qed.

End QuadFacts.

(** ** Examples *)

(** C4, at an item that holds [!^TODO] and is given the text [[], which
    does not compile. With a buffer for the diagnostic the call answers
    [CSR_ERR_INVALID] (3), leaves the diagnostic in the buffer and the
    item as it was. With NULL for the buffer the call answers
    [CSR_SUCCESS] (0): the old value is freed and the item holds a value
    for [[] whose matcher is unusable. *)
Lemma string_set_bad_pattern_without_buffer :
  regex_string_set (H := neomutt_headers) example_REGCOMP example_regerror
    (Some config_set) (Some 1%positive) (Some def_negatable) (Some "["%string)
    (Some ""%string) todo_item
  = Some ((3, Some def_negatable, Some "Unmatched [, [^, [:, [., or [="%string),
          todo_item) /\
  exists st',
    regex_string_set (H := neomutt_headers) example_REGCOMP example_regerror
      (Some config_set) (Some 1%positive) (Some def_negatable) (Some "["%string)
      None todo_item
    = Some ((0, Some def_negatable, None), st') /\
    @CSR_RESULT neomutt_headers 0 = @CSR_SUCCESS neomutt_headers /\
    heap st' !! 2%positive = None /\
    pattern_text (heap st') (stored (heap st') 1%positive) = Some "["%string /\
    matcher_at (heap st') (stored (heap st') 1%positive) = Some (re_bad 7).
Proof.
  split; [vm_compute; reflexivity|].
  eexists. split; [vm_compute; reflexivity|]. vm_compute. now repeat split.
Qed.

(** C1, at the item that holds [!^TODO], with the validator that vetoes
    everything: a new pattern by text and the caller's value are both
    refused with 3 | 32, the validator was handed the candidate, and the
    heap stays. *)
Lemma validator_veto_witness :
  is_var (heap todo_item) 1%positive = true /\
  validator def_vetoed = Some validator_fail /\
  ~ same_text (heap todo_item) 1%positive (Some "^[a-z]+"%string) /\
  (exists r,
     regex_string_set (H := neomutt_headers) example_REGCOMP example_regerror
       (Some config_set) (Some 1%positive) (Some def_vetoed)
       (Some "^[a-z]+"%string) (Some ""%string) todo_item
     = Some ((35, Some def_vetoed, Some "validator_fail"%string),
             {| heap := heap todo_item; vcalls := [(r, 3)] |})) /\
  exists st',
    regex_native_set (H := neomutt_headers) example_REGCOMP example_regerror
      (Some config_set) (Some 1%positive) (Some def_vetoed) (Some 10%positive)
      (Some ""%string) todo_item
    = Some ((35, Some "validator_fail"%string), st') /\
    heap st' = heap todo_item.
Proof.
  assert (N : ~ same_text (heap todo_item) 1%positive (Some "^[a-z]+"%string)).
  { intros (c & S & T). vm_compute in S. injection S as <-. vm_compute in T.
    discriminate. }
  split; [reflexivity|]. split; [reflexivity|]. split; [exact N|].
  destruct (@validator_veto neomutt_headers example_REGCOMP example_regerror eq_refl
              1%positive def_vetoed validator_fail (Some "^[a-z]+"%string)
              (Some 10%positive) (Some ""%string) todo_item eq_refl eq_refl)
    as (_ & S & Nat).
  split.
  - destruct (S N ltac:(intros s Q; injection Q as <-; reflexivity))
      as (r & h1 & _ & V & _).
    exists r. exact (proj1 (V ltac:(discriminate))).
  - eexists. split; [apply Nat; discriminate|]. reflexivity.
Defined.

(** C2, at the unset item: the text [!^TODO] is stored and read back. *)
Lemma string_set_get_round_trip_witness :
  is_var (heap unset_item) 1%positive = true /\
  exists res st',
    regex_string_set (H := neomutt_headers) example_REGCOMP example_regerror
      (Some config_set) (Some 1%positive) (Some def_negatable)
      (Some "!^TODO"%string) (Some ""%string) unset_item
    = Some (res, st') /\
    @CSR_RESULT neomutt_headers (fst (fst res)) = 0 /\
    exists rc,
      regex_string_get (H := neomutt_headers) (Some config_set) (Some 1%positive)
        (Some def_negatable) ""%string st'
      = Some ((rc, "!^TODO"%string), st').
Proof.
  split; [reflexivity|].
  destruct (regex_string_set (H := neomutt_headers) example_REGCOMP example_regerror
              (Some config_set) (Some 1%positive) (Some def_negatable)
              (Some "!^TODO"%string) (Some ""%string) unset_item)
    as [[res st']|] eqn:E; [|vm_compute in E; discriminate].
  pose proof E as E'. vm_compute in E'. injection E' as <- <-.
  do 2 eexists. split; [reflexivity|]. split; [reflexivity|].
  destruct (@string_set_get_round_trip neomutt_headers example_REGCOMP example_regerror
              eq_refl 1%positive def_negatable (Some "!^TODO"%string) (Some ""%string)
              unset_item _ _ eq_refl E eq_refl) as [_ (rc & G & _)].
  exists rc. exact G.
Defined.

(** C3, at the text [!^TODO] under a definition that allows the negation. *)
Lemma regex_create_parses_witness :
  @headers_ok neomutt_headers = true /\
  exists (neg : bool) (text : string) (cflags : Z),
    "!^TODO"%string = (if neg then String "!" text else text) /\
    (Z.land cflags 2 <> 0 <-> Z.land 128 64 = 0 /\ mutt_mb_is_lower text = true).
Proof.
  split; [reflexivity|].
  destruct (@regex_create_parses neomutt_headers example_REGCOMP example_regerror
              eq_refl "!^TODO"%string 128 (Some ""%string) unset_item)
    as (neg & text & cflags & _ & E & I & _).
  exists neg, text, cflags. split; [exact E|exact I].
Defined.

(** C5, at the item that holds [!^TODO], given [!^TODO]. *)
Lemma string_set_same_text_no_change_witness :
  is_var (heap todo_item) 1%positive = true /\
  stored (heap todo_item) 1%positive <> NULL /\
  regex_string_set (H := neomutt_headers) example_REGCOMP example_regerror
    (Some config_set) (Some 1%positive) (Some def_checked)
    (Some "!^TODO"%string) (Some ""%string) todo_item
  = Some ((128, Some def_checked, Some ""%string), todo_item).
Proof.
  split; [reflexivity|]. split; [discriminate|].
  apply (proj1 (@string_set_same_text_no_change neomutt_headers example_REGCOMP
                  example_regerror eq_refl 1%positive def_checked
                  (Some "!^TODO"%string) (Some ""%string) todo_item eq_refl)).
  - discriminate.
  - reflexivity.
Defined.

(** C6, at the item that holds [!^TODO], given the caller's [hello.*]. *)
Lemma native_set_deep_copy_witness :
  is_var (heap todo_item) 1%positive = true /\
  is_regex (heap todo_item) 10%positive = true /\
  pattern_text (heap todo_item) (Some 10%positive) = Some "hello.*"%string /\
  exists res st' a,
    regex_native_set (H := neomutt_headers) example_REGCOMP example_regerror
      (Some config_set) (Some 1%positive) (Some def_negatable) (Some 10%positive)
      (Some ""%string) todo_item
    = Some (res, st') /\
    stored (heap st') 1%positive = Some a /\
    a <> 10%positive /\
    NONULL (pattern_text (heap st') (Some a)) = "hello.*"%string /\
    heap st' !! 10%positive = heap todo_item !! 10%positive.
Proof.
  split; [reflexivity|]. split; [reflexivity|]. split; [reflexivity|].
  destruct (@native_set_deep_copy neomutt_headers example_REGCOMP example_regerror
              eq_refl 1%positive def_negatable 10%positive
              {| pattern := Some 12%positive; regex := Some 11%positive;
                 pat_not := false |}
              "hello.*"%string (Some ""%string) todo_item
              eq_refl eq_refl eq_refl ltac:(discriminate) eq_refl)
    as (res & st' & E & K).
  pose proof E as E'. vm_compute in E'. injection E' as <- <-.
  destruct (K eq_refl) as (a & m & p & S & Na & _ & _ & _ & _ & _ & T & _ & Keep & _).
  do 2 eexists. exists a. split; [exact E|]. split; [exact S|].
  split; [exact Na|]. split; [exact T|].
  apply Keep.
  - vm_compute. now left.
  - vm_compute. intros [Q|[Q|Q]]; discriminate.
Defined.

(** C7, at the stored value 2 (AskNo). *)
Lemma quad_toggle_pairs_witness :
  0 <= 2 <= 3 /\
  Quad.quad_he_toggle (H := neomutt_headers) (Some config_set)
    (Some {| Quad.he_quad := true; Quad.he_var := 2 |})
  = (0, Some 3).
Proof.
  split; [lia|].
  destruct (@quad_toggle_pairs neomutt_headers 2 ltac:(lia))
    as (_ & q & E & _ & T & _).
  injection E as <-. exact T.
Defined.

(** C8, at the unset item and at a quad item that holds No. *)
Lemma empty_text_quad_fails_regex_succeeds_witness :
  is_var (heap unset_item) 1%positive = true /\
  stored (heap unset_item) 1%positive = NULL /\
  Quad.quad_string_set (H := neomutt_headers) None 0 (Some "nope"%string) = (3, 0) /\
  Quad.quad_string_set (H := neomutt_headers) None 0 (Some ""%string) = (3, 0) /\
  exists e st',
    regex_string_set (H := neomutt_headers) example_REGCOMP example_regerror
      (Some config_set) (Some 1%positive) (Some def_negatable) (Some ""%string)
      (Some ""%string) unset_item
    = Some ((32, Some def_negatable, e), st') /\
    stored (heap st') 1%positive = NULL.
Proof.
  split; [reflexivity|]. split; [reflexivity|].
  destruct (@empty_text_quad_fails_regex_succeeds neomutt_headers example_REGCOMP
              example_regerror eq_refl None 0 1%positive def_negatable
              (Some ""%string) unset_item eq_refl (or_introl eq_refl)
              ltac:(discriminate))
    as (_ & _ & rc & e & st' & E & _ & _ & S & R).
  split; [reflexivity|]. split; [reflexivity|].
  exists e, st'. rewrite (R eq_refl) in E. split; [exact E|exact S].
Defined.

(** C9, at the unset item under the definition that forces the case and
    asks for no submatches: the copy of the caller's [hello.*] is compiled
    with [REG_ICASE] (2) alone, the text [hello.*] with [REG_NOSUB] (8)
    alone. *)
Lemma native_set_ignores_definition_flags_witness :
  is_var (heap unset_item) 1%positive = true /\
  is_regex (heap unset_item) 10%positive = true /\
  (exists res st',
     regex_native_set (H := neomutt_headers) example_REGCOMP example_regerror
       (Some config_set) (Some 1%positive) (Some def_strict) (Some 10%positive)
       (Some ""%string) unset_item
     = Some (res, st') /\
     matcher_at (heap st') (stored (heap st') 1%positive)
     = Some (re_prog "hello.*" 2)) /\
  (exists res st',
     regex_string_set (H := neomutt_headers) example_REGCOMP example_regerror
       (Some config_set) (Some 1%positive) (Some def_strict)
       (Some "hello.*"%string) (Some ""%string) unset_item
     = Some (res, st') /\
     matcher_at (heap st') (stored (heap st') 1%positive)
     = Some (re_prog "hello.*" 8)).
Proof.
  split; [reflexivity|]. split; [reflexivity|].
  destruct (regex_native_set (H := neomutt_headers) example_REGCOMP example_regerror
              (Some config_set) (Some 1%positive) (Some def_strict) (Some 10%positive)
              (Some ""%string) unset_item)
    as [[res st']|] eqn:E; [|vm_compute in E; discriminate].
  pose proof E as E'. vm_compute in E'. injection E' as <- <-.
  destruct (@native_set_ignores_definition_flags neomutt_headers example_REGCOMP
              example_regerror eq_refl 1%positive def_strict 10%positive
              {| pattern := Some 12%positive; regex := Some 11%positive;
                 pat_not := false |}
              "hello.*"%string (Some ""%string) unset_item _ _
              eq_refl eq_refl eq_refl ltac:(discriminate) eq_refl E eq_refl)
    as (_ & M & _ & _ & _ & S).
  split.
  - do 2 eexists. split; [reflexivity|]. exact M.
  - destruct (regex_string_set (H := neomutt_headers) example_REGCOMP example_regerror
                (Some config_set) (Some 1%positive) (Some def_strict)
                (Some "hello.*"%string) (Some ""%string) unset_item)
      as [[res0 st1]|] eqn:E0; [|vm_compute in E0; discriminate].
    pose proof E0 as E0'. vm_compute in E0'. injection E0' as <- <-.
    do 2 eexists. split; [reflexivity|].
    exact (proj1 (S (Some ""%string) unset_item _ _ eq_refl eq_refl
                    ltac:(discriminate) E0 eq_refl)).
Defined.

(** C10, at the unset item under the definition whose validator lets
    everything pass, given the empty text. *)
Lemma string_set_unset_empty_witness :
  is_var (heap unset_item) 1%positive = true /\
  stored (heap unset_item) 1%positive = NULL /\
  exists e st',
    regex_string_set (H := neomutt_headers) example_REGCOMP example_regerror
      (Some config_set) (Some 1%positive) (Some def_checked) (Some ""%string)
      (Some ""%string) unset_item
    = Some ((32, Some def_checked, e), st') /\
    vcalls st' = [(NULL, 0)] /\
    stored (heap st') 1%positive = NULL.
Proof.
  split; [reflexivity|]. split; [reflexivity|].
  destruct (@string_set_unset_empty neomutt_headers example_REGCOMP example_regerror
              eq_refl 1%positive def_checked (Some ""%string) (Some ""%string)
              unset_item eq_refl eq_refl (or_intror eq_refl))
    as (rc & e & st' & E & S & _ & (L & _ & Ok & _) & _).
  exists e, st'. rewrite (Ok eq_refl) in E. split; [exact E|]. split; [exact L|exact S].
Defined.

(** C8, refuted as it is worded. [regex_string_set] with the empty text
    does not always store unset and answer [CSR_SUCCESS | CSR_SUC_EMPTY].
    An item that holds a value for the empty pattern answers
    [CSR_SUCCESS | CSR_SUC_NO_CHANGE] (128), which does not carry
    [CSR_SUC_EMPTY] (32), and keeps its value: the text is the pattern.
    [regex_reset] leaves such a value under a definition whose initial
    text is the empty string. *)
Lemma empty_text_regex_counterexample :
  is_var (heap blank_item) 1%positive = true /\
  regex_string_set (H := neomutt_headers) example_REGCOMP example_regerror
    (Some config_set) (Some 1%positive) (Some def_negatable) (Some ""%string)
    (Some ""%string) blank_item
  = Some ((128, Some def_negatable, Some ""%string), blank_item) /\
  Z.land 128 (@CSR_SUC_EMPTY neomutt_headers) = 0 /\
  stored (heap blank_item) 1%positive = Some 2%positive /\
  exists st1,
    regex_reset (H := neomutt_headers) example_REGCOMP example_regerror
      (Some config_set) (Some 1%positive) (Some def_blank) (Some ""%string)
      (with_defaults todo_item)
    = Some ((0, Some ""%string), st1) /\
    stored (heap st1) 1%positive <> NULL /\
    regex_string_set (H := neomutt_headers) example_REGCOMP example_regerror
      (Some config_set) (Some 1%positive) (Some def_blank) (Some ""%string)
      (Some ""%string) st1
    = Some ((128, Some def_blank, Some ""%string), st1).
Proof.
  split; [reflexivity|]. split; [vm_compute; reflexivity|].
  split; [reflexivity|]. split; [reflexivity|].
  eexists. split; [vm_compute; reflexivity|].
  split; [discriminate|]. vm_compute. reflexivity.
Qed.

(** C10, refuted as it is worded. An unset item under a validator that
    vetoes, given the empty text or no text: the validator is handed
    NULL, and the answer is its code with [CSR_INV_VALIDATOR] (3 | 32 =
    35), which is not a success, so not [CSR_SUCCESS | CSR_SUC_EMPTY]
    (32). The storage stays unset. *)
Lemma string_set_unset_empty_counterexample :
  is_var (heap unset_item) 1%positive = true /\
  stored (heap unset_item) 1%positive = NULL /\
  regex_string_set (H := neomutt_headers) example_REGCOMP example_regerror
    (Some config_set) (Some 1%positive) (Some def_vetoed) (Some ""%string)
    (Some ""%string) unset_item
  = Some ((35, Some def_vetoed, Some "validator_fail"%string),
          {| heap := heap unset_item; vcalls := [(NULL, 3)] |}) /\
  regex_string_set (H := neomutt_headers) example_REGCOMP example_regerror
    (Some config_set) (Some 1%positive) (Some def_vetoed) None
    (Some ""%string) unset_item
  = Some ((35, Some def_vetoed, Some "validator_fail"%string),
          {| heap := heap unset_item; vcalls := [(NULL, 3)] |}) /\
  @CSR_RESULT neomutt_headers 35 <> @CSR_SUCCESS neomutt_headers /\
  35 <> Z.lor (@CSR_SUCCESS neomutt_headers) (@CSR_SUC_EMPTY neomutt_headers).
Proof.
  split; [reflexivity|]. split; [reflexivity|].
  split; [vm_compute; reflexivity|]. split; [vm_compute; reflexivity|].
  split; discriminate.
Qed.

(** ** More examples *)

(** [regex_create] on [!^TODO], then [regex_free] on the value: the
    state is the unset item again. *)
Lemma regex_create_free_round_trip_witness :
  create_fails (H := neomutt_headers) example_REGCOMP 128 "!^TODO" (Some ""%string) = false /\
  exists a st1,
    regex_create (H := neomutt_headers) example_REGCOMP example_regerror
      (Some "!^TODO"%string) 128 (Some ""%string) unset_item
    = Some ((Some a, Some ""%string), st1) /\
    regex_free_obj (Some a) st1 = Some (tt, unset_item).
Proof.
  split; [reflexivity|].
  destruct (@regex_create_free_round_trip neomutt_headers example_REGCOMP example_regerror
              "!^TODO"%string 128 (Some ""%string) unset_item eq_refl)
    as (a & st1 & E & _ & _ & F).
  exists a, st1. split; [exact E|exact F].
Defined.

(** [regex_destroy] at the item that holds [!^TODO]: the value at the
    address 2 is gone, the caller's value at 10 stays. *)
Lemma regex_destroy_releases_witness :
  is_var (heap todo_item) 1%positive = true /\
  exists st',
    regex_destroy (Some config_set) (Some 1%positive) (Some def_negatable) todo_item
    = Some (tt, st') /\
    stored (heap st') 1%positive = NULL /\
    heap st' !! 2%positive = None /\
    heap st' !! 10%positive = heap todo_item !! 10%positive.
Proof.
  split; [reflexivity|].
  destruct (@regex_destroy_releases neomutt_headers 1%positive def_negatable todo_item
              eq_refl) as (st' & E & _ & S & _ & Fr & K & _).
  exists st'. split; [exact E|]. split; [exact S|]. split.
  - apply Fr. vm_compute. now left.
  - apply K; [reflexivity|discriminate|].
    vm_compute. intros [Q|[Q|Q]]; discriminate.
Defined.

(** [regex_string_set] at the item that holds [!^TODO], given
    [^[a-z]+]: the caller's value at 10 stays. *)
Lemma string_set_keeps_item_witness :
  is_var (heap todo_item) 1%positive = true /\
  exists res st',
    regex_string_set (H := neomutt_headers) example_REGCOMP example_regerror
      (Some config_set) (Some 1%positive) (Some def_negatable)
      (Some "^[a-z]+"%string) (Some ""%string) todo_item
    = Some (res, st') /\
    is_var (heap st') 1%positive = true /\
    heap st' !! 10%positive = heap todo_item !! 10%positive.
Proof.
  split; [reflexivity|].
  destruct (@string_set_keeps_item neomutt_headers example_REGCOMP example_regerror
              1%positive def_negatable (Some "^[a-z]+"%string) (Some ""%string)
              todo_item eq_refl) as (res & st' & E & W & K).
  exists res, st'. split; [exact E|]. split; [exact W|].
  apply K; [reflexivity|discriminate|].
  vm_compute. intros [Q|[Q|Q]]; discriminate.
Defined.

(** [regex_native_set] at the item that holds [!^TODO], given the
    caller's [hello.*]: the caller's value stays. *)
Lemma native_set_keeps_item_witness :
  is_var (heap todo_item) 1%positive = true /\
  is_value (heap todo_item) (Some 10%positive) = true /\
  exists res st',
    regex_native_set (H := neomutt_headers) example_REGCOMP example_regerror
      (Some config_set) (Some 1%positive) (Some def_negatable) (Some 10%positive)
      (Some ""%string) todo_item
    = Some (res, st') /\
    is_var (heap st') 1%positive = true /\
    heap st' !! 10%positive = heap todo_item !! 10%positive.
Proof.
  split; [reflexivity|]. split; [reflexivity|].
  destruct (@native_set_keeps_item neomutt_headers example_REGCOMP example_regerror
              eq_refl 1%positive def_negatable (Some 10%positive) (Some ""%string)
              todo_item eq_refl eq_refl) as (res & st' & E & W & K).
  exists res, st'. split; [exact E|]. split; [exact W|].
  apply K; [reflexivity|discriminate|].
  vm_compute. intros [Q|[Q|Q]]; discriminate.
Defined.

(** [regex_reset] at the item that holds [!^TODO], to the initial text
    [^inbox]: the initial text stays where it is. *)
Lemma reset_keeps_item_witness :
  is_var (heap (with_defaults todo_item)) 1%positive = true /\
  is_str (heap (with_defaults todo_item)) (initial def_inbox) = true /\
  exists res st',
    regex_reset (H := neomutt_headers) example_REGCOMP example_regerror
      (Some config_set) (Some 1%positive) (Some def_inbox) (Some ""%string)
      (with_defaults todo_item)
    = Some (res, st') /\
    is_var (heap st') 1%positive = true /\
    heap st' !! 20%positive = Some (OStr "^inbox").
Proof.
  split; [reflexivity|]. split; [reflexivity|].
  destruct (@reset_keeps_item neomutt_headers example_REGCOMP example_regerror
              1%positive def_inbox (Some ""%string) (with_defaults todo_item)
              eq_refl eq_refl) as (res & st' & E & W & K).
  exists res, st'. split; [exact E|]. split; [exact W|].
  apply K; [reflexivity|discriminate|].
  vm_compute. intros [Q|[Q|Q]]; discriminate.
Defined.

(** [regex_string_set] and then [regex_destroy] at the item that holds
    [!^TODO]: what is left is the heap of the unset item. *)
Lemma string_set_then_destroy_witness :
  is_var (heap todo_item) 1%positive = true /\
  exists res st1 st2,
    regex_string_set (H := neomutt_headers) example_REGCOMP example_regerror
      (Some config_set) (Some 1%positive) (Some def_negatable)
      (Some "^[a-z]+"%string) (Some ""%string) todo_item
    = Some (res, st1) /\
    regex_destroy (Some config_set) (Some 1%positive) (Some def_negatable) st1
    = Some (tt, st2) /\
    heap st2 = heap unset_item.
Proof.
  split; [reflexivity|].
  destruct (@string_set_then_destroy neomutt_headers example_REGCOMP example_regerror
              1%positive def_negatable (Some "^[a-z]+"%string) (Some ""%string)
              todo_item eq_refl) as (res & st1 & st2 & st0 & E & D1 & D0 & Q).
  exists res, st1, st2. split; [exact E|]. split; [exact D1|].
  rewrite Q. vm_compute in D0. injection D0 as <-. vm_compute. reflexivity.
Defined.

(** [regex_native_set] and then [regex_destroy] at the item that holds
    [!^TODO]: what is left is the heap of the unset item. *)
Lemma native_set_then_destroy_witness :
  is_var (heap todo_item) 1%positive = true /\
  is_value (heap todo_item) (Some 10%positive) = true /\
  exists res st1 st2,
    regex_native_set (H := neomutt_headers) example_REGCOMP example_regerror
      (Some config_set) (Some 1%positive) (Some def_negatable) (Some 10%positive)
      (Some ""%string) todo_item
    = Some (res, st1) /\
    regex_destroy (Some config_set) (Some 1%positive) (Some def_negatable) st1
    = Some (tt, st2) /\
    heap st2 = heap unset_item.
Proof.
  split; [reflexivity|]. split; [reflexivity|].
  destruct (@native_set_then_destroy neomutt_headers example_REGCOMP example_regerror
              eq_refl 1%positive def_negatable (Some 10%positive) (Some ""%string)
              todo_item eq_refl eq_refl) as (res & st1 & st2 & st0 & E & D1 & D0 & Q).
  exists res, st1, st2. split; [exact E|]. split; [exact D1|].
  rewrite Q. vm_compute in D0. injection D0 as <-. vm_compute. reflexivity.
Defined.

(** [regex_reset] and then [regex_destroy] at the item that holds
    [!^TODO]: what is left is the heap of the unset item. *)
Lemma reset_then_destroy_witness :
  is_var (heap (with_defaults todo_item)) 1%positive = true /\
  is_str (heap (with_defaults todo_item)) (initial def_inbox) = true /\
  exists res st1 st2,
    regex_reset (H := neomutt_headers) example_REGCOMP example_regerror
      (Some config_set) (Some 1%positive) (Some def_inbox) (Some ""%string)
      (with_defaults todo_item)
    = Some (res, st1) /\
    regex_destroy (Some config_set) (Some 1%positive) (Some def_inbox) st1
    = Some (tt, st2) /\
    heap st2 = heap (with_defaults unset_item).
Proof.
  split; [reflexivity|]. split; [reflexivity|].
  destruct (@reset_then_destroy neomutt_headers example_REGCOMP example_regerror
              1%positive def_inbox (Some ""%string) (with_defaults todo_item)
              eq_refl eq_refl) as (res & st1 & st2 & st0 & E & D1 & D0 & Q).
  exists res, st1, st2. split; [exact E|]. split; [exact D1|].
  rewrite Q. vm_compute in D0. injection D0 as <-. vm_compute. reflexivity.
Defined.

(** The unset item is given [!^TODO]; [regex_native_get] hands out a
    value with that pattern. *)
Lemma native_get_after_string_set_witness :
  is_var (heap unset_item) 1%positive = true /\
  exists res st' p,
    regex_string_set (H := neomutt_headers) example_REGCOMP example_regerror
      (Some config_set) (Some 1%positive) (Some def_negatable)
      (Some "!^TODO"%string) (Some ""%string) unset_item
    = Some (res, st') /\
    @CSR_RESULT neomutt_headers (fst (fst res)) = 0 /\
    regex_native_get (-2147483648) (Some config_set) (Some 1%positive)
      (Some def_negatable) (Some ""%string) st'
    = Some (IP p, st') /\
    NONULL (pattern_text (heap st') p) = "!^TODO"%string.
Proof.
  split; [reflexivity|].
  destruct (regex_string_set (H := neomutt_headers) example_REGCOMP example_regerror
              (Some config_set) (Some 1%positive) (Some def_negatable)
              (Some "!^TODO"%string) (Some ""%string) unset_item)
    as [[res st']|] eqn:E; [|vm_compute in E; discriminate].
  pose proof E as E'. vm_compute in E'. injection E' as <- <-.
  destruct (@native_get_after_string_set neomutt_headers example_REGCOMP example_regerror
              eq_refl (-2147483648) 1%positive def_negatable (Some "!^TODO"%string)
              (Some ""%string) unset_item _ _ eq_refl E eq_refl (Some ""%string))
    as (p & G & _ & _ & T).
  do 2 eexists. exists p. split; [reflexivity|]. split; [reflexivity|].
  split; [exact G|exact T].
Defined.

(** The item that holds [!^TODO] is given its own value, at the
    address 2: the address is dead afterwards and the pattern is
    [!^TODO] still. *)
Lemma native_set_own_value_witness :
  is_var (heap todo_item) 1%positive = true /\
  stored (heap todo_item) 1%positive = Some 2%positive /\
  exists res st',
    regex_native_get (-2147483648) (Some config_set) (Some 1%positive)
      (Some def_negatable) (Some ""%string) todo_item
    = Some (IP (Some 2%positive), todo_item) /\
    regex_native_set (H := neomutt_headers) example_REGCOMP example_regerror
      (Some config_set) (Some 1%positive) (Some def_negatable) (Some 2%positive)
      (Some ""%string) todo_item
    = Some (res, st') /\
    heap st' !! 2%positive = None /\
    NONULL (pattern_text (heap st') (stored (heap st') 1%positive)) = "!^TODO"%string.
Proof.
  split; [reflexivity|]. split; [reflexivity|].
  destruct (@native_set_own_value neomutt_headers example_REGCOMP example_regerror
              eq_refl (-2147483648) 1%positive def_negatable 2%positive (Some ""%string)
              todo_item eq_refl eq_refl) as (res & st' & G & E & K).
  pose proof E as E'. vm_compute in E'. injection E' as <- <-.
  destruct (K eq_refl) as (F & _ & _ & T).
  do 2 eexists. split; [exact G|]. split; [exact E|]. split; [exact F|exact T].
Defined.

(** The item that holds [!^TODO] is given NULL, under the validator
    that lets everything pass: 0 | 32, and the validator was handed
    NULL. *)
Lemma native_set_empties_witness :
  is_var (heap todo_item) 1%positive = true /\
  is_value (heap todo_item) NULL = true /\
  exists e st',
    regex_native_set (H := neomutt_headers) example_REGCOMP example_regerror
      (Some config_set) (Some 1%positive) (Some def_checked) NULL
      (Some ""%string) todo_item
    = Some ((32, e), st') /\
    stored (heap st') 1%positive = NULL /\
    vcalls st' = [(NULL, 0)].
Proof.
  split; [reflexivity|]. split; [reflexivity|].
  destruct (@native_set_empties neomutt_headers example_REGCOMP example_regerror
              eq_refl 1%positive def_checked NULL (Some ""%string) todo_item
              eq_refl eq_refl ltac:(discriminate) ltac:(intros f [= <-]; reflexivity))
    as (e & st' & st0 & E & S & _ & _ & _ & L).
  exists e, st'. split; [exact E|]. split; [exact S|exact L].
Defined.

(** The item that holds [!^TODO] is given the caller's value for [[]:
    3, the diagnostic, and the state stays. *)
Lemma native_set_compile_failure_witness :
  is_var (heap (with_defaults todo_item)) 1%positive = true /\
  is_regex (heap (with_defaults todo_item)) 30%positive = true /\
  pattern_text (heap (with_defaults todo_item)) (Some 30%positive) = Some "["%string /\
  validator def_negatable = None /\
  regex_native_set (H := neomutt_headers) example_REGCOMP example_regerror
    (Some config_set) (Some 1%positive) (Some def_negatable) (Some 30%positive)
    (Some ""%string) (with_defaults todo_item)
  = Some ((3, Some "Unmatched [, [^, [:, [., or [="%string), with_defaults todo_item).
Proof.
  split; [reflexivity|]. split; [reflexivity|]. split; [reflexivity|].
  split; [reflexivity|].
  exact (@native_set_compile_failure neomutt_headers example_REGCOMP example_regerror
           eq_refl 1%positive def_negatable 30%positive
           {| pattern := Some 32%positive; regex := Some 31%positive; pat_not := false |}
           "["%string ""%string (with_defaults todo_item)
           eq_refl eq_refl eq_refl eq_refl ltac:(discriminate) eq_refl
           ltac:(discriminate)).
Defined.

(** The item that holds [!^TODO] is given that value, under a
    definition that does not allow the negation: the copy is negated
    and compiled from [^TODO]. *)
Lemma native_set_keeps_negation_witness :
  is_var (heap todo_item) 1%positive = true /\
  is_regex (heap todo_item) 2%positive = true /\
  exists res st' x,
    regex_native_set (H := neomutt_headers) example_REGCOMP example_regerror
      (Some config_set) (Some 1%positive) (Some def_strict) (Some 2%positive)
      (Some ""%string) todo_item
    = Some (res, st') /\
    regex_at (heap st') (stored (heap st') 1%positive) = Some x /\
    pat_not x = true /\
    matcher_at (heap st') (stored (heap st') 1%positive) = Some (re_prog "^TODO" 0).
Proof.
  split; [reflexivity|]. split; [reflexivity|].
  destruct (regex_native_set (H := neomutt_headers) example_REGCOMP example_regerror
              (Some config_set) (Some 1%positive) (Some def_strict) (Some 2%positive)
              (Some ""%string) todo_item)
    as [[res st']|] eqn:E; [|vm_compute in E; discriminate].
  pose proof E as E'. vm_compute in E'. injection E' as <- <-.
  destruct (@native_set_keeps_negation neomutt_headers example_REGCOMP example_regerror
              eq_refl 1%positive def_strict 2%positive
              {| pattern := Some 4%positive; regex := Some 3%positive; pat_not := true |}
              "!^TODO"%string 128 (Some ""%string) todo_item _ _
              eq_refl eq_refl eq_refl eq_refl ltac:(discriminate) eq_refl E eq_refl)
    as (x & R & N & M & _).
  do 2 eexists. exists x. split; [reflexivity|]. split; [exact R|].
  split; [exact N|exact M].
Defined.

(** The unset item under a definition without initial text: 0 | 32 |
    128, and the validator that is there is not called. *)
Lemma reset_at_initial_no_change_witness :
  is_var (heap unset_item) 1%positive = true /\
  is_str (heap unset_item) (initial def_checked) = true /\
  at_initial (heap unset_item) 1%positive def_checked /\
  regex_reset (H := neomutt_headers) example_REGCOMP example_regerror
    (Some config_set) (Some 1%positive) (Some def_checked) (Some ""%string) unset_item
  = Some ((160, Some ""%string), unset_item).
Proof.
  split; [reflexivity|]. split; [reflexivity|]. split; [reflexivity|].
  exact (proj1 (@reset_at_initial_no_change neomutt_headers example_REGCOMP
                  example_regerror eq_refl 1%positive def_checked (Some ""%string)
                  unset_item eq_refl eq_refl eq_refl)).
Defined.

(** The item that holds [!^TODO] is reset to [^inbox], which
    [regex_string_get] then reads. *)
Lemma reset_get_round_trip_witness :
  @CSR_RESULT neomutt_headers (@CSR_ERR_CODE neomutt_headers) <> 0 /\
  is_var (heap (with_defaults todo_item)) 1%positive = true /\
  is_str (heap (with_defaults todo_item)) (initial def_inbox) = true /\
  exists res st' rc,
    regex_reset (H := neomutt_headers) example_REGCOMP example_regerror
      (Some config_set) (Some 1%positive) (Some def_inbox) (Some ""%string)
      (with_defaults todo_item)
    = Some (res, st') /\
    @CSR_RESULT neomutt_headers (fst res) = 0 /\
    regex_string_get (H := neomutt_headers) (Some config_set) (Some 1%positive)
      (Some def_inbox) ""%string st'
    = Some ((rc, "^inbox"%string), st').
Proof.
  split; [discriminate|]. split; [reflexivity|]. split; [reflexivity|].
  destruct (regex_reset (H := neomutt_headers) example_REGCOMP example_regerror
              (Some config_set) (Some 1%positive) (Some def_inbox) (Some ""%string)
              (with_defaults todo_item))
    as [[res st']|] eqn:E; [|vm_compute in E; discriminate].
  pose proof E as E'. vm_compute in E'. injection E' as <- <-.
  destruct (@reset_get_round_trip neomutt_headers example_REGCOMP example_regerror
              eq_refl 1%positive def_inbox (Some ""%string) (with_defaults todo_item)
              _ _ ltac:(discriminate) eq_refl eq_refl E eq_refl ""%string)
    as (rc & G & _).
  do 2 eexists. exists rc. split; [reflexivity|]. split; [reflexivity|]. exact G.
Defined.

(** The item that holds [!^TODO] is reset to [^inbox] twice: the
    second call answers 0 | 128. *)
Lemma reset_twice_no_change_witness :
  @CSR_RESULT neomutt_headers (@CSR_ERR_CODE neomutt_headers) <> 0 /\
  is_var (heap (with_defaults todo_item)) 1%positive = true /\
  is_str (heap (with_defaults todo_item)) (initial def_inbox) = true /\
  exists res st',
    regex_reset (H := neomutt_headers) example_REGCOMP example_regerror
      (Some config_set) (Some 1%positive) (Some def_inbox) (Some ""%string)
      (with_defaults todo_item)
    = Some (res, st') /\
    @CSR_RESULT neomutt_headers (fst res) = 0 /\
    regex_reset (H := neomutt_headers) example_REGCOMP example_regerror
      (Some config_set) (Some 1%positive) (Some def_inbox) None st'
    = Some ((128, None), st').
Proof.
  split; [discriminate|]. split; [reflexivity|]. split; [reflexivity|].
  destruct (regex_reset (H := neomutt_headers) example_REGCOMP example_regerror
              (Some config_set) (Some 1%positive) (Some def_inbox) (Some ""%string)
              (with_defaults todo_item))
    as [[res st']|] eqn:E; [|vm_compute in E; discriminate].
  pose proof E as E'. vm_compute in E'. injection E' as <- <-.
  do 2 eexists. split; [reflexivity|]. split; [reflexivity|].
  apply (@reset_twice_no_change neomutt_headers example_REGCOMP example_regerror
           eq_refl 1%positive def_inbox (Some ""%string) (with_defaults todo_item)
           _ _ ltac:(discriminate) eq_refl eq_refl
           ltac:(intros q [= <-]; vm_compute; intros [Q|[Q|Q]]; discriminate)
           E eq_refl None).
Defined.

(** The item that holds [!^TODO] is reset to [[]: 1, the diagnostic,
    and the state stays. *)
Lemma reset_compile_failure_witness :
  is_var (heap (with_defaults todo_item)) 1%positive = true /\
  text_at (heap (with_defaults todo_item)) (initial def_bracket) = Some "["%string /\
  ~ at_initial (heap (with_defaults todo_item)) 1%positive def_bracket /\
  regex_reset (H := neomutt_headers) example_REGCOMP example_regerror
    (Some config_set) (Some 1%positive) (Some def_bracket) (Some ""%string)
    (with_defaults todo_item)
  = Some ((1, Some "Unmatched [, [^, [:, [., or [="%string), with_defaults todo_item).
Proof.
  split; [reflexivity|]. split; [reflexivity|]. split; [discriminate|].
  exact (@reset_compile_failure neomutt_headers example_REGCOMP example_regerror
           1%positive def_bracket "["%string ""%string (with_defaults todo_item)
           eq_refl eq_refl ltac:(discriminate) ltac:(discriminate)).
Defined.

(** The item that holds [!^TODO] is reset to [^inbox] under the
    validator that vetoes everything: 3 | 32, the validator was handed
    the candidate, and the heap stays. *)
Lemma reset_veto_witness :
  is_var (heap (with_defaults todo_item)) 1%positive = true /\
  is_str (heap (with_defaults todo_item)) (initial def_inbox_vetoed) = true /\
  validator def_inbox_vetoed = Some validator_fail /\
  ~ at_initial (heap (with_defaults todo_item)) 1%positive def_inbox_vetoed /\
  exists r,
    regex_reset (H := neomutt_headers) example_REGCOMP example_regerror
      (Some config_set) (Some 1%positive) (Some def_inbox_vetoed) (Some ""%string)
      (with_defaults todo_item)
    = Some ((35, Some "validator_fail"%string),
            {| heap := heap (with_defaults todo_item); vcalls := [(r, 3)] |}).
Proof.
  split; [reflexivity|]. split; [reflexivity|]. split; [reflexivity|].
  split; [discriminate|].
  destruct (@reset_veto neomutt_headers example_REGCOMP example_regerror eq_refl
              1%positive def_inbox_vetoed validator_fail (Some ""%string)
              (with_defaults todo_item) eq_refl eq_refl eq_refl)
    as (S & _).
  destruct (S ltac:(discriminate) ltac:(intros s Q; injection Q as <-; reflexivity))
    as (r & h1 & _ & V & _).
  exists r. exact (proj1 (V ltac:(discriminate))).
Defined.

(** The unset item is reset to [^inbox]: the answer is 0 | 32, and the
    item holds a value for [^inbox]. *)
Lemma reset_unset_reports_empty_witness :
  is_var (heap (with_defaults unset_item)) 1%positive = true /\
  stored (heap (with_defaults unset_item)) 1%positive = NULL /\
  text_at (heap (with_defaults unset_item)) (initial def_inbox) = Some "^inbox"%string /\
  exists a st',
    regex_reset (H := neomutt_headers) example_REGCOMP example_regerror
      (Some config_set) (Some 1%positive) (Some def_inbox) (Some ""%string)
      (with_defaults unset_item)
    = Some ((32, Some ""%string), st') /\
    stored (heap st') 1%positive = Some a /\
    NONULL (pattern_text (heap st') (Some a)) = "^inbox"%string.
Proof.
  split; [reflexivity|]. split; [reflexivity|]. split; [reflexivity|].
  destruct (@reset_unset_reports_empty neomutt_headers example_REGCOMP example_regerror
              eq_refl 1%positive def_inbox "^inbox"%string (Some ""%string)
              (with_defaults unset_item) eq_refl eq_refl eq_refl
              ltac:(discriminate) eq_refl eq_refl)
    as (a & st' & st'' & E & S & T & _).
  exists a, st'. split; [exact E|]. split; [exact S|exact T].
Defined.

(** The initial text is set to [^inbox] and then to [^sent]: the same
    as setting it to [^sent] at once. *)
Lemma string_set_initial_twice_witness :
  @DT_INITIAL_SET neomutt_headers <> 0 /\
  exists d1 st1 d2 st2,
    regex_string_set (H := neomutt_headers) example_REGCOMP example_regerror
      (Some config_set) NULL (Some def_negatable) (Some "^inbox"%string)
      (Some ""%string) unset_item
    = Some ((0, Some d1, Some ""%string), st1) /\
    regex_string_set (H := neomutt_headers) example_REGCOMP example_regerror
      (Some config_set) NULL (Some d1) (Some "^sent"%string) (Some ""%string) st1
    = Some ((0, Some d2, Some ""%string), st2) /\
    regex_string_set (H := neomutt_headers) example_REGCOMP example_regerror
      (Some config_set) NULL (Some def_negatable) (Some "^sent"%string)
      (Some ""%string) unset_item
    = Some ((0, Some d2, Some ""%string), st2).
Proof.
  split; [discriminate|].
  exact (@string_set_initial_twice neomutt_headers example_REGCOMP example_regerror
           def_negatable (Some "^inbox"%string) (Some "^sent"%string) (Some ""%string)
           unset_item ltac:(discriminate)
           ltac:(intros Q; exfalso; apply Q; reflexivity)).
Defined.

(** The initial text is set to [^inbox], the item that holds [!^TODO]
    is reset, and [regex_string_get] reads [^inbox]. *)
Lemma string_set_initial_then_reset_witness :
  @CSR_RESULT neomutt_headers (@CSR_ERR_CODE neomutt_headers) <> 0 /\
  is_var (heap todo_item) 1%positive = true /\
  exists d' st1 res st2 rc,
    regex_string_set (H := neomutt_headers) example_REGCOMP example_regerror
      (Some config_set) NULL (Some def_negatable) (Some "^inbox"%string)
      (Some ""%string) todo_item
    = Some ((0, Some d', Some ""%string), st1) /\
    regex_reset (H := neomutt_headers) example_REGCOMP example_regerror
      (Some config_set) (Some 1%positive) (Some d') (Some ""%string) st1
    = Some (res, st2) /\
    regex_string_get (H := neomutt_headers) (Some config_set) (Some 1%positive)
      (Some d') ""%string st2
    = Some ((rc, "^inbox"%string), st2).
Proof.
  split; [discriminate|]. split; [reflexivity|].
  destruct (@string_set_initial_then_reset neomutt_headers example_REGCOMP
              example_regerror eq_refl 1%positive def_negatable (Some "^inbox"%string)
              (Some ""%string) todo_item ltac:(discriminate) eq_refl
              ltac:(intros Q; exfalso; apply Q; reflexivity))
    as (d' & st1 & res & st2 & E1 & E2 & K).
  pose proof E1 as E1'. vm_compute in E1'. injection E1' as <- <-.
  pose proof E2 as E2'. vm_compute in E2'. injection E2' as <- <-.
  destruct (K eq_refl ""%string) as (rc & G & _).
  do 4 eexists. exists rc. split; [exact E1|]. split; [exact E2|exact G].
Defined.

(** The item that holds [!^TODO] is given [[] and a buffer: 3, the
    diagnostic, and the state stays. *)
Lemma string_set_compile_failure_witness :
  is_var (heap todo_item) 1%positive = true /\
  ~ same_text (heap todo_item) 1%positive (Some "["%string) /\
  regex_string_set (H := neomutt_headers) example_REGCOMP example_regerror
    (Some config_set) (Some 1%positive) (Some def_negatable) (Some "["%string)
    (Some ""%string) todo_item
  = Some ((3, Some def_negatable, Some "Unmatched [, [^, [:, [., or [="%string),
          todo_item).
Proof.
  assert (N : ~ same_text (heap todo_item) 1%positive (Some "["%string)).
  { intros (c & S & T). vm_compute in S. injection S as <-. vm_compute in T.
    discriminate. }
  split; [reflexivity|]. split; [exact N|].
  exact (@string_set_compile_failure neomutt_headers example_REGCOMP example_regerror
           1%positive def_negatable (Some "["%string) "["%string ""%string todo_item
           eq_refl eq_refl N ltac:(discriminate)).
Defined.


(** The initial text is set to [!^TODO] and read back. *)
Lemma string_set_get_initial_round_trip_witness :
  exists d' st' rc,
    regex_string_set (H := neomutt_headers) example_REGCOMP example_regerror
      (Some config_set) NULL (Some def_negatable) (Some "!^TODO"%string)
      (Some ""%string) unset_item
    = Some ((0, Some d', Some ""%string), st') /\
    regex_string_get (H := neomutt_headers) (Some config_set) NULL (Some d')
      ""%string st'
    = Some ((rc, "!^TODO"%string), st').
Proof.
  destruct (@string_set_get_initial_round_trip neomutt_headers example_REGCOMP
              example_regerror eq_refl def_negatable (Some "!^TODO"%string)
              (Some ""%string) unset_item ""%string
              ltac:(intros Q; exfalso; apply Q; reflexivity))
    as (d' & st' & rc & E & G & _).
  exists d', st', rc. split; [exact E|exact G].
Defined.

(** The item that holds a value for the empty pattern: 0 | 32, and the
    buffer stays. *)
Lemma string_get_reads_pattern_witness :
  is_var (heap blank_item) 1%positive = true /\
  regex_string_get (H := neomutt_headers) (Some config_set) (Some 1%positive)
    (Some def_negatable) "x"%string blank_item
  = Some ((32, "x"%string), blank_item).
Proof.
  split; [reflexivity|].
  destruct (@string_get_reads_pattern neomutt_headers 1%positive def_negatable
              "x"%string blank_item eq_refl) as (rc & out & G & K).
  vm_compute in K. destruct K as [-> ->]. exact G.
Defined.

(** The unset item is reset to [^inbox], and is given [^inbox]: the
    same state, 0 | 32 from the one and 0 from the other. *)
Lemma reset_as_string_set_witness :
  is_var (heap (with_defaults unset_item)) 1%positive = true /\
  text_at (heap (with_defaults unset_item)) (initial def_inbox) = Some "^inbox"%string /\
  exists e st',
    regex_reset (H := neomutt_headers) example_REGCOMP example_regerror
      (Some config_set) (Some 1%positive) (Some def_inbox) (Some ""%string)
      (with_defaults unset_item)
    = Some ((32, e), st') /\
    regex_string_set (H := neomutt_headers) example_REGCOMP example_regerror
      (Some config_set) (Some 1%positive) (Some def_inbox) (Some "^inbox"%string)
      (Some ""%string) (with_defaults unset_item)
    = Some ((0, Some def_inbox, e), st').
Proof.
  split; [reflexivity|]. split; [reflexivity|].
  destruct (@reset_as_string_set neomutt_headers example_REGCOMP example_regerror
              1%positive def_inbox "^inbox"%string (Some ""%string)
              (with_defaults unset_item) eq_refl eq_refl ltac:(discriminate))
    as (rc & rc' & e & st' & E1 & E2 & _).
  pose proof E1 as E1'. vm_compute in E1'. injection E1' as <- <- <-.
  pose proof E2 as E2'. vm_compute in E2'. injection E2' as <-.
  do 2 eexists. split; [exact E1|exact E2].
Defined.
